(** * PDF Comparator: the extraction-and-diff worker

    A shallow embedding of [Worker.run] and [Worker.extract_text] of
    [src/main.py], together with the part of CPython's [difflib]
    (version 3.11: [SequenceMatcher] and [Differ]) that [Worker.run]
    calls at lines 48-49, and of the window [PDFComparator] of the same
    file as far as it starts a comparison, listens to the worker and
    cancels it; the menu and its two dialogs, which touch nothing of
    this, are left out.

    Conventions.
    - A Python [str] is a [string]; one [ascii] stands for one character.
      The literals of the source are kept as they are written there, the
      Cyrillic ones in UTF-8.
    - Python integers that are indices, sizes or counts are [nat].
    - A Python [dict] is a [gmap], a [set] a [gset].
    - A Python float is a binary64 [float].
    - The stack of the interpreter is finite: the room it has for the
      recursion of [Differ] is a parameter, and [Differ] raises
      [RecursionError] beyond it. *)

From Stdlib Require Import Floats Uint63 Ascii String DecimalString.
From Stdlib Require Import DecimalNat DecimalFacts.
From stdpp Require Import gmap strings list sorting.

(** ** difflib *)

Module Difflib.

(** [_calculate_ratio(matches, length)]. The conversion of an integer to
    a float is exact below 2^53. *)
Definition to_float (n : nat) : float :=
  PrimFloat.of_uint63 (Uint63.of_Z (Z.of_nat n)).

Definition calculate_ratio (matches length : nat) : float :=
  match length with
  | 0 => 1%float
  | _ => (2 * to_float matches / to_float length)%float
  end.

(** A matching block [(i, j, k)] and the order Python gives to tuples. *)
Definition block : Type := nat * nat * nat.

Definition block_le (x y : block) : Prop :=
  x.1.1 < y.1.1 ∨
  (x.1.1 = y.1.1 ∧ (x.1.2 < y.1.2 ∨ (x.1.2 = y.1.2 ∧ x.2 ≤ y.2))).

Global Instance block_le_dec : RelDecision block_le.
Proof. intros x y. unfold block_le. apply _. Defined.

Inductive tag := replace | delete | insert | equal.

Definition opcode : Type := tag * nat * nat * nat * nat.

(** [x[lo:hi]] for [lo <= hi]. *)
Definition slice {X} (x : list X) (lo hi : nat) : list X :=
  take (hi - lo) (drop lo x).

Section SequenceMatcher.
Context `{Countable A}.

(** The constructor's arguments [isjunk] and [autojunk]. *)
Variable isjunk : option (A → bool).
Variable autojunk : bool.

(** *** [__chain_b] *)

(** [indices = b2j.setdefault(elt, []); indices.append(i)] *)
Definition b2j_append (b2j : gmap A (list nat)) (ie : nat * A)
    : gmap A (list nat) :=
  <[ie.2 := default [] (b2j !! ie.2) ++ [ie.1]]> b2j.

Definition is_junk (elt : A) : bool :=
  match isjunk with
  | Some f => f elt
  | None => false
  end.

Definition chain_b_all (b : list A) : gmap A (list nat) :=
  foldl b2j_append ∅ (imap pair b).

(** [self.bjunk] *)
Definition bjunk (b : list A) : gset A :=
  filter (λ elt, is_junk elt = true) (dom (chain_b_all b)).

Definition is_popular (b : list A) (idxs : list nat) : bool :=
  autojunk && bool_decide (200 ≤ length b)
    && bool_decide (length b / 100 + 1 < length idxs).

(** [self.b2j] once junk and popular elements are purged. *)
Definition chain_b (b : list A) : gmap A (list nat) :=
  filter (λ kv, is_junk kv.1 = false ∧ is_popular b kv.2 = false)
         (chain_b_all b).

(** *** [find_longest_match] *)

(** [j2lenget(j-1, 0)]: no key is negative. *)
Definition j2lenget (j2len : gmap nat nat) (j : nat) : nat :=
  match j with
  | 0 => 0
  | S j' => default 0 (j2len !! j')
  end.

(** The loop [for j in b2j.get(a[i], nothing)], with its [continue] and
    [break]; the state is [newj2len] and [(besti, bestj, bestsize)].
    [k <= i + 1] and [k <= j + 1] there, so [i-k+1] is [i + 1 - k]. *)
Fixpoint flm_inner (i blo bhi : nat) (j2len : gmap nat nat)
    (js : list nat) (newj2len : gmap nat nat) (best : block)
    : gmap nat nat * block :=
  match js with
  | [] => (newj2len, best)
  | j :: js' =>
      if decide (j < blo) then flm_inner i blo bhi j2len js' newj2len best
      else if decide (bhi ≤ j) then (newj2len, best)
      else
        let k := j2lenget j2len j + 1 in
        flm_inner i blo bhi j2len js' (<[j := k]> newj2len)
          (if decide (best.2 < k) then (i + 1 - k, j + 1 - k, k) else best)
  end.

(** One turn of [for i in range(alo, ahi)]. *)
Definition flm_outer (a : list A) (b2j : gmap A (list nat)) (blo bhi : nat)
    (st : gmap nat nat * block) (i : nat) : gmap nat nat * block :=
  flm_inner i blo bhi st.1
    (from_option (λ x, default [] (b2j !! x)) [] (a !! i)) ∅ st.2.

(** [while besti > alo and bestj > blo and P(b[bestj-1]) and
    a[besti-1] == b[bestj-1]]. *)
Fixpoint extend_left (P : A → bool) (a b : list A) (alo blo : nat)
    (besti bestj bestsize : nat) {struct besti} : block :=
  match besti, bestj with
  | S i', S j' =>
      match a !! i', b !! j' with
      | Some x, Some y =>
          if bool_decide (alo < besti) && bool_decide (blo < bestj)
             && P y && bool_decide (x = y)
          then extend_left P a b alo blo i' j' (bestsize + 1)
          else (besti, bestj, bestsize)
      | _, _ => (besti, bestj, bestsize)
      end
  | _, _ => (besti, bestj, bestsize)
  end.

(** [while besti+bestsize < ahi and bestj+bestsize < bhi and
    P(b[bestj+bestsize]) and a[besti+bestsize] == b[bestj+bestsize]];
    [n] is [ahi - (besti + bestsize)], which drops by one each turn. *)
Fixpoint extend_right (P : A → bool) (a b : list A) (bhi : nat)
    (besti bestj bestsize : nat) (n : nat) : nat :=
  match n with
  | 0 => bestsize
  | S n' =>
      match a !! (besti + bestsize), b !! (bestj + bestsize) with
      | Some x, Some y =>
          if bool_decide (bestj + bestsize < bhi) && P y
             && bool_decide (x = y)
          then extend_right P a b bhi besti bestj (bestsize + 1) n'
          else bestsize
      | _, _ => bestsize
      end
  end.

Definition extend (P : A → bool) (a b : list A) (alo ahi blo bhi : nat)
    (best : block) : block :=
  let '(besti, bestj, bestsize) :=
    extend_left P a b alo blo best.1.1 best.1.2 best.2 in
  (besti, bestj,
   extend_right P a b bhi besti bestj bestsize (ahi - (besti + bestsize))).

Definition find_longest_match (a b : list A) (alo ahi blo bhi : nat)
    : block :=
  let b2j := chain_b b in
  let isbjunk := λ x, bool_decide (x ∈ bjunk b) in
  let best :=
    (foldl (flm_outer a b2j blo bhi) (∅, (alo, blo, 0))
           (seq alo (ahi - alo))).2 in
  let best := extend (λ x, negb (isbjunk x)) a b alo ahi blo bhi best in
  extend isbjunk a b alo ahi blo bhi best.

(** *** [get_matching_blocks] *)

(** The loop [while queue]. The head of the list is the end of the
    Python list, where [pop] and [append] work. [None]: the loop is
    still running after [fuel] turns. *)
Fixpoint matching_blocks_loop (a b : list A) (fuel : nat)
    (queue : list (nat * nat * nat * nat)) (matching_blocks : list block)
    : option (list block) :=
  match queue with
  | [] => Some matching_blocks
  | (alo, ahi, blo, bhi) :: queue =>
      match fuel with
      | 0 => None
      | S fuel =>
          let x := find_longest_match a b alo ahi blo bhi in
          let '(i, j, k) := x in
          if decide (k = 0)
          then matching_blocks_loop a b fuel queue matching_blocks
          else
            let queue :=
              if decide (alo < i ∧ blo < j)
              then (alo, i, blo, j) :: queue else queue in
            let queue :=
              if decide (i + k < ahi ∧ j + k < bhi)
              then (i + k, ahi, j + k, bhi) :: queue else queue in
            matching_blocks_loop a b fuel queue (matching_blocks ++ [x])
      end
  end.

(** One turn of [for i2, j2, k2 in matching_blocks]; the state is
    [(i1, j1, k1)] and [non_adjacent]. *)
Definition collapse_step (st : block * list block) (x : block)
    : block * list block :=
  let '((i1, j1, k1), non_adjacent) := st in
  let '(i2, j2, k2) := x in
  if decide (i1 + k1 = i2 ∧ j1 + k1 = j2)
  then ((i1, j1, k1 + k2), non_adjacent)
  else ((i2, j2, k2),
        if decide (k1 = 0) then non_adjacent
        else non_adjacent ++ [(i1, j1, k1)]).

Definition collapse (matching_blocks : list block) : list block :=
  let '((i1, j1, k1), non_adjacent) :=
    foldl collapse_step ((0, 0, 0), []) matching_blocks in
  if decide (k1 = 0) then non_adjacent else non_adjacent ++ [(i1, j1, k1)].

(** Enough turns for the loop to come to its end ([found_blocks_ok]
    below): each turn takes a region out of the queue and puts back two
    smaller ones at most. *)
Definition matching_blocks_fuel (a : list A) : nat := 2 * length a + 1.

Definition found_blocks (a b : list A) : option (list block) :=
  matching_blocks_loop a b (matching_blocks_fuel a)
    [(0, length a, 0, length b)] [].

(** [matching_blocks.sort()] is [merge_sort block_le]: the order of
    tuples is total and antisymmetric, so a list has one sorted
    arrangement, whatever the algorithm. *)
Definition get_matching_blocks (a b : list A) : list block :=
  collapse (merge_sort block_le (default [] (found_blocks a b)))
    ++ [(length a, length b, 0)].

(** *** [get_opcodes] *)

Definition opcodes_step (st : nat * nat * list opcode) (x : block)
    : nat * nat * list opcode :=
  let '(i, j, answer) := st in
  let '(ai, bj, size) := x in
  let answer :=
    if decide (i < ai ∧ j < bj) then answer ++ [(replace, i, ai, j, bj)]
    else if decide (i < ai) then answer ++ [(delete, i, ai, j, bj)]
    else if decide (j < bj) then answer ++ [(insert, i, ai, j, bj)]
    else answer in
  let i := ai + size in
  let j := bj + size in
  (i, j, if decide (size = 0) then answer
         else answer ++ [(equal, ai, i, bj, j)]).

Definition opcodes_of (blocks : list block) : list opcode :=
  (foldl opcodes_step (0, 0, []) blocks).2.

Definition get_opcodes (a b : list A) : list opcode :=
  opcodes_of (get_matching_blocks a b).

(** *** [ratio], [quick_ratio], [real_quick_ratio] *)

Definition ratio (a b : list A) : float :=
  calculate_ratio (sum_list ((λ x : block, x.2) <$> get_matching_blocks a b))
                  (length a + length b).

(** [fullbcount[elt] = fullbcount.get(elt, 0) + 1] *)
Definition fullbcount (b : list A) : gmap A Z :=
  foldl (λ m elt, <[elt := (default 0 (m !! elt) + 1)%Z]> m) ∅ b.

(** One turn of [for elt in self.a]; the state is [avail] and [matches]. *)
Definition quick_step (fbc : gmap A Z) (st : gmap A Z * nat) (elt : A)
    : gmap A Z * nat :=
  let numb :=
    match st.1 !! elt with
    | Some n => n
    | None => default 0%Z (fbc !! elt)
    end in
  (<[elt := (numb - 1)%Z]> st.1,
   if decide (0 < numb)%Z then st.2 + 1 else st.2).

Definition quick_ratio (a b : list A) : float :=
  calculate_ratio (foldl (quick_step (fullbcount b)) (∅, 0) a).2
                  (length a + length b).

Definition real_quick_ratio (a b : list A) : float :=
  calculate_ratio (length a `min` length b) (length a + length b).

End SequenceMatcher.

(** *** [Differ] *)

(** A line of the delta: the two-character code that [Differ] puts in
    front ([kind_tag]) and the text after it. *)
Inductive kind := Unchanged | Added | Removed | IntralineHint.

Record DiffEntry := mkEntry { entry_kind : kind; entry_line : string }.

Definition kind_tag (k : kind) : string :=
  match k with
  | Unchanged => "  "
  | Added => "+ "
  | Removed => "- "
  | IntralineHint => "? "
  end.

(** The string that [Differ] yields for an entry. *)
Definition render (e : DiffEntry) : string :=
  kind_tag (entry_kind e) +:+ entry_line e.

Definition chars (s : string) : list ascii := list_ascii_of_string s.

(** [c.isspace()] for a character below 256. *)
Definition isspace (c : ascii) : bool :=
  let n := nat_of_ascii c in
  bool_decide (9 ≤ n ≤ 13) || bool_decide (28 ≤ n ≤ 32)
  || bool_decide (n = 133) || bool_decide (n = 160).

(** [_keep_original_ws(s, tag_s)] *)
Definition keep_original_ws (s tag_s : list ascii) : list ascii :=
  zip_with (λ c tag_c,
    if bool_decide (tag_c = " "%char) && isspace c then c else tag_c)
    s tag_s.

(** [s.rstrip()] *)
Fixpoint rstrip (s : list ascii) : list ascii :=
  match s with
  | [] => []
  | c :: s' =>
      match rstrip s' with
      | [] => if isspace c then [] else [c]
      | r => c :: r
      end
  end.

Definition newline : string := String (ascii_of_nat 10) "".

(** What leaves [Differ] instead of a value when it raises: the
    [RecursionError] of the interpreter, the [IndexError] of [a[best_i]],
    the [UnboundLocalError] of a [best_i] that was never bound. *)
Inductive error := RecursionError | IndexError | UnboundLocalError.

Inductive result (X : Type) :=
  | Done (x : X)
  | Raised (e : error).
Arguments Done {X} x.
Arguments Raised {X} e.

Global Instance result_ret : MRet result := @Done.
Global Instance result_bind : MBind result := λ X Y f r,
  match r with
  | Done x => f x
  | Raised e => Raised e
  end.

(** [x[i]] for an index that is not negative. *)
Definition getitem {X} (x : list X) (i : nat) : result X :=
  match x !! i with
  | Some v => Done v
  | None => Raised IndexError
  end.

Section Differ.
(** The constructor's arguments. *)
Variable linejunk : option (string → bool).
Variable charjunk : option (ascii → bool).

(** [_dump(tag, x, lo, hi)] *)
Definition dump (k : kind) (x : list string) (lo hi : nat)
    : list DiffEntry :=
  mkEntry k <$> slice x lo hi.

(** [_plain_replace]; its callers have [alo < ahi] and [blo < bhi]. *)
Definition plain_replace (a : list string) (alo ahi : nat)
    (b : list string) (blo bhi : nat) : list DiffEntry :=
  if decide (bhi - blo < ahi - alo)
  then dump Added b blo bhi ++ dump Removed a alo ahi
  else dump Removed a alo ahi ++ dump Added b blo bhi.

(** [_qformat(aline, bline, atags, btags)] *)
Definition qformat (aline bline : string) (atags btags : list ascii)
    : list DiffEntry :=
  let atags := rstrip (keep_original_ws (chars aline) atags) in
  let btags := rstrip (keep_original_ws (chars bline) btags) in
  [mkEntry Removed aline]
  ++ (if decide (atags = []) then []
      else [mkEntry IntralineHint (string_of_list_ascii atags +:+ newline)])
  ++ [mkEntry Added bline]
  ++ (if decide (btags = []) then []
      else [mkEntry IntralineHint (string_of_list_ascii btags +:+ newline)]).

(** One turn of [for tag, ai1, ai2, bj1, bj2 in cruncher.get_opcodes()];
    the state is [atags] and [btags]. *)
Definition tags_step (st : list ascii * list ascii) (op : opcode)
    : list ascii * list ascii :=
  let '(tag, ai1, ai2, bj1, bj2) := op in
  let la := ai2 - ai1 in
  let lb := bj2 - bj1 in
  match tag with
  | replace => (st.1 ++ replicate la "^"%char, st.2 ++ replicate lb "^"%char)
  | delete => (st.1 ++ replicate la "-"%char, st.2)
  | insert => (st.1, st.2 ++ replicate lb "+"%char)
  | equal => (st.1 ++ replicate la " "%char, st.2 ++ replicate lb " "%char)
  end.

(** The '-', '?', '+', '?' quad for the synched lines. *)
Definition intraline (aelt belt : string) : list DiffEntry :=
  let tags :=
    foldl tags_step ([], [])
          (get_opcodes charjunk true (chars aelt) (chars belt)) in
  qformat aelt belt tags.1 tags.2.

(** The search of [_fancy_replace] for the pair that matches best; the
    state is [best_ratio], [(best_i, best_j)] if bound, and
    [(eqi, eqj)] if not [None]. *)
Definition search_state : Type :=
  float * option (nat * nat) * option (nat * nat).

(** [0.74], rounded as Python rounds it. *)
Definition best_ratio_init : float := 0x1.7ae147ae147aep-1%float.
Definition cutoff : float := 0.75%float.

Definition search_step (a : list string) (bj : string) (j : nat)
    (st : search_state) (i : nat) : search_state :=
  match a !! i with
  | None => st
  | Some ai =>
      if decide (ai = bj)
      then (st.1, match st.2 with None => Some (i, j) | eq => eq end)
      else
        let best_ratio := st.1.1 in
        if (best_ratio <? real_quick_ratio (chars ai) (chars bj))%float
           && (best_ratio <? quick_ratio (chars ai) (chars bj))%float
           && (best_ratio <? ratio charjunk true (chars ai) (chars bj))%float
        then (ratio charjunk true (chars ai) (chars bj), Some (i, j), st.2)
        else st
  end.

Definition search (a : list string) (alo ahi : nat)
    (b : list string) (blo bhi : nat) : search_state :=
  foldl (λ st j,
           match b !! j with
           | None => st
           | Some bj => foldl (search_step a bj j) st (seq alo (ahi - alo))
           end)
        (best_ratio_init, None, None) (seq blo (bhi - blo)).

(** [_fancy_helper], given [_fancy_replace]. *)
Definition fancy_helper
    (fancy : nat → nat → nat → nat → result (list DiffEntry))
    (a b : list string) (alo ahi blo bhi : nat)
    : result (list DiffEntry) :=
  if decide (alo < ahi) then
    if decide (blo < bhi) then fancy alo ahi blo bhi
    else Done (dump Removed a alo ahi)
  else if decide (blo < bhi) then Done (dump Added b blo bhi)
  else Done [].

(** The end of [_fancy_replace]: the diffs before the synch point, the
    synch pair, the diffs after it. *)
Definition synch
    (fancy : nat → nat → nat → nat → result (list DiffEntry))
    (a b : list string) (alo ahi blo bhi : nat)
    (best_i best_j : nat) (identical : bool) : result (list DiffEntry) :=
  before ← fancy_helper fancy a b alo best_i blo best_j;
  aelt ← getitem a best_i;
  belt ← getitem b best_j;
  after ← fancy_helper fancy a b (best_i + 1) ahi (best_j + 1) bhi;
  Done (before
        ++ (if identical then [mkEntry Unchanged aelt]
            else intraline aelt belt)
        ++ after).

(** [_fancy_replace]. It calls itself, through [_fancy_helper], on
    [a[alo:best_i]] and on [a[best_i+1:ahi]], and every call that has not
    returned keeps its frames on the stack of the interpreter. [depth] is
    the number of calls, one inside the other, that this stack still has
    room for: with no room left the call raises [RecursionError]. The
    lines are handed to [list], so nothing of them is seen when a call
    raises. *)
Fixpoint fancy_replace (depth : nat) (a : list string) (alo ahi : nat)
    (b : list string) (blo bhi : nat) : result (list DiffEntry) :=
  match depth with
  | 0 => Raised RecursionError
  | S depth =>
      let '(best_ratio, best, eq) := search a alo ahi b blo bhi in
      let fancy := λ alo ahi blo bhi, fancy_replace depth a alo ahi b blo bhi in
      if (best_ratio <? cutoff)%float then
        match eq with
        | None => Done (plain_replace a alo ahi b blo bhi)
        | Some (eqi, eqj) => synch fancy a b alo ahi blo bhi eqi eqj true
        end
      else
        match best with
        | Some (best_i, best_j) =>
            synch fancy a b alo ahi blo bhi best_i best_j false
        | None => Raised UnboundLocalError
        end
  end.

(** The calls of [_fancy_replace], one inside the other, that the stack
    of the interpreter has room for when [compare] is at work: what
    [sys.getrecursionlimit()] leaves once the frames in use are taken
    off, at two generator frames for each call. *)
Variable recursion_limit : nat.

(** The body of the loop of [compare] for one opcode. *)
Definition compare_opcode (a b : list string) (op : opcode)
    : result (list DiffEntry) :=
  let '(tag, alo, ahi, blo, bhi) := op in
  match tag with
  | replace => fancy_replace recursion_limit a alo ahi b blo bhi
  | delete => Done (dump Removed a alo ahi)
  | insert => Done (dump Added b blo bhi)
  | equal => Done (dump Unchanged a alo ahi)
  end.

(** [compare(a, b)], as entries. *)
Definition compare_entries (a b : list string) : result (list DiffEntry) :=
  parts ← mapM (compare_opcode a b) (get_opcodes linejunk true a b);
  Done (concat parts).

(** [list(compare(a, b))] *)
Definition compare (a b : list string) : result (list string) :=
  match compare_entries a b with
  | Done entries => Done (render <$> entries)
  | Raised e => Raised e
  end.

End Differ.

End Difflib.

(** ** The worker of [src/main.py] *)

Module Worker.

(** The signals of [Worker] (lines 17-21), with what they carry. *)
Inductive notification :=
  | progress_updated (value : nat)
  | status_updated (text : string)
  | result_ready (html : string)
  | error_occurred (msg : string)
  | finished.

(** What the worker thread does that other threads see or decide: a read
    of [self._is_running], with the value read, and an emitted signal. *)
Inductive event :=
  | Poll (running : bool)
  | Emit (n : notification).

(** A call into pdfminer or PyPDF2 returns or raises; [msg] is [str(e)]. *)
Inductive lib_result (X : Type) :=
  | Returned (x : X)
  | Failed (msg : string).
Arguments Returned {X} x.
Arguments Failed {X} msg.

(** A page of [reader.pages]: what [page.extract_text()] does, where
    [Returned None] is a page for which it returns [None]. *)
Definition page : Type := lib_result (option string).

(** Everything outside the worker thread.
    - [stop_at]: [stop()] only ever clears [_is_running], so the reads of
      the flag see [True] up to some read and [False] from it on;
      [Some n] is the number of reads that see [True], [None] a flag that
      is never cleared while [run] is at work.
    - [pdfminer_extract], [PdfReader]: the libraries on a path;
      [PdfReader] stands for opening the file and taking [reader.pages].
    - [path_name p] is [Path(p).name].
    - [recursion_limit]: the room that the stack of the interpreter has
      for [Differ] when line 49 calls it, counted in calls of
      [_fancy_replace], one inside the other. The interpreter counts
      frames, those in use when [run] starts and those of the methods
      that [_fancy_replace] calls among them: the world tells at which
      call the stack runs out, whatever the count behind it.
      [recursion_message] is [str(e)] of the [RecursionError] raised
      then, which tells where the stack ran out. *)
Record World := {
  stop_at : option nat;
  pdfminer_extract : string → lib_result string;
  PdfReader : string → lib_result (list page);
  path_name : string → string;
  recursion_limit : nat;
  recursion_message : string;
}.

(** The exceptions at work in [run]: what pdfminer or PyPDF2 raised,
    kept apart from what the worker's own code raises, the
    [ZeroDivisionError] of a division and the [Exception] of line 97, and
    from what [Differ] raises. *)
Inductive exn :=
  | LibraryError (msg : string)
  | ZeroDivisionError
  | Exception (msg : string)
  | RecursionError (msg : string)
  | IndexError
  | UnboundLocalError.

(** [str(e)] *)
Definition str (e : exn) : string :=
  match e with
  | LibraryError msg => msg
  | ZeroDivisionError => "integer division or modulo by zero"
  | Exception msg => msg
  | RecursionError msg => msg
  | IndexError => "list index out of range"
  | UnboundLocalError =>
      "cannot access local variable 'best_i' where it is not associated "
      +:+ "with a value"
  end.

(** Line 97: [Exception(f"Ошибка извлечения текста: {str(e2)}")] *)
Definition extraction_error (e2 : exn) : exn :=
  Exception ("Ошибка извлечения текста: " +:+ str e2).

(** Line 75: [f"Ошибка: {str(e)}"] *)
Definition error_message (e : exn) : string := "Ошибка: " +:+ str e.

Inductive outcome (X : Type) :=
  | Ok (x : X)
  | Raise (e : exn).
Arguments Ok {X} x.
Arguments Raise {X} e.

(** A computation of the worker thread: from the events so far (the
    latest last) to an outcome and the events then. *)
Definition M (X : Type) : Type := list event → outcome X * list event.

Definition ret {X} (x : X) : M X := λ s, (Ok x, s).

Definition bind {X Y} (m : M X) (f : X → M Y) : M Y :=
  λ s, match m s with
       | (Ok x, s') => f x s'
       | (Raise e, s') => (Raise e, s')
       end.

Definition raise {X} (e : exn) : M X := λ s, (Raise e, s).

(** [try: m except Exception as e: handler e] *)
Definition try_except {X} (m : M X) (handler : exn → M X) : M X :=
  λ s, match m s with
       | (Raise e, s') => handler e s'
       | r => r
       end.

(** [try: m finally: final] *)
Definition try_finally {X} (m : M X) (final : M unit) : M X :=
  λ s, match m s with
       | (r, s') =>
           match final s' with
           | (Ok _, s'') => (r, s'')
           | (Raise e, s'') => (Raise e, s'')
           end
       end.

Global Instance M_ret : MRet M := @ret.
Global Instance M_bind : MBind M := λ X Y f m, bind m f.

Definition emit (n : notification) : M unit := λ s, (Ok (), s ++ [Emit n]).

Definition is_poll (e : event) : bool :=
  match e with
  | Poll _ => true
  | Emit _ => false
  end.

(** The number of reads of the flag so far. *)
Definition polls (s : list event) : nat := length (filter is_poll s).

Definition call {X} (r : lib_result X) : M X :=
  match r with
  | Returned x => ret x
  | Failed msg => raise (LibraryError msg)
  end.

(** [x // y] *)
Definition floordiv (x y : nat) : M nat :=
  if decide (y = 0) then raise ZeroDivisionError else ret (x / y).

(** [str(n)] for an integer that is not negative. *)
Definition str_of_nat (n : nat) : string :=
  NilZero.string_of_uint (Nat.to_uint n).

Definition dquote : string := String (ascii_of_nat 34) "".

(** [f'<span style="color:{color}">{line}</span>'] *)
Definition span (color line : string) : string :=
  "<span style=" +:+ dquote +:+ "color:" +:+ color +:+ dquote +:+ ">"
  +:+ line +:+ "</span>".

(** [text.splitlines()], for characters below 256: a line ends at
    [\n], [\r], [\r\n], [\v], [\f], [\x1c], [\x1d], [\x1e] or [\x85]. *)
Definition is_linebreak (c : ascii) : bool :=
  let n := nat_of_ascii c in
  bool_decide (10 ≤ n ≤ 13) || bool_decide (28 ≤ n ≤ 30)
  || bool_decide (n = 133).

Fixpoint splitlines_from (line : string) (text : string) : list string :=
  match text with
  | EmptyString => if decide (line = "") then [] else [line]
  | String c text' =>
      if bool_decide (nat_of_ascii c = 13) then
        match text' with
        | String c' text'' =>
            if bool_decide (nat_of_ascii c' = 10)
            then line :: splitlines_from "" text''
            else line :: splitlines_from "" text'
        | EmptyString => [line]
        end
      else if is_linebreak c then line :: splitlines_from "" text'
      else splitlines_from (line +:+ String c "") text'
  end.

Definition splitlines (text : string) : list string :=
  splitlines_from "" text.

(** [x or ""] *)
Definition or_empty (x : option string) : string := default "" x.

Section Run.
Variable w : World.

(** Line 49: [list(differ.compare(lines1, lines2))], for the [Differ] of
    line 48. *)
Definition differ_compare (lines1 lines2 : list string) : M (list string) :=
  match Difflib.compare None None (recursion_limit w) lines1 lines2 with
  | Difflib.Done diff => ret diff
  | Difflib.Raised Difflib.RecursionError =>
      raise (RecursionError (recursion_message w))
  | Difflib.Raised Difflib.IndexError => raise IndexError
  | Difflib.Raised Difflib.UnboundLocalError => raise UnboundLocalError
  end.

(** [self._is_running], read by the worker thread. *)
Definition is_running : M bool :=
  λ s,
    let r :=
      match stop_at w with
      | None => true
      | Some n => bool_decide (polls s < n)
      end in
    (Ok r, s ++ [Poll r]).

(** Lines 89-95: the loop over [enumerate(reader.pages)] and the
    [return text] after it; [npages] is [len(reader.pages)]. *)
Fixpoint pages_loop (npages : nat) (i : nat) (pages : list page)
    (text : string) : M string :=
  match pages with
  | [] => ret text
  | page :: pages' =>
      running ← is_running;
      if negb running then ret ""
      else
        q ← floordiv (i * 40) npages;
        let progress := 10 + q in
        emit (progress_updated progress);;
        t ← call page;
        pages_loop npages (i + 1) pages' (text +:+ or_empty t)
  end.

(** Lines 87-95: the body of the inner [try]. *)
Definition fallback (pdf_path : string) : M string :=
  pages ← call (PdfReader w pdf_path);
  pages_loop (length pages) 0 pages "".

(** [Worker.extract_text] *)
Definition extract_text (pdf_path : string) : M string :=
  try_except (call (pdfminer_extract w pdf_path))
    (λ e, try_except (fallback pdf_path) (λ e2, raise (extraction_error e2))).

(** Lines 56-67: the loop over [diff]; [None] when it leaves [run] by
    its [return]. *)
Fixpoint format_loop (diff : list string) (result : list string)
    (added removed : nat) : M (option (list string * nat * nat)) :=
  match diff with
  | [] => ret (Some (result, added, removed))
  | line :: diff' =>
      running ← is_running;
      if negb running then ret None
      else if String.prefix "- " line then
        format_loop diff' (result ++ [span "red" line]) added (removed + 1)
      else if String.prefix "+ " line then
        format_loop diff' (result ++ [span "green" line]) (added + 1) removed
      else if negb (String.prefix "? " line) then
        format_loop diff' (result ++ [span "gray" line]) added removed
      else format_loop diff' result added removed
  end.

(** Line 69 *)
Definition summary (added removed : nat) : string :=
  Difflib.newline +:+ "<b>Итого: " +:+ str_of_nat added +:+ " добавлений, "
  +:+ str_of_nat removed +:+ " удалений</b>".

Definition status_extracting (file : string) : string :=
  "Извлечение текста из " +:+ path_name w file +:+ "...".

Definition status_done (lines1 lines2 : list string) : string :=
  "Сравнение завершено. " +:+ str_of_nat (length lines1) +:+ " к "
  +:+ str_of_nat (length lines2) +:+ " строк.".

(** Lines 31-72: the body of the [try] of [run]. *)
Definition run_body (file1 file2 : string) : M unit :=
  emit (status_updated (status_extracting file1));;
  text1 ← extract_text file1;
  running ← is_running;
  if negb running then ret ()
  else
    emit (progress_updated 30);;
    emit (status_updated (status_extracting file2));;
    text2 ← extract_text file2;
    running ← is_running;
    if negb running then ret ()
    else
      emit (progress_updated 60);;
      emit (status_updated "Сравнение текстов...");;
      let lines1 := splitlines text1 in
      let lines2 := splitlines text2 in
      diff ← differ_compare lines1 lines2;
      emit (progress_updated 80);;
      emit (status_updated "Форматирование результатов...");;
      formatted ← format_loop diff [] 0 0;
      match formatted with
      | None => ret ()
      | Some (result, added, removed) =>
          let result := result ++ [summary added removed] in
          emit (result_ready (String.concat "<br>" result));;
          emit (progress_updated 100);;
          emit (status_updated (status_done lines1 lines2))
      end.

(** [Worker.run] *)
Definition run (file1 file2 : string) : M unit :=
  try_finally
    (try_except (run_body file1 file2)
       (λ e, emit (error_occurred (error_message e))))
    (emit finished).

(** The events of a whole run. *)
Definition trace (file1 file2 : string) : list event :=
  (run file1 file2 []).2.

End Run.

(** The signals among the events, in order. *)
Definition notifications (s : list event) : list notification :=
  omap (λ e, match e with Emit n => Some n | Poll _ => None end) s.

End Worker.

(** ** The window of [src/main.py] *)

Module PDFComparator.
Import Worker.

(** The [Worker] object that the window holds: the arguments of its
    constructor and its flag (lines 23-27). *)
Record WorkerObject := {
  file1 : string;
  file2 : string;
  _is_running : bool;
}.

(** [Worker.__init__] *)
Definition Worker_init (file1 file2 : string) : WorkerObject :=
  {| file1 := file1; file2 := file2; _is_running := true |}.

(** [Worker.stop] *)
Definition stop (self : WorkerObject) : WorkerObject :=
  {| file1 := file1 self; file2 := file2 self; _is_running := false |}.

(** A [QMessageBox.critical(self, title, text)] shown to the user. *)
Inductive message_box := critical (title text : string).

(** What the methods of [PDFComparator] read and write.
    - [file1_edit], [file2_edit], [status_label]: the text of the widget;
    - [compare_btn], [cancel_btn]: whether the button is enabled;
    - [result_text]: the HTML set last, the empty text once cleared;
    - [progress_bar]: its value, in a range set to 0..100 (line 220);
    - [worker_thread]: [None], or a [QThread] with what [isRunning()]
      gives;
    - [worker]: [None] as long as the attribute is not set;
    - [message_boxes]: the boxes shown so far, the latest last. *)
Record Window := {
  file1_edit : string;
  file2_edit : string;
  compare_btn : bool;
  cancel_btn : bool;
  result_text : string;
  status_label : string;
  progress_bar : Z;
  progress_bar_visible : bool;
  worker_thread : option bool;
  worker : option WorkerObject;
  message_boxes : list message_box;
}.

(** The window when [__init__] returns (lines 104-110, 155-222): a new
    [QPushButton] is enabled, a new [QProgressBar] has the value -1. *)
Definition init_ui : Window :=
  {| file1_edit := ""; file2_edit := "";
     compare_btn := true; cancel_btn := false;
     result_text := ""; status_label := "Готов";
     progress_bar := -1; progress_bar_visible := false;
     worker_thread := None; worker := None; message_boxes := [] |}.

Section Methods.
(** [os.path.exists] *)
Variable path_exists : string → bool.

Definition show_box (box : message_box) (self : Window) : Window :=
  {| file1_edit := file1_edit self; file2_edit := file2_edit self;
     compare_btn := compare_btn self; cancel_btn := cancel_btn self;
     result_text := result_text self; status_label := status_label self;
     progress_bar := progress_bar self;
     progress_bar_visible := progress_bar_visible self;
     worker_thread := worker_thread self; worker := worker self;
     message_boxes := message_boxes self ++ [box] |}.

(** [line_edit.setText(text)] for the first or the second line edit. *)
Definition setText (first : bool) (text : string) (self : Window) : Window :=
  {| file1_edit := if first then text else file1_edit self;
     file2_edit := if first then file2_edit self else text;
     compare_btn := compare_btn self; cancel_btn := cancel_btn self;
     result_text := result_text self; status_label := status_label self;
     progress_bar := progress_bar self;
     progress_bar_visible := progress_bar_visible self;
     worker_thread := worker_thread self; worker := worker self;
     message_boxes := message_boxes self |}.

(** [select_file(line_edit)], with the path that the file dialog gives:
    the empty text when the user closes it. *)
Definition select_file (first : bool) (file_path : string) (self : Window)
    : Window :=
  if decide (file_path = "") then self else setText first file_path self.

(** [start_comparison] (lines 230-262). When it returns the thread has
    been started: [isRunning()] holds from [start()] on. *)
Definition start_comparison (self : Window) : Window :=
  let file1 := file1_edit self in
  let file2 := file2_edit self in
  if bool_decide (file1 = "") || bool_decide (file2 = "") then
    show_box (critical "Ошибка" "Пожалуйста, выберите два PDF-файла") self
  else if negb (path_exists file1) || negb (path_exists file2) then
    show_box (critical "Ошибка" "Один или оба файла не существуют") self
  else
    {| file1_edit := file1_edit self; file2_edit := file2_edit self;
       compare_btn := false; cancel_btn := true;
       result_text := ""; status_label := "Начато сравнение...";
       progress_bar := 0; progress_bar_visible := true;
       worker_thread := Some true; worker := Some (Worker_init file1 file2);
       message_boxes := message_boxes self |}.

(** [update_progress]: [setValue] leaves the value as it is when the new
    one is out of the range. *)
Definition update_progress (value : nat) (self : Window) : Window :=
  {| file1_edit := file1_edit self; file2_edit := file2_edit self;
     compare_btn := compare_btn self; cancel_btn := cancel_btn self;
     result_text := result_text self; status_label := status_label self;
     progress_bar :=
       if decide (0 ≤ Z.of_nat value ≤ 100)%Z then Z.of_nat value
       else progress_bar self;
     progress_bar_visible := progress_bar_visible self;
     worker_thread := worker_thread self; worker := worker self;
     message_boxes := message_boxes self |}.

Definition update_status (text : string) (self : Window) : Window :=
  {| file1_edit := file1_edit self; file2_edit := file2_edit self;
     compare_btn := compare_btn self; cancel_btn := cancel_btn self;
     result_text := result_text self; status_label := text;
     progress_bar := progress_bar self;
     progress_bar_visible := progress_bar_visible self;
     worker_thread := worker_thread self; worker := worker self;
     message_boxes := message_boxes self |}.

Definition show_result (html_text : string) (self : Window) : Window :=
  {| file1_edit := file1_edit self; file2_edit := file2_edit self;
     compare_btn := compare_btn self; cancel_btn := cancel_btn self;
     result_text := html_text; status_label := status_label self;
     progress_bar := progress_bar self;
     progress_bar_visible := progress_bar_visible self;
     worker_thread := worker_thread self; worker := worker self;
     message_boxes := message_boxes self |}.

Definition show_error (error_msg : string) (self : Window) : Window :=
  show_box (critical "Ошибка" error_msg) self.

(** [cleanup]: the thread, if there is one, is stopped and dropped. *)
Definition cleanup (self : Window) : Window :=
  {| file1_edit := file1_edit self; file2_edit := file2_edit self;
     compare_btn := true; cancel_btn := false;
     result_text := result_text self; status_label := status_label self;
     progress_bar := progress_bar self;
     progress_bar_visible := false;
     worker_thread := None; worker := worker self;
     message_boxes := message_boxes self |}.

(** [self.worker_thread and self.worker_thread.isRunning()] *)
Definition thread_is_running (self : Window) : bool :=
  match worker_thread self with
  | Some running => running
  | None => false
  end.

(** [cancel_operation]. [None]: the [AttributeError] of [self.worker]
    when the attribute is not set. *)
Definition cancel_operation (self : Window) : option Window :=
  if thread_is_running self then
    wk ← worker self;
    Some {| file1_edit := file1_edit self; file2_edit := file2_edit self;
            compare_btn := compare_btn self; cancel_btn := false;
            result_text := result_text self;
            status_label := "Отмена операции...";
            progress_bar := progress_bar self;
            progress_bar_visible := progress_bar_visible self;
            worker_thread := worker_thread self; worker := Some (stop wk);
            message_boxes := message_boxes self |}
  else Some self.

(** [closeEvent]: the window then, and whether the event is accepted. *)
Definition closeEvent (self : Window) : option (Window * bool) :=
  if thread_is_running self then
    self ← cancel_operation self; Some (self, false)
  else Some (self, true).

(** The slot that each signal of the worker is connected to (lines
    255-259). *)
Definition slot (n : notification) : Window → Window :=
  match n with
  | progress_updated value => update_progress value
  | status_updated text => update_status text
  | result_ready html => show_result html
  | error_occurred msg => show_error msg
  | finished => cleanup
  end.

(** What the event loop of the window has to handle: a click on one of
    the buttons (on "browse", with the path that the file dialog then
    gives), a text typed into one of the line edits, a request to close
    the window (the menu's exit is one), a signal of the worker. *)
Inductive gui_event :=
  | click_compare
  | click_cancel
  | click_browse (first : bool) (file_path : string)
  | type_path (first : bool) (text : string)
  | close_window
  | deliver (n : notification).

(** A button that is not enabled emits no [clicked]. *)
Definition handle (self : Window) (e : gui_event) : option Window :=
  match e with
  | click_compare =>
      if compare_btn self then Some (start_comparison self) else Some self
  | click_cancel =>
      if cancel_btn self then cancel_operation self else Some self
  | click_browse first file_path => Some (select_file first file_path self)
  | type_path first text => Some (setText first text self)
  | close_window => fst <$> closeEvent self
  | deliver n => Some (slot n self)
  end.

Definition handle_all (self : Window) (evs : list gui_event)
    : option Window :=
  foldl (λ r e, self ← r; handle self e) (Some self) evs.

End Methods.

(** The signals among the events of the window, in order. *)
Definition delivered (evs : list gui_event) : list notification :=
  omap (λ e, match e with deliver n => Some n | _ => None end) evs.

End PDFComparator.

(** * Specification *)

Import Difflib Worker.

(** ** What [SequenceMatcher] computes *)

Section SequenceMatcher_spec.
Context {A : Type}.
Implicit Types a b : list A.

Definition matches a b (i j k : nat) : Prop :=
  ∀ t, t < k → ∃ x, a !! (i + t) = Some x ∧ b !! (j + t) = Some x.

Definition good_block a b (alo ahi blo bhi : nat) (x : block) : Prop :=
  alo ≤ x.1.1 ∧ x.1.1 + x.2 ≤ ahi ∧ blo ≤ x.1.2 ∧ x.1.2 + x.2 ≤ bhi
  ∧ matches a b x.1.1 x.1.2 x.2.

(** What [j2len] holds when the turn for [i] starts. *)
Definition j2len_ok a b (alo blo bhi : nat) (i : nat)
    (j2len : gmap nat nat) : Prop :=
  ∀ j k, j2len !! j = Some k →
    1 ≤ k ∧ alo + k ≤ i ∧ blo + k ≤ j + 1 ∧ j < bhi
    ∧ matches a b (i - k) (j + 1 - k) k.

(** Blocks in ascending order from [(i0, j0)], none of them empty, that
    end by [(hi, hj)]. *)
Fixpoint chain a b (i0 j0 hi hj : nat) (l : list block) : Prop :=
  match l with
  | [] => i0 ≤ hi ∧ j0 ≤ hj
  | x :: l =>
      i0 ≤ x.1.1 ∧ j0 ≤ x.1.2 ∧ 0 < x.2 ∧ matches a b x.1.1 x.1.2 x.2
      ∧ chain a b (x.1.1 + x.2) (x.1.2 + x.2) hi hj l
  end.

Definition rect : Type := nat * nat * nat * nat.

Definition rect_ok a b (r : rect) : Prop :=
  r.1.1.1 ≤ r.1.1.2 ≤ length a ∧ r.1.2 ≤ r.2 ≤ length b.

Definition rect_chain a b (r : rect) (l : list block) : Prop :=
  chain a b r.1.1.1 r.1.2 r.1.1.2 r.2 l.

Definition queue_measure (queue : list rect) : nat :=
  sum_list ((λ r : rect, 2 * (r.1.1.2 - r.1.1.1) + 1) <$> queue).

(** The invariant of [while queue]: however the regions still queued
    are filled, the blocks found make one chain. *)
Definition loop_inv a b (queue : list rect) (blocks : list block) : Prop :=
  Forall (rect_ok a b) queue
  ∧ ∀ cs, Forall2 (rect_chain a b) queue cs →
      ∃ l, chain a b 0 0 (length a) (length b) l ∧ blocks ++ concat cs ≡ₚ l.

(** What [get_opcodes] promises: the opcodes go through [a] from [i] and
    through [b] from [j], with no gap, to the ends. *)
Definition tag_ok a b (t : tag) (i1 i2 j1 j2 : nat) : Prop :=
  match t with
  | replace => i1 < i2 ∧ j1 < j2
  | delete => i1 < i2 ∧ j1 = j2
  | insert => i1 = i2 ∧ j1 < j2
  | equal => i1 < i2 ∧ i2 - i1 = j2 - j1 ∧ matches a b i1 j1 (i2 - i1)
  end.

Fixpoint opcodes_ok a b (i j : nat) (ops : list opcode) : Prop :=
  match ops with
  | [] => i = length a ∧ j = length b
  | (t, i1, i2, j1, j2) :: ops =>
      i1 = i ∧ j1 = j ∧ i2 ≤ length a ∧ j2 ≤ length b
      ∧ tag_ok a b t i1 i2 j1 j2 ∧ opcodes_ok a b i2 j2 ops
  end.

End SequenceMatcher_spec.

(** ** What [Differ] computes *)

Definition keeps_a (k : kind) : bool :=
  match k with
  | Unchanged | Removed => true
  | Added | IntralineHint => false
  end.

Definition keeps_b (k : kind) : bool :=
  match k with
  | Unchanged | Added => true
  | Removed | IntralineHint => false
  end.

Definition restore (keep : kind → bool) (d : list DiffEntry) : list string :=
  omap (λ e, if keep (entry_kind e) then Some (entry_line e) else None) d.

Section Differ_spec.
Implicit Types a b : list string.

Definition search_ok a b (alo ahi blo bhi : nat) (st : search_state)
    : Prop :=
  (st.1.2 = None → st.1.1 = best_ratio_init)
  ∧ (∀ i j, st.1.2 = Some (i, j) → alo ≤ i < ahi ∧ blo ≤ j < bhi)
  ∧ (∀ i j, st.2 = Some (i, j) →
       alo ≤ i < ahi ∧ blo ≤ j < bhi ∧ a !! i = b !! j).

(** What a part of the delta must give back: [a[alo:ahi]] from the lines
    kept for [a], [b[blo:bhi]] from the lines kept for [b]. *)
Definition restores a b (alo ahi blo bhi : nat)
    (r : result (list DiffEntry)) : Prop :=
  ∃ d, r = Done d ∧ restore keeps_a d = slice a alo ahi
       ∧ restore keeps_b d = slice b blo bhi.

(** The same, or a [RecursionError], and this only where both ranges
    hold more lines than [depth]. *)
Definition restores_within (depth : nat) a b (alo ahi blo bhi : nat)
    (r : result (list DiffEntry)) : Prop :=
  (r = Raised Difflib.RecursionError
   ∧ depth < ahi - alo ∧ depth < bhi - blo)
  ∨ restores a b alo ahi blo bhi r.

End Differ_spec.

Global Instance kind_eq_dec : EqDecision kind.
Proof. solve_decision. Defined.

Global Instance notification_eq_dec : EqDecision notification.
Proof. solve_decision. Defined.

Definition count (k : kind) (d : list DiffEntry) : nat :=
  length (filter (λ e, entry_kind e = k) d).

(** ** What the worker does *)

Definition stopped (w : World) (s : list event) : Prop :=
  ∃ n, stop_at w = Some n ∧ n ≤ polls s.

(** What a read of the flag sees after [k] earlier reads. *)
Definition flag_at (w : World) (k : nat) : bool :=
  match stop_at w with
  | None => true
  | Some n => bool_decide (k < n)
  end.

(** Every read of the flag in a history saw what the world had set. *)
Definition consistent (w : World) (s : list event) : Prop :=
  ∀ pre b post, s = pre ++ Poll b :: post → b = flag_at w (polls pre).

(** A computation that leaves a consistent history consistent. *)
Definition keeps_consistent (w : World) {X} (m : M X) : Prop :=
  ∀ s, consistent w s → consistent w (m s).2.

(** The events of one turn of the loop over the pages. *)
Definition progress_events (npages i : nat) : list event :=
  [Poll true; Emit (progress_updated (10 + i * 40 / npages))].

Definition page_text (p : page) : string :=
  match p with
  | Returned t => or_empty t
  | Failed _ => ""
  end.

Definition page_returns (p : page) : Prop := ∃ t, p = Returned t.

Definition pages_text (text : string) (pages : list page) : string :=
  foldl (λ text p, text +:+ page_text p) text pages.

(** The lines of the report for a delta (lines 60-67): the intraline
    hints are left out, the other lines get their colour. *)
Definition shown (e : DiffEntry) : Prop := entry_kind e ≠ IntralineHint.

Definition color (k : kind) : string :=
  match k with
  | Removed => "red"
  | Added => "green"
  | Unchanged | IntralineHint => "gray"
  end.

Definition styled (d : list DiffEntry) : list string :=
  (λ e, span (color (entry_kind e)) (render e)) <$> filter shown d.

(** Events that are neither a read of a cleared flag nor one of the
    signals [finished], [result_ready], [error_occurred]. *)
Definition calm_event (e : event) : Prop :=
  match e with
  | Poll b => b = true
  | Emit (progress_updated _) | Emit (status_updated _) => True
  | Emit _ => False
  end.

Definition calm (evs : list event) : Prop := Forall calm_event evs.

(** The events of [run] around the two extractions and the formatting. *)
Definition start_events (w : World) (file1 : string) : list event :=
  [Emit (status_updated (status_extracting w file1))].

Definition middle_events (w : World) (file2 : string) : list event :=
  [Poll true; Emit (progress_updated 30);
   Emit (status_updated (status_extracting w file2))].

Definition compare_events : list event :=
  [Poll true; Emit (progress_updated 60);
   Emit (status_updated "Сравнение текстов...");
   Emit (progress_updated 80);
   Emit (status_updated "Форматирование результатов...")].

(** The same up to the call of [Differ]. *)
Definition comparing_events : list event :=
  [Poll true; Emit (progress_updated 60);
   Emit (status_updated "Сравнение текстов...")].

(** The payload of [result_ready] for a delta (lines 54-70). *)
Definition report (d : list DiffEntry) : string :=
  String.concat "<br>"
    (styled d ++ [summary (count Added d) (count Removed d)]).

Definition done_events (text1 text2 : string) (d : list DiffEntry)
    : list event :=
  [Emit (result_ready (report d)); Emit (progress_updated 100);
   Emit (status_updated (status_done (splitlines text1) (splitlines text2)))].

(** Both strategies fail on a path: pdfminer raises, and then PyPDF2
    raises, while it opens the document or on one of its pages. *)
Definition both_strategies_fail (w : World) (pdf_path : string) : Prop :=
  (∃ m, pdfminer_extract w pdf_path = Failed m)
  ∧ ((∃ m2, PdfReader w pdf_path = Failed m2)
     ∨ (∃ pages k msg, PdfReader w pdf_path = Returned pages
                       ∧ pages !! k = Some (Failed msg))).

(** The pages that the loop of lines 89-94 enters when the history has
    [reads] reads of the flag as it starts: it enters a page when it
    reads the flag set, and enters no page after one that raises. *)
Fixpoint pages_entered (w : World) (reads : nat) (pages : list page) : nat :=
  match pages with
  | [] => 0
  | p :: pages' =>
      if flag_at w reads then
        S (match p with
           | Returned _ => pages_entered w (S reads) pages'
           | Failed _ => 0
           end)
      else 0
  end.

(** Both strategies fail on a path, in an extraction that starts after
    [reads] reads of the flag: pdfminer raises, and then PyPDF2 raises,
    while it opens the document, or on a page that the loop enters: the
    pages before it return and the flag is still set there. *)
Definition both_strategies_fail_at (w : World) (pdf_path : string)
    (reads : nat) : Prop :=
  (∃ m, pdfminer_extract w pdf_path = Failed m)
  ∧ ((∃ m2, PdfReader w pdf_path = Failed m2)
     ∨ (∃ pages k msg, PdfReader w pdf_path = Returned pages
                       ∧ pages !! k = Some (Failed msg)
                       ∧ Forall page_returns (take k pages)
                       ∧ flag_at w (reads + k) = true)).

(** The text that the libraries hold for a path: what pdfminer returns
    or, when it raises, the texts of the pages in order. *)
Definition document_text (w : World) (pdf_path : string) : string :=
  match pdfminer_extract w pdf_path with
  | Returned t => t
  | Failed _ =>
      match PdfReader w pdf_path with
      | Returned pages => pages_text "" pages
      | Failed _ => ""
      end
  end.

(** The progress values of the extraction of a document that goes
    through: none when pdfminer reads it, one for each page otherwise. *)
Definition fallback_progress (w : World) (pdf_path : string) : list nat :=
  match pdfminer_extract w pdf_path, PdfReader w pdf_path with
  | Failed _, Returned pages =>
      (λ i, 10 + i * 40 / length pages) <$> seq 0 (length pages)
  | _, _ => []
  end.

(** ** Statements that the worker does not satisfy *)

(** A run cancelled before it starts has no result, no error and one
    [finished]. *)
Definition cancelled_at_start_is_silent (w : World) (f1 f2 : string)
    : Prop :=
  stop_at w = Some 0 →
  (∀ html, result_ready html ∉ notifications (trace w f1 f2))
  ∧ (∀ msg, error_occurred msg ∉ notifications (trace w f1 f2))
  ∧ length (filter (λ n, n = finished) (notifications (trace w f1 f2))) = 1.

(** The counts of the two deltas of [a] and [b], one for each order,
    mirror each other. *)
Definition counts_symmetric (limit : nat) (a b : list string) : Prop :=
  ∀ d d',
    compare_entries None None limit a b = Done d →
    compare_entries None None limit b a = Done d' →
    count Added d = count Removed d' ∧ count Removed d = count Added d'.

(** The order of C2: the result comes after 100 and the last status. *)
Definition announces_result_last (tr : list event) : Prop :=
  ∃ s1 s2 s3 s4 s5 html,
    notifications tr
    = [status_updated s1; progress_updated 30; status_updated s2;
       progress_updated 60; status_updated s3; progress_updated 80;
       status_updated s4; progress_updated 100; status_updated s5;
       result_ready html; finished].

(** The fallback recovers from whatever its pages do. *)
Definition page_failure_recovered (w : World) (pdf_path : string) : Prop :=
  ∀ m pages s,
    pdfminer_extract w pdf_path = Failed m →
    PdfReader w pdf_path = Returned pages →
    ∃ t s', extract_text w pdf_path s = (Ok t, s').

(** ** Worlds to run the worker in *)

(** A world with five documents and the flag cleared as [stop] tells:
    [a.pdf], read by pdfminer; [b.pdf], read page by page, its second
    page without text; [d.pdf], whose second page cannot be read;
    [e.pdf], without pages; any other path, which no library reads. *)
Definition text_a : string :=
  "one" +:+ newline +:+ "two" +:+ newline +:+ "three" +:+ newline.

Definition pages_b : list page :=
  [Returned (Some ("one" +:+ newline)); Returned None;
   Returned (Some ("three" +:+ newline +:+ "four"))].

Definition pages_d : list page :=
  [Returned (Some "x"); Failed "page is broken"].

Definition world (stop : option nat) : World :=
  {| stop_at := stop;
     pdfminer_extract := λ p,
       if decide (p = "a.pdf") then Returned text_a else Failed "no text";
     PdfReader := λ p,
       if decide (p = "b.pdf") then Returned pages_b
       else if decide (p = "d.pdf") then Returned pages_d
       else if decide (p = "e.pdf") then Returned []
       else Failed "not a PDF";
     path_name := λ p, p;
     recursion_limit := 490;
     recursion_message := "maximum recursion depth exceeded" |}.

(** A world with two documents that pdfminer reads, of three lines that
    are close to each other, line by line, and with room for [limit]
    calls of [_fancy_replace]. *)
Definition deep_world (limit : nat) : World :=
  {| stop_at := None;
     pdfminer_extract := λ p,
       if decide (p = "1.pdf")
       then Returned ("abcd1" +:+ newline +:+ "abcd2" +:+ newline +:+ "abcd3")
       else Returned ("abcdx" +:+ newline +:+ "abcdy" +:+ newline +:+ "abcdz");
     PdfReader := λ p, Failed "not a PDF";
     path_name := λ p, p;
     recursion_limit := limit;
     recursion_message := "maximum recursion depth exceeded" |}.

(** ** More on what [SequenceMatcher] computes *)

(** Two blocks that touch in both sequences: the second one starts where
    the first one ends. *)
Definition adjacent (x y : block) : Prop :=
  x.1.1 + x.2 = y.1.1 ∧ x.1.2 + x.2 = y.1.2.

(** No block touches the next one. *)
Fixpoint apart (l : list block) : Prop :=
  match l with
  | x :: l' =>
      match l' with
      | y :: _ => ¬ adjacent x y
      | [] => True
      end ∧ apart l'
  | [] => True
  end.

Definition is_equal (op : opcode) : bool :=
  match op.1.1.1.1 with
  | equal => true
  | _ => false
  end.

(** Of two opcodes that follow each other, one is [equal] and the other
    is not. *)
Fixpoint alternate (ops : list opcode) : Prop :=
  match ops with
  | x :: ops' =>
      match ops' with
      | y :: _ => is_equal x ≠ is_equal y
      | [] => True
      end ∧ alternate ops'
  | [] => True
  end.

Section Diagonal_spec.
Context `{Countable A}.

(** When [a] is matched with itself from [lo] on: the [k] elements of
    [a] that end at place [i] are all at [lo] or after it, and all kept
    in [b2j]. *)
Definition diagonal_run (b2j : gmap A (list nat)) (a : list A)
    (lo i k : nat) : Prop :=
  lo + k ≤ i + 1
  ∧ ∀ t, t < k → ∃ x, a !! (i - t) = Some x ∧ is_Some (b2j !! x).

(** What the search of [find_longest_match] holds, in that case, when
    the turn for [i] starts: the best block lies on the diagonal and is
    as long as any run on the diagonal so far; [j2len] holds runs only,
    and at place [i - 1] the whole run. *)
Definition diagonal_inv (b2j : gmap A (list nat)) (a : list A) (lo i : nat)
    (st : gmap nat nat * block) : Prop :=
  st.2.1.1 = st.2.1.2
  ∧ (∀ i' k, lo ≤ i' < i → diagonal_run b2j a lo i' k → k ≤ st.2.2)
  ∧ (∀ j k, st.1 !! j = Some k →
       1 ≤ i ∧ diagonal_run b2j a lo j k ∧ diagonal_run b2j a lo (i - 1) k)
  ∧ (∀ k, 1 ≤ i → diagonal_run b2j a lo (i - 1) k →
       k ≤ default 0 (st.1 !! (i - 1))).

End Diagonal_spec.

(** When [a] is matched with [b]: what [find_longest_match] finds is as
    long as any block of elements that [b2j] keeps. *)
Section Longest_spec.
Context `{Countable A}.

(** A block of [k] matching elements from [(i, j)] on, all of them kept
    in [b2j]. *)
Definition indexed_block (b2j : gmap A (list nat)) (a b : list A)
    (i j k : nat) : Prop :=
  ∀ t, t < k →
    ∃ x, a !! (i + t) = Some x ∧ b !! (j + t) = Some x ∧ is_Some (b2j !! x).

(** What the search of [find_longest_match] holds when the turn for [i]
    starts: [j2len] is at least the length of every block that ends in
    the row before, and the best block is at least as long as any block
    above. *)
Definition longest_inv (b2j : gmap A (list nat)) (a b : list A)
    (alo blo bhi i : nat) (st : gmap nat nat * block) : Prop :=
  (∀ j k, blo + k ≤ j + 1 → j < bhi → alo + k ≤ i →
     indexed_block b2j a b (i - k) (j + 1 - k) k →
     k ≤ default 0 (st.1 !! j))
  ∧ (∀ i0 j0 k, alo ≤ i0 → i0 + k ≤ i → blo ≤ j0 → j0 + k ≤ bhi →
       indexed_block b2j a b i0 j0 k → k ≤ st.2.2).

(** An element that [__chain_b] takes for popular: [b] has 200 elements
    or more, and more than one in a hundred, plus one, are this one. *)
Definition frequent (b : list A) (x : A) : Prop :=
  200 ≤ length b ∧ length b / 100 + 1 < length (filter (λ y, y = x) b).

End Longest_spec.

(** The number of elements that the blocks, or the [equal] opcodes,
    cover. *)
Definition blocks_size (l : list block) : nat :=
  sum_list ((λ x : block, x.2) <$> l).

Definition equal_size (ops : list opcode) : nat :=
  sum_list ((λ op : opcode,
               if is_equal op then op.1.1.2 - op.1.1.1.2 else 0) <$> ops).

(** ** Lines *)

(** A string without any of the characters that end a line. *)
Definition no_linebreak (line : string) : Prop :=
  Forall (λ c, is_linebreak c = false) (chars line).

(** Every line with a [\n] after it. *)
Definition unlines (lines : list string) : string :=
  foldr (λ line text, line +:+ newline +:+ text) "" lines.

(** [text] without the characters that end a line. *)
Fixpoint strip_linebreaks (text : string) : string :=
  match text with
  | EmptyString => ""
  | String c text' =>
      if is_linebreak c then strip_linebreaks text'
      else String c (strip_linebreaks text')
  end.

(** ** What a computation of the worker emits *)

(** A computation that only adds events that satisfy [P] to the history,
    and whose value, if it returns, satisfies [Q]. *)
Definition emits (P : event → Prop) {X} (m : M X) (Q : X → Prop) : Prop :=
  ∀ s, ∃ evs, (m s).2 = s ++ evs ∧ Forall P evs
              ∧ ∀ x, (m s).1 = Ok x → Q x.

(** A progress value, if the event is one, between 10 and 100. *)
Definition in_range (e : event) : Prop :=
  match e with
  | Emit (progress_updated value) => 10 ≤ value ≤ 100
  | _ => True
  end.

(** The two signals that end a comparison for the user. *)
Definition is_outcome (n : notification) : bool :=
  match n with
  | result_ready _ | error_occurred _ => true
  | _ => false
  end.

(** ** What the window does *)

Import PDFComparator.

(** The state of the window between two events. With no thread, the
    buttons are as at the start and the bar is hidden. With a thread, the
    thread runs, "compare" is disabled, [self.worker] is set, and
    "cancel" is enabled as long as the flag of the worker is set. *)
Definition window_ok (self : Window) : Prop :=
  (-1 ≤ progress_bar self ≤ 100)%Z
  ∧ match worker_thread self with
    | None =>
        compare_btn self = true ∧ cancel_btn self = false
        ∧ progress_bar_visible self = false
    | Some running =>
        running = true ∧ compare_btn self = false
        ∧ progress_bar_visible self = true
        ∧ ∃ wk, worker self = Some wk ∧ cancel_btn self = _is_running wk
    end.

(** The window with no comparison at work. *)
Definition idle (self : Window) : Prop :=
  worker_thread self = None ∧ compare_btn self = true
  ∧ cancel_btn self = false ∧ progress_bar_visible self = false.

(** The reports and the error boxes that signals bring, in order. *)
Definition reports (ns : list notification) : list string :=
  omap (λ n, match n with result_ready html => Some html | _ => None end) ns.

Definition error_boxes (ns : list notification) : list message_box :=
  omap (λ n, match n with
             | error_occurred msg => Some (critical "Ошибка" msg)
             | _ => None
             end) ns.

(** Two windows: one with the two paths chosen, and one in which the
    comparison of these documents runs and has been cancelled. *)
Definition window_a_b : Window :=
  select_file false "b.pdf" (select_file true "a.pdf" init_ui).

Definition cancelled_window : Window :=
  {| file1_edit := "a.pdf"; file2_edit := "b.pdf";
     compare_btn := false; cancel_btn := false;
     result_text := ""; status_label := "Отмена операции...";
     progress_bar := 0; progress_bar_visible := true;
     worker_thread := Some true;
     worker := Some (stop (Worker_init "a.pdf" "b.pdf"));
     message_boxes := [] |}.

(** * Proofs *)

Lemma foldl_seq_inv {St} (I : nat → St → Prop) (f : St → nat → St) n :
  ∀ lo s, I lo s → (∀ i s, lo ≤ i < lo + n → I i s → I (i + 1) (f s i)) →
    I (lo + n) (foldl f s (seq lo n)).
Proof.
  induction n as [|n IH]; intros lo s Hs Hstep; simpl.
  - by rewrite Nat.add_0_r.
  - replace (lo + S n) with (S lo + n) by lia. apply IH.
    + replace (S lo) with (lo + 1) by lia. apply Hstep; [lia | done].
    + intros i s' Hi. apply Hstep. lia.
Qed.

Global Instance block_le_trans : Transitive block_le.
Proof. intros [[? ?] ?] [[? ?] ?] [[? ?] ?]. unfold block_le. simpl. lia. Qed.

Global Instance block_le_antisymm : AntiSymm (=) block_le.
Proof.
  intros [[i j] k] [[i' j'] k']. unfold block_le. simpl. intros ? ?.
  assert (i = i' ∧ j = j' ∧ k = k') as (-> & -> & ->) by lia. done.
Qed.

Global Instance block_le_total : Total block_le.
Proof. intros [[? ?] ?] [[? ?] ?]. unfold block_le. simpl. lia. Qed.

Section SequenceMatcher_facts.
Context `{Countable A}.
Variable isjunk : option (A → bool).
Variable autojunk : bool.
Implicit Types a b : list A.

Lemma chain_b_all_lookup b x js j :
  chain_b_all b !! x = Some js → j ∈ js → b !! j = Some x.
Proof.
  unfold chain_b_all. revert x js j.
  induction b as [|y b IH] using rev_ind; intros x js j.
  - simpl. by rewrite lookup_empty.
  - rewrite imap_app, foldl_app. simpl. unfold b2j_append at 1. simpl.
    rewrite Nat.add_0_r.
    destruct (decide (y = x)) as [->|Hne].
    + rewrite lookup_insert_eq. intros [= <-] Hj.
      apply elem_of_app in Hj as [Hj|Hj].
      * destruct (foldl b2j_append ∅ (imap pair b) !! x) as [js'|] eqn:E.
        -- simpl in Hj. rewrite lookup_app_l; [by eapply IH|].
           eapply lookup_lt_Some. by eapply IH.
        -- simpl in Hj. by apply elem_of_nil in Hj.
      * apply list_elem_of_singleton in Hj as ->.
        by rewrite list_lookup_middle.
    + rewrite lookup_insert_ne by done. intros Hx Hj.
      rewrite lookup_app_l; [by eapply IH|].
      eapply lookup_lt_Some. by eapply IH.
Qed.

Lemma chain_b_lookup b x js j :
  chain_b isjunk autojunk b !! x = Some js → j ∈ js → b !! j = Some x.
Proof.
  unfold chain_b. intros Hx. apply map_lookup_filter_Some in Hx as [Hx _].
  by apply chain_b_all_lookup.
Qed.

Lemma matches_snoc a b i j k x :
  matches a b i j k → a !! (i + k) = Some x → b !! (j + k) = Some x →
  matches a b i j (k + 1).
Proof.
  intros Hm Ha Hb t Ht. destruct (decide (t = k)) as [->|]; [eauto|].
  apply Hm. lia.
Qed.

Lemma matches_cons a b i j k x :
  matches a b (S i) (S j) k → a !! i = Some x → b !! j = Some x →
  matches a b i j (k + 1).
Proof.
  intros Hm Ha Hb [|t] Ht.
  - rewrite !Nat.add_0_r. eauto.
  - destruct (Hm t) as (y & ? & ?); [lia|]. exists y.
    by replace (i + S t) with (S i + t) by lia;
       replace (j + S t) with (S j + t) by lia.
Qed.

Lemma matches_0 a b i j : matches a b i j 0.
Proof. intros t ?. lia. Qed.

Lemma j2lenget_ok a b alo blo bhi i j j2len :
  alo ≤ i → blo ≤ j → j2len_ok a b alo blo bhi i j2len →
  alo + j2lenget j2len j ≤ i ∧ blo + j2lenget j2len j ≤ j
  ∧ matches a b (i - j2lenget j2len j) (j - j2lenget j2len j)
      (j2lenget j2len j).
Proof.
  intros Hi Hj Hold. unfold j2lenget.
  destruct j as [|j']; [by auto using matches_0 with lia|].
  destruct (j2len !! j') as [k'|] eqn:E; simpl;
    [|by auto using matches_0 with lia].
  destruct (Hold _ _ E) as (? & ? & ? & ? & Hm).
  replace (S j' - k') with (j' + 1 - k') by lia. auto with lia.
Qed.

Lemma flm_inner_ok a b alo ahi blo bhi i x j2len js :
  alo ≤ i < ahi → a !! i = Some x → (∀ j, j ∈ js → b !! j = Some x) →
  j2len_ok a b alo blo bhi i j2len →
  ∀ newj2len best,
    j2len_ok a b alo blo bhi (i + 1) newj2len →
    good_block a b alo ahi blo bhi best →
    j2len_ok a b alo blo bhi (i + 1)
      (flm_inner i blo bhi j2len js newj2len best).1
    ∧ good_block a b alo ahi blo bhi
        (flm_inner i blo bhi j2len js newj2len best).2.
Proof.
  intros Hi Ha Hjs Hold.
  induction js as [|j js IH]; intros newj2len best Hnew Hbest; simpl; [done|].
  assert (∀ j0, j0 ∈ js → b !! j0 = Some x) as Hjs'.
  { intros j0 ?. apply Hjs. by apply elem_of_cons; right. }
  case_decide; [by apply IH|].
  case_decide; [done|].
  assert (b !! j = Some x) as Hb by (apply Hjs; apply elem_of_cons; by left).
  destruct (j2lenget_ok a b alo blo bhi i j j2len) as (Hk1 & Hk2 & Hm);
    [lia..|done|].
  set (k' := j2lenget j2len j) in *.
  assert (matches a b (i + 1 - (k' + 1)) (j + 1 - (k' + 1)) (k' + 1)) as Hm'.
  { replace (i + 1 - (k' + 1)) with (i - k') by lia.
    replace (j + 1 - (k' + 1)) with (j - k') by lia.
    apply (matches_snoc _ _ _ _ _ x); [done|..].
    - by replace (i - k' + k') with i by lia.
    - by replace (j - k' + k') with j by lia. }
  apply IH; [done|..].
  - intros j0 k0. destruct (decide (j = j0)) as [<-|].
    + rewrite lookup_insert_eq. intros [= <-].
      repeat split; [lia..|].
      by replace (i + 1 - (k' + 1)) with (i + 1 - (k' + 1)) by done.
    + rewrite lookup_insert_ne by done. apply Hnew.
  - case_decide; [|done]. unfold good_block. simpl.
    repeat split; [lia..|done].
Qed.

Lemma flm_outer_ok a b alo ahi blo bhi :
  alo ≤ ahi ≤ length a → blo ≤ bhi →
  let st := foldl (flm_outer a (chain_b isjunk autojunk b) blo bhi)
                  (∅, (alo, blo, 0)) (seq alo (ahi - alo)) in
  good_block a b alo ahi blo bhi st.2.
Proof.
  intros Ha Hb.
  pose (I := λ (i : nat) (st : gmap nat nat * block),
          j2len_ok a b alo blo bhi i st.1
          ∧ good_block a b alo ahi blo bhi st.2).
  cut (I (alo + (ahi - alo))
         (foldl (flm_outer a (chain_b isjunk autojunk b) blo bhi)
                (∅, (alo, blo, 0)) (seq alo (ahi - alo)))).
  { intros [_ ?]. done. }
  apply foldl_seq_inv.
  - split; [intros j k; simpl; by rewrite lookup_empty|].
    unfold good_block; simpl. repeat split; [lia..|apply matches_0].
  - intros i [j2len best] Hi [Hj2 Hbest]. unfold flm_outer. simpl in *.
    destruct (lookup_lt_is_Some_2 a i) as [x Hx]; [lia|].
    rewrite Hx. simpl.
    eapply flm_inner_ok; [lia|done| |done| |done].
    + intros j Hj.
      destruct (chain_b isjunk autojunk b !! x) as [js|] eqn:E;
        simpl in Hj; [by eapply chain_b_lookup|by apply elem_of_nil in Hj].
    + intros j k. by rewrite lookup_empty.
Qed.

Lemma extend_left_ok P a b alo ahi blo bhi besti :
  ∀ bestj bestsize,
    good_block a b alo ahi blo bhi (besti, bestj, bestsize) →
    good_block a b alo ahi blo bhi
      (extend_left P a b alo blo besti bestj bestsize).
Proof.
  induction besti as [|i' IH]; intros bestj bestsize Hg; simpl; [done|].
  destruct bestj as [|j']; [done|].
  destruct (a !! i') as [x|] eqn:Ea; [|done].
  destruct (b !! j') as [y|] eqn:Eb; [|done].
  destruct (bool_decide (alo < S i')) eqn:E1; simpl; [|done].
  destruct (bool_decide (blo < S j')) eqn:E2; simpl; [|done].
  destruct (P y); simpl; [|done].
  destruct (bool_decide (x = y)) eqn:E3; [|done].
  apply bool_decide_eq_true in E1, E2, E3. subst y.
  apply IH. destruct Hg as (? & ? & ? & ? & Hm). unfold good_block in *.
  simpl in *. repeat split; [lia..|]. by eapply matches_cons.
Qed.

Lemma extend_right_ok P a b alo ahi blo bhi besti bestj n :
  ∀ bestsize,
    besti + bestsize + n ≤ ahi →
    good_block a b alo ahi blo bhi (besti, bestj, bestsize) →
    good_block a b alo ahi blo bhi
      (besti, bestj, extend_right P a b bhi besti bestj bestsize n).
Proof.
  induction n as [|n IH]; intros bestsize Hn Hg; simpl; [done|].
  destruct (a !! (besti + bestsize)) as [x|] eqn:Ea; [|done].
  destruct (b !! (bestj + bestsize)) as [y|] eqn:Eb; [|done].
  destruct (bool_decide (bestj + bestsize < bhi)) eqn:E1; simpl; [|done].
  destruct (P y); simpl; [|done].
  destruct (bool_decide (x = y)) eqn:E3; [|done].
  apply bool_decide_eq_true in E1, E3. subst y.
  apply IH; [lia|]. destruct Hg as (? & ? & ? & ? & Hm).
  unfold good_block in *. simpl in *. repeat split; [lia..|].
  by eapply matches_snoc.
Qed.

Lemma extend_ok P a b alo ahi blo bhi best :
  good_block a b alo ahi blo bhi best →
  good_block a b alo ahi blo bhi (extend P a b alo ahi blo bhi best).
Proof.
  intros Hg. unfold extend. destruct best as [[bi bj] bs].
  pose proof (extend_left_ok P a b alo ahi blo bhi bi bj bs Hg) as Hl.
  simpl. destruct (extend_left P a b alo blo bi bj bs) as [[i j] k].
  apply extend_right_ok; [|done].
  destruct Hl as (? & ? & _). simpl in *. lia.
Qed.

Lemma find_longest_match_ok a b alo ahi blo bhi :
  alo ≤ ahi ≤ length a → blo ≤ bhi →
  good_block a b alo ahi blo bhi
    (find_longest_match isjunk autojunk a b alo ahi blo bhi).
Proof.
  intros Ha Hb. unfold find_longest_match.
  do 2 apply extend_ok. by apply flm_outer_ok.
Qed.

Lemma chain_weaken a b i0 j0 i1 j1 hi hj l :
  i0 ≤ i1 → j0 ≤ j1 → chain a b i1 j1 hi hj l → chain a b i0 j0 hi hj l.
Proof. destruct l; simpl; intuition lia. Qed.

Lemma chain_app a b i0 j0 m n hi hj l1 l2 :
  chain a b i0 j0 m n l1 → chain a b m n hi hj l2 →
  chain a b i0 j0 hi hj (l1 ++ l2).
Proof.
  revert i0 j0. induction l1 as [|x l1 IH]; intros i0 j0; simpl.
  - intros [? ?]. by apply chain_weaken.
  - intros (? & ? & ? & ? & ?) ?. split_and!; [done..|by apply IH].
Qed.

Lemma queue_measure_cons (r : rect) queue :
  queue_measure (r :: queue)
  = 2 * (r.1.1.2 - r.1.1.1) + 1 + queue_measure queue.
Proof. done. Qed.

Lemma matching_blocks_loop_ok a b fuel :
  ∀ queue blocks,
    queue_measure queue ≤ fuel → loop_inv a b queue blocks →
    ∃ r l, matching_blocks_loop isjunk autojunk a b fuel queue blocks = Some r
           ∧ chain a b 0 0 (length a) (length b) l ∧ r ≡ₚ l.
Proof.
  induction fuel as [|fuel IH]; intros queue blocks Hfuel [Hwf Hinv].
  - destruct queue as [|[[[alo ahi] blo] bhi] queue].
    + destruct (Hinv []) as (l & ? & Hl); [constructor|].
      simpl in Hl. rewrite app_nil_r in Hl. exists blocks, l. by simpl.
    + rewrite queue_measure_cons in Hfuel. lia.
  - destruct queue as [|[[[alo ahi] blo] bhi] queue].
    + destruct (Hinv []) as (l & ? & Hl); [constructor|].
      simpl in Hl. rewrite app_nil_r in Hl. exists blocks, l. by simpl.
    + apply Forall_cons in Hwf as [Hr Hwf].
      rewrite queue_measure_cons in Hfuel.
      destruct Hr as [Hra Hrb]. simpl in Hra, Hrb.
      pose proof (find_longest_match_ok a b alo ahi blo bhi
                    ltac:(lia) ltac:(lia)) as Hg.
      simpl.
      destruct (find_longest_match isjunk autojunk a b alo ahi blo bhi)
        as [[i j] k] eqn:Eflm.
      destruct Hg as (Hg1 & Hg2 & Hg3 & Hg4 & Hm).
      simpl in Hg1, Hg2, Hg3, Hg4, Hm, Hfuel.
      case_decide as Hk.
      { apply IH; [lia|]. split; [done|]. intros cs Hcs.
        destruct (Hinv ([] :: cs)) as (l & ? & ?); [|by exists l].
        constructor; [|done]. unfold rect_chain. simpl. lia. }
      assert (∀ cl cr cs,
        chain a b alo blo i j cl → chain a b (i + k) (j + k) ahi bhi cr →
        Forall2 (rect_chain a b) queue cs →
        ∃ l, chain a b 0 0 (length a) (length b) l
             ∧ (blocks ++ [(i, j, k)]) ++ cr ++ cl ++ concat cs ≡ₚ l)
        as Hnew.
      { intros cl cr cs Hcl Hcr Hcs.
        destruct (Hinv ((cl ++ (i, j, k) :: cr) :: cs)) as (l & ? & Hl).
        - constructor; [|done]. unfold rect_chain. simpl.
          eapply chain_app; [done|]. simpl. repeat split; [lia..|done|done].
        - exists l. split; [done|]. rewrite <-Hl. simpl.
          rewrite <-!(assoc_L (++)). apply Permutation_app_head. simpl.
          rewrite <-Permutation_middle. constructor.
          rewrite !(assoc_L (++)). apply Permutation_app_tail.
          apply Permutation_app_comm. }
      destruct (decide (alo < i ∧ blo < j)) as [Hl|Hl];
        destruct (decide (i + k < ahi ∧ j + k < bhi)) as [Hr|Hr];
        (apply IH; [rewrite ?queue_measure_cons; simpl; lia|]);
        (split; [repeat apply Forall_cons_2; try done;
                 unfold rect_ok; simpl; lia|]);
        intros cs Hcs.
      * apply Forall2_cons_inv_l in Hcs as (cr & cs1 & Hcr & Hcs & ->).
        apply Forall2_cons_inv_l in Hcs as (cl & cs2 & Hcl & Hcs & ->).
        simpl. by apply Hnew.
      * apply Forall2_cons_inv_l in Hcs as (cl & cs2 & Hcl & Hcs & ->).
        simpl. apply (Hnew cl [] cs2); [done| |done]. simpl. lia.
      * apply Forall2_cons_inv_l in Hcs as (cr & cs1 & Hcr & Hcs & ->).
        simpl. apply (Hnew [] cr cs1); [|done..]. simpl. lia.
      * apply (Hnew [] [] cs); [| |done]; simpl; lia.
Qed.

Lemma found_blocks_ok a b :
  ∃ r l, found_blocks isjunk autojunk a b = Some r
         ∧ chain a b 0 0 (length a) (length b) l ∧ r ≡ₚ l.
Proof.
  apply matching_blocks_loop_ok.
  - unfold matching_blocks_fuel. rewrite queue_measure_cons. simpl.
    unfold queue_measure. simpl. lia.
  - split.
    + apply Forall_cons_2; [|done]. unfold rect_ok. simpl. lia.
    + intros cs Hcs.
      apply Forall2_cons_inv_l in Hcs as (c & cs' & Hc & Hcs & ->).
      apply Forall2_nil_inv_l in Hcs as ->.
      exists c. split; [done|]. simpl. by rewrite app_nil_r.
Qed.

Lemma chain_bound a b i0 j0 hi hj l :
  chain a b i0 j0 hi hj l → i0 ≤ hi ∧ j0 ≤ hj.
Proof.
  revert i0 j0. induction l as [|x l IH]; intros i0 j0; simpl; [done|].
  intros (? & ? & ? & ? & Hl). apply IH in Hl. lia.
Qed.

Lemma chain_Sorted a b i0 j0 hi hj l :
  chain a b i0 j0 hi hj l → Sorted block_le l.
Proof.
  revert i0 j0. induction l as [|x l IH]; intros i0 j0; simpl; [constructor|].
  intros (? & ? & ? & ? & Hl). constructor; [by eapply IH|].
  destruct l as [|y l]; constructor.
  simpl in Hl. unfold block_le. lia.
Qed.

Lemma sorted_found_blocks a b :
  chain a b 0 0 (length a) (length b)
    (merge_sort block_le (default [] (found_blocks isjunk autojunk a b))).
Proof.
  destruct (found_blocks_ok a b) as (r & l & -> & Hl & Hperm). simpl.
  replace (merge_sort block_le r) with l; [done|].
  apply (Sorted_unique block_le).
  - by eapply chain_Sorted.
  - apply (Sorted_merge_sort block_le).
  - by rewrite merge_sort_Permutation.
Qed.

Lemma matches_app a b i j k1 k2 :
  matches a b i j k1 → matches a b (i + k1) (j + k1) k2 →
  matches a b i j (k1 + k2).
Proof.
  intros H1 H2 t Ht. destruct (decide (t < k1)) as [|Hge]; [by apply H1|].
  destruct (H2 (t - k1)) as (x & ? & ?); [lia|]. exists x.
  by replace (i + t) with (i + k1 + (t - k1)) by lia;
     replace (j + t) with (j + k1 + (t - k1)) by lia.
Qed.

Lemma chain_weaken_end a b i0 j0 hi hj hi' hj' l :
  hi ≤ hi' → hj ≤ hj' → chain a b i0 j0 hi hj l → chain a b i0 j0 hi' hj' l.
Proof.
  intros ? ?. revert i0 j0.
  induction l as [|x l IH]; intros i0 j0; simpl; [lia|].
  intros (? & ? & ? & ? & ?). split_and!; [done..|by apply IH].
Qed.

Lemma collapse_fold_ok a b l :
  ∀ i1 j1 k1 non_adjacent,
    chain a b 0 0 i1 j1 non_adjacent → matches a b i1 j1 k1 →
    chain a b (i1 + k1) (j1 + k1) (length a) (length b) l →
    let st := foldl collapse_step ((i1, j1, k1), non_adjacent) l in
    chain a b 0 0 (length a) (length b)
      (if decide (st.1.2 = 0) then st.2 else st.2 ++ [st.1]).
Proof.
  induction l as [|[[i2 j2] k2] l IH]; intros i1 j1 k1 na Hna Hm Hl; simpl.
  - destruct Hl as [? ?]. case_decide.
    + eapply chain_weaken_end; [| |done]; lia.
    + eapply chain_app; [done|]. simpl. split_and!; [lia..|done|lia|lia].
  - destruct Hl as (? & ? & ? & Hm2 & Hl). simpl in *.
    destruct (decide (i1 + k1 = i2 ∧ j1 + k1 = j2)) as [[<- <-]|Hne].
    + apply IH; [done|by apply matches_app|].
      by rewrite !Nat.add_assoc.
    + apply IH; [|done..]. case_decide.
      * eapply chain_weaken_end; [| |done]; lia.
      * eapply chain_app; [done|]. simpl. split_and!; [lia..|done|lia|lia].
Qed.

Lemma collapse_ok a b l :
  chain a b 0 0 (length a) (length b) l →
  chain a b 0 0 (length a) (length b) (collapse l).
Proof.
  intros Hl. unfold collapse.
  pose proof (collapse_fold_ok a b l 0 0 0 []) as Hc. simpl in Hc.
  destruct (foldl collapse_step (0, 0, 0, []) l) as [[[i1 j1] k1] na].
  simpl in Hc. apply Hc; [lia|apply matches_0|done].
Qed.

Lemma opcodes_step_fold answer (l : list block) :
  ∀ i j extra,
    foldl opcodes_step (i, j, extra ++ answer) l
    = ((foldl opcodes_step (i, j, answer) l).1,
       extra ++ (foldl opcodes_step (i, j, answer) l).2).
Proof.
  revert answer.
  induction l as [|[[ai bj] size] l IH]; intros answer i j extra; [done|].
  simpl. rewrite <-IH. f_equal. f_equal.
  repeat case_decide; by rewrite <-?(assoc_L (++)).
Qed.

Lemma opcodes_step_fold_nil (l : list block) i j extra :
  (foldl opcodes_step (i, j, extra) l).2
  = extra ++ (foldl opcodes_step (i, j, []) l).2.
Proof.
  rewrite <-(app_nil_r extra) at 1. by rewrite opcodes_step_fold.
Qed.

Lemma opcodes_of_ok a b l :
  ∀ i j,
    chain a b i j (length a) (length b) l →
    opcodes_ok a b i j
      (foldl opcodes_step (i, j, []) (l ++ [(length a, length b, 0)])).2.
Proof.
  induction l as [|[[ai bj] size] l IH]; intros i j Hl.
  - destruct Hl as [? ?]. simpl.
    repeat case_decide; simpl; try lia; split_and!; lia.
  - destruct Hl as (? & ? & ? & Hm & Hl). simpl in *.
    pose proof (chain_bound _ _ _ _ _ _ _ Hl) as [? ?].
    specialize (IH _ _ Hl).
    destruct (decide (size = 0)); [lia|].
    repeat case_decide; simpl; rewrite opcodes_step_fold_nil; simpl;
      split_and!; try done; try lia;
      by replace (ai + size - ai) with size by lia.
Qed.

Lemma get_opcodes_ok a b :
  opcodes_ok a b 0 0 (get_opcodes isjunk autojunk a b).
Proof.
  unfold get_opcodes, opcodes_of, get_matching_blocks.
  apply opcodes_of_ok, collapse_ok, sorted_found_blocks.
Qed.
End SequenceMatcher_facts.

Section slices.
Context {X : Type}.
Implicit Types x : list X.

Lemma slice_split x lo m hi :
  lo ≤ m ≤ hi → slice x lo hi = slice x lo m ++ slice x m hi.
Proof.
  intros ?. unfold slice.
  replace (hi - lo) with ((m - lo) + (hi - m)) by lia.
  rewrite <-take_take_drop, drop_drop. do 3 f_equal. lia.
Qed.

Lemma slice_one x i e : x !! i = Some e → slice x i (i + 1) = [e].
Proof.
  intros Hi. unfold slice. rewrite (drop_S _ _ _ Hi).
  by replace (i + 1 - i) with 1 by lia.
Qed.

Lemma slice_nil x i : slice x i i = [].
Proof. unfold slice. by rewrite Nat.sub_diag. Qed.

Lemma slice_drop x lo hi :
  lo ≤ hi → slice x lo hi ++ drop hi x = drop lo x.
Proof.
  intros ?. unfold slice.
  rewrite <-(take_drop (hi - lo) (drop lo x)) at 2.
  rewrite drop_drop. do 2 f_equal. lia.
Qed.
End slices.

Lemma matches_slice `{Countable A} (a b : list A) i j k :
  matches a b i j k → slice a i (i + k) = slice b j (j + k).
Proof.
  intros Hm. unfold slice. apply list_eq. intros t.
  replace (i + k - i) with k by lia. replace (j + k - j) with k by lia.
  destruct (decide (t < k)) as [Ht|Ht].
  - rewrite !lookup_take_lt, !lookup_drop by done.
    destruct (Hm t Ht) as (x & -> & ->). done.
  - rewrite !lookup_take_ge by lia. done.
Qed.

Section Differ_facts.
Variable charjunk : option (ascii → bool).
Implicit Types a b : list string.

Lemma restore_app keep d1 d2 :
  restore keep (d1 ++ d2) = restore keep d1 ++ restore keep d2.
Proof. apply omap_app. Qed.

Lemma restore_dump keep k (x : list string) lo hi :
  restore keep (dump k x lo hi) = if keep k then slice x lo hi else [].
Proof.
  unfold dump, restore. generalize (slice x lo hi). intros l.
  destruct (keep k) eqn:E; induction l as [|e l IH]; simpl; rewrite ?E;
    simpl; [done|f_equal; exact IH|done|exact IH].
Qed.

Lemma restore_plain_replace_a a alo ahi b blo bhi :
  restore keeps_a (plain_replace a alo ahi b blo bhi) = slice a alo ahi.
Proof.
  unfold plain_replace. case_decide;
    rewrite restore_app, !restore_dump; simpl; by rewrite ?app_nil_r.
Qed.

Lemma restore_plain_replace_b a alo ahi b blo bhi :
  restore keeps_b (plain_replace a alo ahi b blo bhi) = slice b blo bhi.
Proof.
  unfold plain_replace. case_decide;
    rewrite restore_app, !restore_dump; simpl; by rewrite ?app_nil_r.
Qed.

Lemma restore_intraline aelt belt :
  restore keeps_a (intraline charjunk aelt belt) = [aelt]
  ∧ restore keeps_b (intraline charjunk aelt belt) = [belt].
Proof.
  unfold intraline, qformat.
  generalize (foldl tags_step ([], [])
                (get_opcodes charjunk true (chars aelt) (chars belt))).
  intros tags. by repeat case_decide.
Qed.

Lemma search_step_ok a b alo ahi blo bhi bj j st i :
  alo ≤ i < ahi → blo ≤ j < bhi → b !! j = Some bj →
  search_ok a b alo ahi blo bhi st →
  search_ok a b alo ahi blo bhi (search_step charjunk a bj j st i).
Proof.
  intros Hi Hj Hb (H1 & H2 & H3). unfold search_step.
  destruct (a !! i) as [ai|] eqn:Ea; [|done].
  case_decide as Heq.
  - subst ai. destruct st as [[r best] eq]. simpl in *.
    split_and!; [done..|]. destruct eq as [[ei ej]|]; [done|].
    intros ? ? [= <- <-]. split_and!; [lia..|congruence].
  - destruct (_ && _); [|done]. simpl. split_and!; [done| |done].
    intros ? ? [= <- <-]. lia.
Qed.

Lemma search_correct a b alo ahi blo bhi :
  ahi ≤ length a → bhi ≤ length b →
  search_ok a b alo ahi blo bhi (search charjunk a alo ahi b blo bhi).
Proof.
  intros Ha Hb. unfold search.
  destruct (decide (blo ≤ bhi)) as [Hle|Hgt].
  2:{ replace (bhi - blo) with 0 by lia. simpl. by split_and!. }
  pose proof (foldl_seq_inv (λ _ st, search_ok a b alo ahi blo bhi st)
    (λ st j, match b !! j with
             | None => st
             | Some bj =>
                 foldl (search_step charjunk a bj j) st (seq alo (ahi - alo))
             end) (bhi - blo) blo (best_ratio_init, None, None)) as Hinv.
  apply Hinv; [by split_and!|]. clear Hinv.
  intros j st Hj Hst. destruct (b !! j) as [bj|] eqn:Eb; [|done].
  destruct (decide (alo ≤ ahi)) as [Hle'|Hgt'].
  2:{ replace (ahi - alo) with 0 by lia. done. }
  apply (foldl_seq_inv (λ _ st, search_ok a b alo ahi blo bhi st)
           (search_step charjunk a bj j) (ahi - alo) alo st); [done|].
  intros i st' Hi Hst'. apply search_step_ok; [lia|lia|done|done].
Qed.

Lemma best_ratio_init_lt_cutoff : (best_ratio_init <? cutoff)%float = true.
Proof. reflexivity. Qed.

Lemma restores_done depth a b alo ahi blo bhi d :
  restore keeps_a d = slice a alo ahi → restore keeps_b d = slice b blo bhi →
  restores_within depth a b alo ahi blo bhi (Done d).
Proof. intros ? ?. right. by exists d. Qed.

Lemma fancy_helper_ok a b fancy depth alo ahi blo bhi :
  alo ≤ ahi → blo ≤ bhi →
  (alo < ahi → blo < bhi →
     restores_within depth a b alo ahi blo bhi (fancy alo ahi blo bhi)) →
  restores_within depth a b alo ahi blo bhi
    (fancy_helper fancy a b alo ahi blo bhi).
Proof.
  intros Ha Hb Hf. unfold fancy_helper. repeat case_decide; [by apply Hf|..];
    apply restores_done; rewrite ?restore_dump; simpl;
    try replace bhi with blo by lia; try replace ahi with alo by lia;
    by rewrite ?slice_nil.
Qed.

Lemma synch_ok a b fancy depth alo ahi blo bhi best_i best_j identical :
  alo ≤ best_i < ahi → ahi ≤ length a →
  blo ≤ best_j < bhi → bhi ≤ length b →
  (identical = true → a !! best_i = b !! best_j) →
  (alo < best_i → blo < best_j →
     restores_within depth a b alo best_i blo best_j
       (fancy alo best_i blo best_j)) →
  (best_i + 1 < ahi → best_j + 1 < bhi →
     restores_within depth a b (best_i + 1) ahi (best_j + 1) bhi
       (fancy (best_i + 1) ahi (best_j + 1) bhi)) →
  restores_within (S depth) a b alo ahi blo bhi
    (synch charjunk fancy a b alo ahi blo bhi best_i best_j identical).
Proof.
  intros Hi Ha Hj Hb Hid Hbefore Hafter. unfold synch.
  destruct (fancy_helper_ok a b fancy depth alo best_i blo best_j)
    as [(-> & ? & ?)|(d1 & -> & Ha1 & Hb1)]; [lia..|done| |].
  { left. split; [done|lia]. }
  destruct (lookup_lt_is_Some_2 a best_i) as [aelt Haelt]; [lia|].
  destruct (lookup_lt_is_Some_2 b best_j) as [belt Hbelt]; [lia|].
  unfold getitem. rewrite Haelt, Hbelt.
  destruct (fancy_helper_ok a b fancy depth (best_i + 1) ahi (best_j + 1) bhi)
    as [(-> & ? & ?)|(d2 & -> & Ha2 & Hb2)]; [lia..|done| |].
  { left. split; [done|lia]. }
  right. simpl. eexists. split; [done|].
  rewrite !restore_app, Ha1, Hb1, Ha2, Hb2.
  rewrite (slice_split a alo best_i ahi) by lia.
  rewrite (slice_split a best_i (best_i + 1) ahi) by lia.
  rewrite (slice_split b blo best_j bhi) by lia.
  rewrite (slice_split b best_j (best_j + 1) bhi) by lia.
  rewrite (slice_one a _ _ Haelt), (slice_one b _ _ Hbelt).
  destruct identical.
  - assert (aelt = belt) as -> by (specialize (Hid eq_refl); congruence).
    done.
  - destruct (restore_intraline aelt belt) as [-> ->]. done.
Qed.

(** [_fancy_replace] gives back its two ranges, or raises
    [RecursionError]; it raises nothing else, and this only where both
    ranges hold more lines than the stack has room for calls. *)
Lemma fancy_replace_ok a b depth :
  ∀ alo ahi blo bhi,
    alo < ahi ≤ length a → blo < bhi ≤ length b →
    restores_within depth a b alo ahi blo bhi
      (fancy_replace charjunk depth a alo ahi b blo bhi).
Proof.
  induction depth as [|depth IH]; intros alo ahi blo bhi Ha Hb.
  { left. split; [done|lia]. }
  simpl.
  pose proof (search_correct a b alo ahi blo bhi ltac:(lia) ltac:(lia))
    as (Hs1 & Hs2 & Hs3).
  destruct (search charjunk a alo ahi b blo bhi) as [[best_ratio best] eq].
  simpl in *.
  destruct (best_ratio <? cutoff)%float eqn:Hlt.
  - destruct eq as [[eqi eqj]|].
    + destruct (Hs3 _ _ eq_refl) as (? & ? & ?).
      apply synch_ok; [lia..|done| |]; intros ? ?; apply IH; lia.
    + right. eexists. split; [done|].
      by rewrite restore_plain_replace_a, restore_plain_replace_b.
  - destruct best as [[best_i best_j]|].
    + destruct (Hs2 _ _ eq_refl) as (? & ?).
      apply synch_ok; [lia..|done| |]; intros ? ?; apply IH; lia.
    + rewrite Hs1 in Hlt by done.
      by rewrite best_ratio_init_lt_cutoff in Hlt.
Qed.

Lemma mapM_result_cons {X Y} (f : X → result Y) x l :
  mapM f (x :: l)
  = match f x with
    | Done y =>
        match mapM f l with
        | Done k => Done (y :: k)
        | Raised e => Raised e
        end
    | Raised e => Raised e
    end.
Proof. reflexivity. Qed.

Lemma compare_opcode_ok limit a b t i i2 j j2 :
  i2 ≤ length a → j2 ≤ length b → tag_ok a b t i i2 j j2 →
  restores_within limit a b i i2 j j2
    (compare_opcode charjunk limit a b (t, i, i2, j, j2)).
Proof.
  intros Hi2 Hj2 Ht. destruct t; simpl in Ht |- *.
  - apply fancy_replace_ok; lia.
  - apply restores_done; rewrite !restore_dump; simpl; [done|].
    destruct Ht as [_ <-]. by rewrite slice_nil.
  - apply restores_done; rewrite !restore_dump; simpl; [|done].
    destruct Ht as [<- _]. by rewrite slice_nil.
  - apply restores_done; rewrite !restore_dump; simpl; [done|].
    destruct Ht as (? & Hlen & Hm).
    replace i2 with (i + (i2 - i)) by lia.
    replace j2 with (j + (i2 - i)) by lia.
    by apply matches_slice.
Qed.

Lemma compare_opcodes_ok limit a b ops :
  ∀ i j,
    opcodes_ok a b i j ops →
    (mapM (compare_opcode charjunk limit a b) ops
     = Raised Difflib.RecursionError
     ∧ limit < length a ∧ limit < length b)
    ∨ ∃ ds, mapM (compare_opcode charjunk limit a b) ops = Done ds
            ∧ restore keeps_a (concat ds) = drop i a
            ∧ restore keeps_b (concat ds) = drop j b.
Proof.
  induction ops as [|[[[[t i1] i2] j1] j2] ops IH]; intros i j Hops.
  - destruct Hops as [-> ->]. right. exists []. by rewrite !drop_all.
  - destruct Hops as (-> & -> & Hi2 & Hj2 & Ht & Hops).
    rewrite mapM_result_cons.
    destruct (compare_opcode_ok limit a b t i i2 j j2 Hi2 Hj2 Ht)
      as [(-> & ? & ?)|(d & -> & Hda & Hdb)].
    { left. split; [done|lia]. }
    destruct (IH _ _ Hops) as [(-> & ? & ?)|(ds & -> & Ha & Hb)].
    { left. split; [done|lia]. }
    right. exists (d :: ds). split; [done|].
    simpl. rewrite !restore_app, Ha, Hb, Hda, Hdb.
    destruct t; simpl in Ht; rewrite !slice_drop by lia; done.
Qed.

(** [compare] gives a delta from which both inputs come back, or raises
    [RecursionError]; it raises nothing else, and this only where both
    inputs hold more lines than the stack has room for calls. *)
Theorem compare_entries_restores linejunk limit a b :
  (compare_entries linejunk charjunk limit a b = Raised Difflib.RecursionError
   ∧ limit < length a ∧ limit < length b)
  ∨ ∃ d, compare_entries linejunk charjunk limit a b = Done d
         ∧ restore keeps_a d = a ∧ restore keeps_b d = b.
Proof.
  unfold compare_entries.
  destruct (compare_opcodes_ok limit a b _ 0 0
              (get_opcodes_ok linejunk true a b))
    as [(-> & ? & ?)|(ds & -> & Ha & Hb)].
  - by left.
  - right. exists (concat ds). by rewrite Ha, Hb.
Qed.
End Differ_facts.

Ltac fin :=
  unfold start_events, middle_events, compare_events, comparing_events,
    done_events, report;
  simpl; repeat (progress (rewrite <-?app_assoc; simpl)); done.

Ltac munfold :=
  unfold mbind, M_bind, bind, mret, M_ret, ret, raise, emit, call,
    try_except, try_finally, floordiv in *.

Section Worker_facts.
Variable w : World.

Lemma polls_app s s' : polls (s ++ s') = polls s + polls s'.
Proof. unfold polls. by rewrite filter_app, length_app. Qed.

Lemma stopped_app s s' : stopped w s → stopped w (s ++ s').
Proof. intros (n & ? & ?). exists n. rewrite polls_app. split; [done|lia]. Qed.

Lemma is_running_cases s :
  (is_running w s = (Ok true, s ++ [Poll true]) ∧ ¬ stopped w s)
  ∨ (is_running w s = (Ok false, s ++ [Poll false]) ∧ stopped w s).
Proof.
  unfold is_running, stopped. destruct (stop_at w) as [n|].
  - case_bool_decide.
    + left. split; [done|]. intros (? & [= <-] & ?). lia.
    + right. split; [done|]. exists n. split; [done|lia].
  - left. split; [done|]. by intros (? & ? & ?).
Qed.

Lemma is_running_stopped s :
  stopped w s → is_running w s = (Ok false, s ++ [Poll false]).
Proof. intros ?. by destruct (is_running_cases s) as [[_ ?]|[? _]]. Qed.

(** The loop over the pages, in full. *)
Lemma pages_loop_cases pages :
  ∀ npages i text s,
    npages = i + length pages →
    ∃ k, k ≤ length pages ∧
      let evs := flat_map (progress_events npages) (seq i k) in
      (pages_loop w npages i pages text s = (Ok (pages_text text pages), s ++ evs)
       ∧ k = length pages ∧ Forall page_returns pages)
      ∨ (pages_loop w npages i pages text s = (Ok "", s ++ evs ++ [Poll false])
         ∧ stopped w (s ++ evs) ∧ k < length pages
         ∧ Forall page_returns (take k pages))
      ∨ (∃ msg, pages_loop w npages i pages text s
                = (Raise (LibraryError msg), s ++ evs ++ progress_events npages (i + k))
                ∧ pages !! k = Some (Failed msg)
                ∧ Forall page_returns (take k pages)).
Proof.
  induction pages as [|p pages IH]; intros npages i text s Hn.
  - exists 0. split; [done|]. left. simpl. munfold. by rewrite app_nil_r.
  - simpl. munfold.
    destruct (is_running_cases s) as [[-> Hrun]|[-> Hstop]]; simpl.
    2:{ exists 0. split; [lia|]. right. left. simpl. rewrite app_nil_r.
        split_and!; [done|done|lia|constructor]. }
    case_decide; [simpl in Hn; lia|]. simpl.
    destruct p as [t|msg]; simpl.
    + destruct (IH npages (i + 1) (text +:+ or_empty t)
                  ((s ++ [Poll true])
                   ++ [Emit (progress_updated (10 + i * 40 / npages))]))
        as (k & Hk & Hcases); [simpl in Hn; lia|].
      exists (S k). split; [simpl; lia|]. simpl.
      replace (S i) with (i + 1) by lia.
      rewrite <-!(assoc_L (++)) in Hcases. simpl in Hcases.
      rewrite <-!(assoc_L (++)). simpl.
      destruct Hcases as [(-> & -> & ?)|[(-> & ? & ? & ?)|(m & -> & ? & ?)]].
      * left. split_and!; [done|done|]. constructor; [by eexists|done].
      * right. left. split_and!; [done|done|lia|].
        constructor; [by eexists|done].
      * right. right. exists m.
        replace (i + S k) with (i + 1 + k) by lia.
        split_and!; [done|done|]. constructor; [by eexists|done].
    + exists 0. split; [lia|]. right. right. exists msg. simpl.
      rewrite Nat.add_0_r, <-(assoc_L (++)). simpl.
      split_and!; [done|done|constructor].
Qed.

Lemma fallback_cases pdf_path s :
  (∃ m, PdfReader w pdf_path = Failed m
        ∧ fallback w pdf_path s = (Raise (LibraryError m), s))
  ∨ (∃ pages k, PdfReader w pdf_path = Returned pages ∧ k ≤ length pages ∧
      let evs := flat_map (progress_events (length pages)) (seq 0 k) in
      (fallback w pdf_path s = (Ok (pages_text "" pages), s ++ evs)
       ∧ k = length pages ∧ Forall page_returns pages)
      ∨ (fallback w pdf_path s = (Ok "", s ++ evs ++ [Poll false])
         ∧ stopped w (s ++ evs) ∧ k < length pages
         ∧ Forall page_returns (take k pages))
      ∨ (∃ msg, fallback w pdf_path s
                = (Raise (LibraryError msg),
                   s ++ evs ++ progress_events (length pages) k)
                ∧ pages !! k = Some (Failed msg)
                ∧ Forall page_returns (take k pages))).
Proof.
  unfold fallback. munfold. destruct (PdfReader w pdf_path) as [pages|m].
  - right. exists pages.
    destruct (pages_loop_cases pages (length pages) 0 "" s) as (k & ? & Hk);
      [done|].
    exists k. split; [done|]. split; [done|]. exact Hk.
  - left. by exists m.
Qed.

Lemma extract_text_unfold pdf_path s :
  extract_text w pdf_path s
  = match pdfminer_extract w pdf_path with
    | Returned t => (Ok t, s)
    | Failed _ =>
        match fallback w pdf_path s with
        | (Ok text, s') => (Ok text, s')
        | (Raise e2, s') => (Raise (extraction_error e2), s')
        end
    end.
Proof.
  unfold extract_text, try_except, call, raise, ret.
  by destruct (pdfminer_extract w pdf_path).
Qed.

Lemma extract_text_cases pdf_path s :
  (∃ t, pdfminer_extract w pdf_path = Returned t
        ∧ extract_text w pdf_path s = (Ok t, s))
  ∨ (∃ m, pdfminer_extract w pdf_path = Failed m ∧
      ((∃ m2, PdfReader w pdf_path = Failed m2
              ∧ extract_text w pdf_path s
                = (Raise (extraction_error (LibraryError m2)), s))
       ∨ (∃ pages k, PdfReader w pdf_path = Returned pages ∧ k ≤ length pages ∧
           let evs := flat_map (progress_events (length pages)) (seq 0 k) in
           (extract_text w pdf_path s = (Ok (pages_text "" pages), s ++ evs)
            ∧ k = length pages ∧ Forall page_returns pages)
           ∨ (extract_text w pdf_path s = (Ok "", s ++ evs ++ [Poll false])
              ∧ stopped w (s ++ evs) ∧ k < length pages
              ∧ Forall page_returns (take k pages))
           ∨ (∃ msg, extract_text w pdf_path s
                     = (Raise (extraction_error (LibraryError msg)),
                        s ++ evs ++ progress_events (length pages) k)
                     ∧ pages !! k = Some (Failed msg)
                     ∧ Forall page_returns (take k pages))))).
Proof.
  rewrite extract_text_unfold.
  destruct (pdfminer_extract w pdf_path) as [t|m].
  - left. by exists t.
  - right. exists m. split; [done|].
    destruct (fallback_cases pdf_path s)
      as [(m2 & Hr & ->)|(pages & k & Hr & Hk & Hcases)].
    + left. by exists m2.
    + right. exists pages, k. split; [done|]. split; [done|].
      destruct Hcases as [(-> & ? & ?)|[(-> & ? & ? & ?)|(msg & -> & ? & ?)]].
      * by left.
      * right. by left.
      * right. right. by exists msg.
Qed.

Lemma progress_events_calm npages i k :
  calm (flat_map (progress_events npages) (seq i k)).
Proof.
  revert i. induction k as [|k IH]; intros i; simpl; [constructor|].
  repeat constructor. apply IH.
Qed.

(** The extraction, for what [run] makes of it. *)
Lemma extract_text_shape pdf_path s :
  ∃ evs, calm evs ∧
    ((∃ t, extract_text w pdf_path s = (Ok t, s ++ evs))
     ∨ (extract_text w pdf_path s = (Ok "", s ++ evs ++ [Poll false])
        ∧ stopped w (s ++ evs))
     ∨ (∃ e2, extract_text w pdf_path s = (Raise (extraction_error e2), s ++ evs))).
Proof.
  destruct (extract_text_cases pdf_path s)
    as [(t & _ & Ht)|(m & _ & [(m2 & _ & Hr)|(pages & k & _ & _ & Hc)])].
  - exists []. split; [constructor|]. left. exists t. by rewrite app_nil_r.
  - exists []. split; [constructor|]. right. right. eexists.
    by rewrite app_nil_r.
  - destruct Hc as [(Hr & _)|[(Hr & ? & _)|(msg & Hr & _)]].
    + eexists. split; [apply progress_events_calm|]. left. by eexists.
    + eexists. split; [apply progress_events_calm|]. right. by left.
    + exists (flat_map (progress_events (length pages)) (seq 0 k)
              ++ progress_events (length pages) k).
      split.
      * apply Forall_app. split; [apply progress_events_calm|].
        repeat constructor.
      * right. right. eexists. by rewrite Hr.
Qed.

Lemma prefix_render_removed e :
  String.prefix "- " (render e) = bool_decide (entry_kind e = Removed).
Proof. destruct e as [[] [|c line]]; reflexivity. Qed.

Lemma prefix_render_added e :
  String.prefix "+ " (render e) = bool_decide (entry_kind e = Added).
Proof. destruct e as [[] [|c line]]; reflexivity. Qed.

Lemma prefix_render_hint e :
  String.prefix "? " (render e) = bool_decide (entry_kind e = IntralineHint).
Proof. destruct e as [[] [|c line]]; reflexivity. Qed.

Lemma count_cons k e d :
  count k (e :: d) = (if decide (entry_kind e = k) then 1 else 0) + count k d.
Proof. unfold count. rewrite filter_cons. by case_decide. Qed.

Lemma format_loop_cases d :
  ∀ result added removed s,
    (format_loop w (render <$> d) result added removed s
     = (Ok (Some (result ++ styled d, added + count Added d,
                  removed + count Removed d)),
        s ++ replicate (length d) (Poll true)))
    ∨ (∃ k, format_loop w (render <$> d) result added removed s
            = (Ok None, s ++ replicate k (Poll true) ++ [Poll false])
            ∧ stopped w (s ++ replicate k (Poll true)) ∧ k < length d).
Proof.
  induction d as [|e d IH]; intros result added removed s.
  - left. simpl. munfold. by rewrite !app_nil_r, !Nat.add_0_r.
  - rewrite fmap_cons. cbn [format_loop]. munfold.
    destruct (is_running_cases s) as [[-> Hrun]|[-> Hstop]]; cbn [negb].
    2:{ right. exists 0. simpl. rewrite app_nil_r.
        split_and!; [done|done|lia]. }
    rewrite prefix_render_removed, prefix_render_added, prefix_render_hint.
    rewrite !count_cons.
    assert (∀ r a m x,
      r = result ++ x → a = added + (if decide (entry_kind e = Added) then 1 else 0) →
      m = removed + (if decide (entry_kind e = Removed) then 1 else 0) →
      styled (e :: d) = x ++ styled d →
      format_loop w (render <$> d) r a m (s ++ [Poll true]) =
        (Ok (Some (result ++ styled (e :: d),
                   added + ((if decide (entry_kind e = Added) then 1 else 0)
                            + count Added d),
                   removed + ((if decide (entry_kind e = Removed) then 1 else 0)
                              + count Removed d))),
         s ++ replicate (length (e :: d)) (Poll true))
      ∨ (∃ k, format_loop w (render <$> d) r a m (s ++ [Poll true])
              = (Ok None, s ++ replicate k (Poll true) ++ [Poll false])
              ∧ stopped w (s ++ replicate k (Poll true))
              ∧ k < length (e :: d))) as Hstep.
    { intros r a m x -> -> -> ->.
      destruct (IH (result ++ x)
                  (added + (if decide (entry_kind e = Added) then 1 else 0))
                  (removed + (if decide (entry_kind e = Removed) then 1 else 0))
                  (s ++ [Poll true])) as [->|(k & -> & ? & ?)].
      - left. rewrite <-!(assoc_L (++)), !Nat.add_assoc. done.
      - right. exists (S k). rewrite <-!(assoc_L (++)) in *. simpl.
        split_and!; [done|done|lia]. }
    destruct e as [[] line]; simpl bool_decide; cbv iota; cbn [negb];
      eapply Hstep; simpl; try done; try lia;
      try (symmetry; apply app_nil_r); done.
Qed.

Lemma run_unfold f1 f2 s :
  run w f1 f2 s
  = match run_body w f1 f2 s with
    | (Ok x, s') => (Ok x, s' ++ [Emit finished])
    | (Raise e, s') =>
        (Ok (), (s' ++ [Emit (error_occurred (error_message e))])
                ++ [Emit finished])
    end.
Proof. unfold run. munfold. by destruct (run_body w f1 f2 s) as [[] ?]. Qed.

(** Line 49 returns the delta, or raises [RecursionError]. *)
Lemma differ_compare_cases a b s :
  (∃ d, compare_entries None None (recursion_limit w) a b = Done d
        ∧ differ_compare w a b s = (Ok (render <$> d), s)
        ∧ restore keeps_a d = a ∧ restore keeps_b d = b)
  ∨ (compare_entries None None (recursion_limit w) a b
     = Raised Difflib.RecursionError
     ∧ differ_compare w a b s
       = (Raise (RecursionError (recursion_message w)), s)
     ∧ recursion_limit w < length a ∧ recursion_limit w < length b).
Proof.
  unfold differ_compare, compare.
  destruct (compare_entries_restores None None (recursion_limit w) a b)
    as [(-> & ? & ?)|(d & -> & ? & ?)].
  - by right.
  - left. by exists d.
Qed.

Lemma calm_replicate n : calm (replicate n (Poll true)).
Proof. induction n; simpl; by constructor. Qed.

(** Every way [run_body] can go. *)
Lemma run_body_cases f1 f2 r tr :
  run_body w f1 f2 [] = (r, tr) →
  (∃ e evs1, calm evs1
     ∧ extract_text w f1 (start_events w f1)
       = (Raise (extraction_error e), start_events w f1 ++ evs1)
     ∧ r = Raise (extraction_error e) ∧ tr = start_events w f1 ++ evs1)
  ∨ (∃ evs1 stops, calm evs1 ∧ is_Some (stop_at w)
       ∧ (stops = [Poll false] ∨ stops = [Poll false; Poll false])
       ∧ r = Ok () ∧ tr = start_events w f1 ++ evs1 ++ stops)
  ∨ (∃ t1 evs1, calm evs1
       ∧ extract_text w f1 (start_events w f1)
         = (Ok t1, start_events w f1 ++ evs1)
       ∧ ((∃ e evs2, calm evs2
             ∧ extract_text w f2 (start_events w f1 ++ evs1 ++ middle_events w f2)
               = (Raise (extraction_error e),
                  start_events w f1 ++ evs1 ++ middle_events w f2 ++ evs2)
             ∧ r = Raise (extraction_error e)
             ∧ tr = start_events w f1 ++ evs1 ++ middle_events w f2 ++ evs2)
          ∨ (∃ evs2 stops, calm evs2 ∧ is_Some (stop_at w)
               ∧ (stops = [Poll false] ∨ stops = [Poll false; Poll false])
               ∧ r = Ok ()
               ∧ tr = start_events w f1 ++ evs1 ++ middle_events w f2
                      ++ evs2 ++ stops)
          ∨ (∃ t2 evs2 d, calm evs2
               ∧ extract_text w f2
                   (start_events w f1 ++ evs1 ++ middle_events w f2)
                 = (Ok t2, start_events w f1 ++ evs1 ++ middle_events w f2
                           ++ evs2)
               ∧ compare_entries None None (recursion_limit w)
                   (splitlines t1) (splitlines t2)
                 = Done d
               ∧ r = Ok ()
               ∧ ((∃ k, k < length d ∧ is_Some (stop_at w)
                     ∧ tr = start_events w f1 ++ evs1 ++ middle_events w f2
                            ++ evs2 ++ compare_events
                            ++ replicate k (Poll true) ++ [Poll false])
                  ∨ tr = start_events w f1 ++ evs1 ++ middle_events w f2
                         ++ evs2 ++ compare_events
                         ++ replicate (length d) (Poll true)
                         ++ done_events t1 t2 d))
          ∨ (∃ t2 evs2, calm evs2
               ∧ extract_text w f2
                   (start_events w f1 ++ evs1 ++ middle_events w f2)
                 = (Ok t2, start_events w f1 ++ evs1 ++ middle_events w f2
                           ++ evs2)
               ∧ compare_entries None None (recursion_limit w)
                   (splitlines t1) (splitlines t2)
                 = Raised Difflib.RecursionError
               ∧ r = Raise (RecursionError (recursion_message w))
               ∧ tr = start_events w f1 ++ evs1 ++ middle_events w f2
                      ++ evs2 ++ comparing_events))).
Proof.
  assert (∀ s, stopped w s → is_Some (stop_at w)) as Hsome.
  { intros s (n & -> & _). by eexists. }
  unfold run_body. munfold. cbn [app]. fold (start_events w f1).
  destruct (extract_text_shape f1 (start_events w f1))
    as (evs1 & Hc1 & [(t1 & Hx1)|[(Hx1 & Hst)|(e & Hx1)]]); rewrite Hx1.
  3:{ intros [= <- <-]. left. by exists e, evs1. }
  2:{ rewrite is_running_stopped by (rewrite (assoc_L (++)); by apply stopped_app).
      cbn [negb]. intros [= <- <-]. right. left.
      exists evs1, [Poll false; Poll false].
      split_and!; [done|by eapply Hsome|by right|done|].
      fin. }
  destruct (is_running_cases (start_events w f1 ++ evs1)) as [[-> _]|[-> Hst]];
    cbn [negb].
  2:{ intros [= <- <-]. right. left. exists evs1, [Poll false].
      split_and!; [done|by eapply Hsome|by left|done|].
      fin. }
  replace ((((start_events w f1 ++ evs1) ++ [Poll true])
            ++ [Emit (progress_updated 30)])
           ++ [Emit (status_updated (status_extracting w f2))])
    with (start_events w f1 ++ evs1 ++ middle_events w f2)
    by (unfold middle_events; by rewrite <-!(assoc_L (++))).
  set (s2 := start_events w f1 ++ evs1 ++ middle_events w f2).
  intros Hrun. right. right. exists t1, evs1. split; [done|]. split; [done|].
  revert Hrun.
  destruct (extract_text_shape f2 s2)
    as (evs2 & Hc2 & [(t2 & Hx2)|[(Hx2 & Hst)|(e & Hx2)]]); rewrite Hx2;
    unfold s2 in *; clear s2; rewrite <-?(assoc_L (++)) in *.
  3:{ intros [= <- <-]. left. by exists e, evs2. }
  2:{ rewrite is_running_stopped.
      2:{ rewrite !(assoc_L (++)). apply stopped_app.
          fin. }
      cbn [negb]. intros [= <- <-]. right. left.
      exists evs2, [Poll false; Poll false].
      split_and!; [done|by eapply Hsome|by right|done|].
      fin. }
  destruct (is_running_cases
              (start_events w f1 ++ evs1 ++ middle_events w f2 ++ evs2))
    as [[-> _]|[-> Hst]]; cbn [negb].
  2:{ intros [= <- <-]. right. left. exists evs2, [Poll false].
      split_and!; [done|by eapply Hsome|by left|done|].
      fin. }
  match goal with
  | |- context [differ_compare w _ _ ?s] =>
      replace s with (start_events w f1 ++ evs1 ++ middle_events w f2
                      ++ evs2 ++ comparing_events)
        by (unfold comparing_events; by rewrite <-!(assoc_L (++)))
  end.
  destruct (differ_compare_cases (splitlines t1) (splitlines t2)
              (start_events w f1 ++ evs1 ++ middle_events w f2 ++ evs2
               ++ comparing_events))
    as [(d & Hd & -> & _)|(Hd & -> & _)].
  2:{ intros [= <- <-]. right. right. right. by exists t2, evs2. }
  match goal with
  | |- context [format_loop w _ [] 0 0 ?s] =>
      replace s with (start_events w f1 ++ evs1 ++ middle_events w f2
                      ++ evs2 ++ compare_events)
        by (unfold compare_events, comparing_events;
            by rewrite <-!(assoc_L (++)))
  end.
  destruct (format_loop_cases d [] 0 0
              (start_events w f1 ++ evs1 ++ middle_events w f2 ++ evs2
               ++ compare_events)) as [->|(k & -> & Hst & ?)];
    intros [= <- <-]; right; right; left; exists t2, evs2, d;
    (split_and!; [done|done|done|done|]).
  - right. fin.
  - left. exists k. split_and!; [done|by eapply Hsome|fin].
Qed.
End Worker_facts.

(** ** The shape of a whole run *)

Definition mild (n : notification) : Prop :=
  match n with
  | progress_updated _ | status_updated _ => True
  | result_ready _ | error_occurred _ | finished => False
  end.

Lemma notifications_app s s' :
  notifications (s ++ s') = notifications s ++ notifications s'.
Proof. apply omap_app. Qed.

Lemma calm_app evs evs' : calm evs → calm evs' → calm (evs ++ evs').
Proof. intros ? ?. apply Forall_app. by split. Qed.

Lemma calm_mild evs : calm evs → Forall mild (notifications evs).
Proof.
  induction 1 as [|e evs He _ IH]; [constructor|].
  destruct e as [b|n]; [done|]. destruct n; by try constructor.
Qed.

Lemma calm_start w f1 : calm (start_events w f1).
Proof. by repeat constructor. Qed.

Lemma calm_middle w f2 : calm (middle_events w f2).
Proof. by repeat constructor. Qed.

Lemma calm_compare : calm compare_events.
Proof. by repeat constructor. Qed.

Lemma calm_comparing : calm comparing_events.
Proof. by repeat constructor. Qed.

Ltac calm_tac :=
  repeat first
    [ apply calm_app | apply calm_start | apply calm_middle
    | apply calm_compare | apply calm_comparing | apply calm_replicate
    | assumption ].

(** A run is a calm stretch, then one of four ends: the error and
    [finished]; one or two reads of a cleared flag and [finished]; the
    result, 100, the last status and [finished]. *)
Lemma trace_shape w f1 f2 :
  ∃ body tail, trace w f1 f2 = body ++ tail ∧ calm body ∧
    ((∃ e, run_body w f1 f2 [] = (Raise e, body)
           ∧ tail = [Emit (error_occurred (error_message e)); Emit finished])
     ∨ (is_Some (stop_at w)
        ∧ (tail = [Poll false; Emit finished]
           ∨ tail = [Poll false; Poll false; Emit finished]))
     ∨ (∃ t1 t2 d, tail = done_events t1 t2 d ++ [Emit finished])).
Proof.
  unfold trace. rewrite run_unfold.
  destruct (run_body w f1 f2 []) as [r tr] eqn:E.
  destruct (run_body_cases w f1 f2 r tr E)
    as [(e & evs1 & ? & _ & -> & ->)
       |[(evs1 & stops & ? & ? & Hstops & -> & ->)
        |(t1 & evs1 & ? & _ &
          [(e & evs2 & ? & _ & -> & ->)
          |[(evs2 & stops & ? & ? & Hstops & -> & ->)
           |[(t2 & evs2 & d & ? & _ & _ & -> &
              [(k & ? & ? & ->)| ->])
            |(t2 & evs2 & ? & _ & _ & -> & ->)]]])]]; cbn [snd].
  - exists (start_events w f1 ++ evs1),
      [Emit (error_occurred (error_message (extraction_error e)));
       Emit finished].
    split; [fin|]. split; [calm_tac|]. left. by eexists.
  - exists (start_events w f1 ++ evs1), (stops ++ [Emit finished]).
    split; [fin|]. split; [calm_tac|]. right. left.
    split; [done|]. destruct Hstops as [-> | ->]; auto.
  - exists (start_events w f1 ++ evs1 ++ middle_events w f2 ++ evs2),
      [Emit (error_occurred (error_message (extraction_error e)));
       Emit finished].
    split; [fin|]. split; [calm_tac|]. left. by eexists.
  - exists (start_events w f1 ++ evs1 ++ middle_events w f2 ++ evs2),
      (stops ++ [Emit finished]).
    split; [fin|]. split; [calm_tac|]. right. left.
    split; [done|]. destruct Hstops as [-> | ->]; auto.
  - exists (start_events w f1 ++ evs1 ++ middle_events w f2 ++ evs2
            ++ compare_events ++ replicate k (Poll true)),
      [Poll false; Emit finished].
    split; [fin|]. split; [calm_tac|]. right. left. auto.
  - exists (start_events w f1 ++ evs1 ++ middle_events w f2 ++ evs2
            ++ compare_events ++ replicate (length d) (Poll true)),
      (done_events t1 t2 d ++ [Emit finished]).
    split; [fin|]. split; [calm_tac|]. right. right.
    by exists t1, t2, d.
  - exists (start_events w f1 ++ evs1 ++ middle_events w f2 ++ evs2
            ++ comparing_events),
      [Emit (error_occurred
               (error_message (RecursionError (recursion_message w))));
       Emit finished].
    split; [fin|]. split; [calm_tac|]. left. by eexists.
Qed.

Lemma mild_not_in l n : Forall mild l → ¬ mild n → n ∉ l.
Proof. rewrite Forall_forall. intros Hl Hn Hin. by apply Hn, Hl. Qed.

Lemma run_returns w f1 f2 s : (run w f1 f2 s).1 = Ok ().
Proof.
  rewrite run_unfold. by destruct (run_body w f1 f2 s) as [[[]|e] tr].
Qed.

Lemma notifications_polls n b : notifications (replicate n (Poll b)) = [].
Proof. induction n as [|n IH]; [done|exact IH]. Qed.

Ltac no_such_notification :=
  rewrite !elem_of_cons, elem_of_nil;
  let H := fresh in
  intros H; repeat (destruct H as [H|H]; [discriminate H|]); exact H.

Lemma calm_no_result evs html :
  calm evs → result_ready html ∉ notifications evs.
Proof.
  intros Hcalm. apply mild_not_in; [by apply calm_mild|by intros []].
Qed.


(** * The claims *)

(** C7. Every invocation of the task returns, and among its
    notifications [finished] comes exactly once, as the last one: this
    holds whatever the libraries do and whenever the flag is cleared. *)
Theorem finished_exactly_once_and_last w f1 f2 :
  (run w f1 f2 []).1 = Ok ()
  ∧ ∃ before,
      notifications (trace w f1 f2) = before ++ [finished]
      ∧ finished ∉ before.
Proof.
  split; [apply run_returns|].
  destruct (trace_shape w f1 f2) as (body & tail & -> & Hcalm & Htail).
  apply calm_mild in Hcalm. rewrite notifications_app.
  assert (∃ mid, notifications tail = mid ++ [finished] ∧ finished ∉ mid)
    as (mid & -> & Hmid).
  { destruct Htail as [(e & _ & ->)|[(_ & [-> | ->])|(t1 & t2 & d & ->)]].
    - eexists [_]. split; [done|]. by intros [=]%list_elem_of_singleton.
    - exists []. split; [done|]. apply not_elem_of_nil.
    - exists []. split; [done|]. apply not_elem_of_nil.
    - eexists [_; _; _]. split; [done|].
      rewrite !elem_of_cons, elem_of_nil. by intros [[=]|[[=]|[[=]|[]]]]. }
  exists (notifications body ++ mid). split; [by rewrite app_assoc|].
  rewrite elem_of_app. intros [Hin|Hin]; [|done].
  exact (mild_not_in _ finished Hcalm (λ H, H) Hin).
Qed.

(** ** The reads of the flag *)

Section Consistent.
Variable w : World.

Lemma consistent_nil : consistent w [].
Proof. intros pre b post H. by destruct pre. Qed.

Lemma consistent_snoc s e :
  consistent w s →
  (∀ b, e = Poll b → b = flag_at w (polls s)) →
  consistent w (s ++ [e]).
Proof.
  intros Hs He pre b post Heq.
  destruct post as [|x post _] using rev_ind.
  - apply app_inj_tail in Heq as [-> ->]. by apply He.
  - rewrite app_comm_cons, app_assoc in Heq.
    apply app_inj_tail in Heq as [-> _]. by eapply Hs.
Qed.

Lemma keeps_ret {X} (x : X) : keeps_consistent w (mret x).
Proof. by intros s Hs. Qed.

Lemma keeps_raise {X} e : keeps_consistent w (@raise X e).
Proof. by intros s Hs. Qed.

Lemma keeps_emit n : keeps_consistent w (emit n).
Proof. intros s Hs. by apply consistent_snoc. Qed.

Lemma keeps_is_running : keeps_consistent w (is_running w).
Proof. intros s Hs. apply consistent_snoc; [done|]. by intros b [= <-]. Qed.

Lemma keeps_bind {X Y} (m : M X) (f : X → M Y) :
  keeps_consistent w m → (∀ x, keeps_consistent w (f x)) →
  keeps_consistent w (m ≫= f).
Proof.
  intros Hm Hf s Hs. specialize (Hm s Hs). unfold mbind, M_bind, bind.
  destruct (m s) as [[x|e] s']; [by apply Hf|done].
Qed.

Lemma keeps_try_except {X} (m : M X) handler :
  keeps_consistent w m → (∀ e, keeps_consistent w (handler e)) →
  keeps_consistent w (try_except m handler).
Proof.
  intros Hm Hh s Hs. specialize (Hm s Hs). unfold try_except.
  destruct (m s) as [[x|e] s']; [done|by apply Hh].
Qed.

Lemma keeps_try_finally {X} (m : M X) final :
  keeps_consistent w m → keeps_consistent w final →
  keeps_consistent w (try_finally m final).
Proof.
  intros Hm Hf s Hs. specialize (Hm s Hs). unfold try_finally.
  destruct (m s) as [r s']. specialize (Hf s' Hm).
  by destruct (final s') as [[[]|e] s''].
Qed.

Lemma keeps_call {X} (r : lib_result X) : keeps_consistent w (call r).
Proof. destruct r; [apply keeps_ret|apply keeps_raise]. Qed.

Lemma keeps_floordiv x y : keeps_consistent w (floordiv x y).
Proof. unfold floordiv. case_decide; [apply keeps_raise|apply keeps_ret]. Qed.

Lemma keeps_differ_compare a b : keeps_consistent w (differ_compare w a b).
Proof.
  unfold differ_compare.
  destruct (Difflib.compare _ _ _ a b) as [diff|[]];
    [apply keeps_ret|apply keeps_raise..].
Qed.

Ltac keeps_tac :=
  repeat first
    [ apply keeps_bind; [|intros ?] | apply keeps_try_except; [|intros ?]
    | apply keeps_try_finally | apply keeps_emit | apply keeps_ret
    | apply keeps_raise | apply keeps_is_running | apply keeps_call
    | apply keeps_floordiv | apply keeps_differ_compare | assumption
    | match goal with
      | |- keeps_consistent _ (if ?c then _ else _) => destruct c
      | |- keeps_consistent _ (match ?c with _ => _ end) => destruct c
      end ].

Lemma keeps_pages_loop npages pages :
  ∀ i text, keeps_consistent w (pages_loop w npages i pages text).
Proof.
  induction pages as [|p pages IH]; intros i text; simpl; keeps_tac.
  apply IH.
Qed.

Lemma keeps_extract_text pdf_path : keeps_consistent w (extract_text w pdf_path).
Proof.
  unfold extract_text, fallback. keeps_tac. apply keeps_pages_loop.
Qed.

Lemma keeps_format_loop diff :
  ∀ result added removed,
    keeps_consistent w (format_loop w diff result added removed).
Proof.
  induction diff as [|line diff IH]; intros result added removed; simpl;
    keeps_tac; apply IH.
Qed.

(** Every read of the flag in a run saw what the world had set: it sees
    the flag cleared as soon as [stop_at] says so. *)
Lemma trace_consistent f1 f2 : consistent w (trace w f1 f2).
Proof.
  assert (keeps_consistent w (run w f1 f2)) as Hrun.
  { unfold run, run_body. keeps_tac;
      first [apply keeps_pages_loop | apply keeps_format_loop]. }
  apply Hrun, consistent_nil.
Qed.
End Consistent.

(** ** Cancellation *)

Lemma split_after_calm body tail pre post :
  calm body → body ++ tail = pre ++ Poll false :: post →
  ∃ pre', tail = pre' ++ Poll false :: post.
Proof.
  intros Hcalm. revert pre.
  induction Hcalm as [|e body He _ IH]; intros pre Heq; [by exists pre|].
  destruct pre as [|e' pre]; simpl in Heq.
  - injection Heq as -> _. done.
  - injection Heq as _ Heq. by eapply IH.
Qed.

Lemma stopped_from_start w s : stop_at w = Some 0 → stopped w s.
Proof. intros ?. exists 0. split; [done|lia]. Qed.

Lemma pages_loop_stopped w npages i pages text s :
  stopped w s →
  pages_loop w npages i pages text s
  = match pages with
    | [] => (Ok text, s)
    | _ :: _ => (Ok "", s ++ [Poll false])
    end.
Proof.
  intros Hs. destruct pages as [|p pages]; [done|]. simpl. munfold.
  by rewrite is_running_stopped.
Qed.

Lemma extract_text_stopped w pdf_path s :
  stopped w s →
  extract_text w pdf_path s
  = match pdfminer_extract w pdf_path, PdfReader w pdf_path with
    | Returned t, _ => (Ok t, s)
    | Failed _, Failed m2 => (Raise (extraction_error (LibraryError m2)), s)
    | Failed _, Returned [] => (Ok "", s)
    | Failed _, Returned (_ :: _) => (Ok "", s ++ [Poll false])
    end.
Proof.
  intros Hs. rewrite extract_text_unfold.
  destruct (pdfminer_extract w pdf_path) as [t|m]; [done|].
  unfold fallback. munfold.
  destruct (PdfReader w pdf_path) as [pages|m2]; [|done].
  munfold. cbv beta iota. rewrite pages_loop_stopped by done.
  by destruct pages.
Qed.

(** C3, amended. Every checkpoint reads the flag as it is: cleared as
    soon as it has been cleared. Once a checkpoint has read the flag
    cleared, the run emits nothing more but [finished], and such a run
    has no result. A run whose flag is cleared before it starts emits its
    first status and [finished], with no progress and no result; it emits
    an error in between exactly when both strategies fail to open the
    first document, which happens before any checkpoint. *)
Theorem cancel_short_circuits w f1 f2 :
  (∀ pre b post,
     trace w f1 f2 = pre ++ Poll b :: post → b = flag_at w (polls pre))
  ∧ (∀ pre post,
     trace w f1 f2 = pre ++ Poll false :: post →
     notifications post = [finished]
     ∧ ∀ html, result_ready html ∉ notifications (trace w f1 f2))
  ∧ (stop_at w = Some 0 →
     (notifications (trace w f1 f2)
      = [status_updated (status_extracting w f1); finished]
      ∧ ¬ (∃ m m2, pdfminer_extract w f1 = Failed m
                   ∧ PdfReader w f1 = Failed m2))
     ∨ (∃ m m2,
          pdfminer_extract w f1 = Failed m ∧ PdfReader w f1 = Failed m2
          ∧ notifications (trace w f1 f2)
            = [status_updated (status_extracting w f1);
               error_occurred
                 (error_message (extraction_error (LibraryError m2)));
               finished])).
Proof.
  split; [apply trace_consistent|]. split.
  - intros pre post Htrace.
    destruct (trace_shape w f1 f2) as (body & tail & Heq & Hcalm & Htail).
    rewrite Heq in Htrace |- *.
    destruct (split_after_calm _ _ _ _ Hcalm Htrace) as (pre' & Hsplit).
    rewrite notifications_app. apply calm_mild in Hcalm.
    destruct Htail as [(e & _ & ->)|[(_ & [-> | ->])|(t1 & t2 & d & ->)]].
    + by destruct pre' as [|? [|? [|? ?]]].
    + assert (notifications post = [finished]) as Hpost.
      { destruct pre' as [|? [|? [|? ?]]]; by simplify_eq/=. }
      split; [done|]. intros html. simpl.
      rewrite elem_of_app, list_elem_of_singleton.
      intros [Hin|[=]]. revert Hin. apply mild_not_in; [done|by intros []].
    + assert (notifications post = [finished]) as Hpost.
      { destruct pre' as [|? [|? [|? [|? ?]]]]; by simplify_eq/=. }
      split; [done|]. intros html. simpl.
      rewrite elem_of_app, list_elem_of_singleton.
      intros [Hin|[=]]. revert Hin. apply mild_not_in; [done|by intros []].
    + by destruct pre' as [|? [|? [|? [|? [|? ?]]]]].
  - intros Hstop.
    assert (∀ s, stopped w s) as Hs by (intros s; by apply stopped_from_start).
    unfold trace. rewrite run_unfold. unfold run_body. munfold. cbn [app].
    rewrite extract_text_stopped by done.
    destruct (pdfminer_extract w f1) as [t|m].
    { rewrite is_running_stopped by done. left. split; [done|].
      by intros (? & ? & [=] & _). }
    destruct (PdfReader w f1) as [[|p pages]|m2].
    + rewrite is_running_stopped by done. left. split; [done|].
      by intros (? & ? & _ & [=]).
    + rewrite is_running_stopped by done. left. split; [done|].
      by intros (? & ? & _ & [=]).
    + right. by exists m, m2.
Qed.

(** The theorem at work: a run cancelled while the second document is
    read page by page, and a run cancelled before it starts. *)
Lemma cancel_short_circuits_witness :
  (notifications [Poll false; Emit finished] = [finished]
   ∧ ∀ html, result_ready html
             ∉ notifications (trace (world (Some 2)) "a.pdf" "b.pdf"))
  ∧ notifications (trace (world (Some 0)) "b.pdf" "a.pdf")
    = [status_updated "Извлечение текста из b.pdf..."; finished].
Proof.
  split.
  - apply (proj1 (proj2 (cancel_short_circuits (world (Some 2))
                           "a.pdf" "b.pdf"))
             [Emit (status_updated "Извлечение текста из a.pdf...");
              Poll true; Emit (progress_updated 30);
              Emit (status_updated "Извлечение текста из b.pdf...");
              Poll true; Emit (progress_updated 10)]
             [Poll false; Emit finished]).
    reflexivity.
  - destruct (proj2 (proj2 (cancel_short_circuits (world (Some 0))
                             "b.pdf" "a.pdf")) eq_refl)
      as [[H _]|(m & m2 & _ & H & _)].
    + exact H.
    + discriminate H.
Defined.

(** C3 as stated fails: the flag is cleared before the run starts, no
    library can read the first document, and the run emits an error. *)
Lemma cancel_before_progress_counterexample :
  ¬ cancelled_at_start_is_silent (world (Some 0)) "c.pdf" "a.pdf".
Proof.
  intros H. destruct (H eq_refl) as (_ & Herr & _).
  apply (Herr "Ошибка: Ошибка извлечения текста: not a PDF").
  vm_compute. apply list_elem_of_lookup. by exists 1.
Qed.

(** ** The delta *)

(** The examples of difflib's documentation; the lines of its
    [Differ.compare] example are taken without their line ends, as
    [splitlines] gives them. *)
Example matching_blocks_abxcd :
  get_matching_blocks None true (chars "abxcd") (chars "abcd")
  = [(0, 0, 2); (3, 2, 2); (5, 4, 0)].
Proof. vm_compute. reflexivity. Qed.

Example opcodes_qabxcd :
  get_opcodes None true (chars "qabxcd") (chars "abycdf")
  = [(delete, 0, 1, 0, 0); (equal, 1, 3, 0, 2); (replace, 3, 4, 2, 3);
     (equal, 4, 6, 3, 5); (insert, 6, 6, 5, 6)].
Proof. vm_compute. reflexivity. Qed.

Example ratio_tide_diet :
  ratio None true (chars "tide") (chars "diet") = 0.25%float
  ∧ ratio None true (chars "diet") (chars "tide") = 0.5%float.
Proof. split; vm_compute; reflexivity. Qed.

Example compare_one_two_three :
  differ_compare (world None) ["one"; "two"; "three"] ["ore"; "tree"; "emu"] []
  = (Ok ["+ ore"; "- one"; "- two"; "- three"; "?  -" +:+ newline;
         "+ tree"; "+ emu"], []).
Proof. vm_compute. reflexivity. Qed.

Example compare_nothing_with_x :
  differ_compare (world None) [] ["x"] [] = (Ok ["+ x"], []).
Proof. vm_compute. reflexivity. Qed.

(** Three lines against three lines that are close to them, pair by
    pair: [_fancy_replace] calls itself for what follows the first pair,
    and again for what follows the second. With room for three calls
    [compare] gives the delta, with room for two it raises. *)
Example compare_needs_three_calls :
  Difflib.compare None None 3 ["abcd1"; "abcd2"; "abcd3"]
                              ["abcdx"; "abcdy"; "abcdz"]
  = Done ["- abcd1"; "?     ^" +:+ newline; "+ abcdx"; "?     ^" +:+ newline;
          "- abcd2"; "?     ^" +:+ newline; "+ abcdy"; "?     ^" +:+ newline;
          "- abcd3"; "?     ^" +:+ newline; "+ abcdz"; "?     ^" +:+ newline]
  ∧ Difflib.compare None None 2 ["abcd1"; "abcd2"; "abcd3"]
                                ["abcdx"; "abcdy"; "abcdz"]
    = Raised Difflib.RecursionError.
Proof. split; vm_compute; reflexivity. Qed.


Lemma restore_cons keep e d :
  restore keep (e :: d)
  = (if keep (entry_kind e) then [entry_line e] else []) ++ restore keep d.
Proof. unfold restore. simpl. by destruct (keep (entry_kind e)). Qed.

Lemma length_restore_a d :
  length (restore keeps_a d) = count Unchanged d + count Removed d.
Proof.
  induction d as [|[[] line] d IH]; [done|..];
    rewrite restore_cons, !count_cons, length_app, IH; simpl; lia.
Qed.

Lemma length_restore_b d :
  length (restore keeps_b d) = count Unchanged d + count Added d.
Proof.
  induction d as [|[[] line] d IH]; [done|..];
    rewrite restore_cons, !count_cons, length_app, IH; simpl; lia.
Qed.

(** C8, amended. For all lines [a] and [b], and whatever room the stack
    has: either both deltas exist, or one of the two calls of [compare]
    raises [RecursionError], which happens only when both [a] and [b]
    hold more lines than the stack has room for calls. In each delta,
    the Added and the Unchanged lines are as many as the lines of the
    second input, the Removed and the Unchanged ones as many as the lines
    of the first. So what the two deltas add, taken together, is what
    they remove, and the counts mirror each other exactly when the two
    deltas keep as many lines Unchanged. *)
Theorem counts_under_swap limit (a b : list string) :
  (∃ d d',
     compare_entries None None limit a b = Done d
     ∧ compare_entries None None limit b a = Done d'
     ∧ count Unchanged d + count Added d = length b
     ∧ count Unchanged d + count Removed d = length a
     ∧ count Unchanged d' + count Added d' = length a
     ∧ count Unchanged d' + count Removed d' = length b
     ∧ count Added d + count Added d' = count Removed d + count Removed d'
     ∧ (count Unchanged d = count Unchanged d' ↔
        count Added d = count Removed d' ∧ count Removed d = count Added d'))
  ∨ ((compare_entries None None limit a b = Raised Difflib.RecursionError
      ∨ compare_entries None None limit b a = Raised Difflib.RecursionError)
     ∧ limit < length a ∧ limit < length b).
Proof.
  destruct (compare_entries_restores None None limit a b)
    as [(Hd & ? & ?)|(d & Hd & Ha & Hb)]; [right; by auto|].
  destruct (compare_entries_restores None None limit b a)
    as [(Hd' & ? & ?)|(d' & Hd' & Ha' & Hb')]; [right; by auto|].
  left. exists d, d'. split; [done|]. split; [done|].
  apply (f_equal length) in Ha, Hb, Ha', Hb'.
  rewrite length_restore_a in Ha, Ha'. rewrite length_restore_b in Hb, Hb'.
  lia.
Qed.

(** C8 as stated fails on the lines t, i, d, e against d, i, e, t: both
    deltas exist, the first one adds three lines, the second one removes
    two. *)
Lemma counts_symmetric_counterexample :
  ¬ counts_symmetric 490 ["t"; "i"; "d"; "e"] ["d"; "i"; "e"; "t"].
Proof.
  intros H.
  destruct (H [mkEntry Added "d"; mkEntry Added "i"; mkEntry Added "e";
               mkEntry Unchanged "t"; mkEntry Removed "i";
               mkEntry Removed "d"; mkEntry Removed "e"]
              [mkEntry Added "t"; mkEntry Added "i"; mkEntry Unchanged "d";
               mkEntry Removed "i"; mkEntry Unchanged "e";
               mkEntry Removed "t"]) as [Hadd _];
    [vm_compute; reflexivity..|].
  vm_compute in Hadd. discriminate Hadd.
Qed.

(** The two deltas of the counterexample, as [Differ] yields them. *)
Example diff_tide_diet :
  Difflib.compare None None 490 ["t"; "i"; "d"; "e"] ["d"; "i"; "e"; "t"]
  = Done ["+ d"; "+ i"; "+ e"; "  t"; "- i"; "- d"; "- e"]
  ∧ Difflib.compare None None 490 ["d"; "i"; "e"; "t"] ["t"; "i"; "d"; "e"]
    = Done ["+ t"; "+ i"; "  d"; "- i"; "  e"; "- t"].
Proof. split; vm_compute; reflexivity. Qed.












(** ** The extraction *)

Lemma progress_bounds npages i :
  i < npages → 10 ≤ 10 + i * 40 / npages ≤ 49.
Proof.
  intros Hi. split; [lia|].
  assert (i * 40 / npages < 40); [|lia].
  apply Nat.Div0.div_lt_upper_bound. lia.
Qed.

Lemma progress_events_snoc npages k :
  flat_map (progress_events npages) (seq 0 k) ++ progress_events npages k
  = flat_map (progress_events npages) (seq 0 (S k)).
Proof. rewrite seq_S, flat_map_app. reflexivity. Qed.

Lemma notifications_progress_events npages k :
  ∀ i, notifications (flat_map (progress_events npages) (seq i k))
       = progress_updated <$> ((λ i, 10 + i * 40 / npages) <$> seq i k).
Proof.
  induction k as [|k IH]; intros i; [done|]. simpl. f_equal. apply IH.
Qed.

Lemma is_running_flag w s :
  is_running w s
  = (Ok (flag_at w (polls s)), s ++ [Poll (flag_at w (polls s))]).
Proof. unfold is_running, flag_at. by destruct (stop_at w). Qed.

Lemma polls_snoc_poll s b : polls (s ++ [Poll b]) = S (polls s).
Proof. rewrite polls_app. change (polls [Poll b]) with 1. lia. Qed.

Lemma polls_snoc_emit s n : polls (s ++ [Emit n]) = polls s.
Proof. rewrite polls_app. change (polls [Emit n]) with 0. lia. Qed.

Lemma flag_at_mono w k k' : k ≤ k' → flag_at w k' = true → flag_at w k = true.
Proof.
  unfold flag_at. destruct (stop_at w) as [n|]; [|done].
  rewrite !bool_decide_eq_true. lia.
Qed.

(** The events of the loop over the pages: for each page that it
    enters, the read of the flag and the progress of that page, and then
    the read that sees the flag cleared, if it is that which ends it. *)
Lemma pages_loop_events w pages :
  ∀ npages i text s,
    npages = i + length pages →
    ∃ tail,
      (pages_loop w npages i pages text s).2
      = s ++ flat_map (progress_events npages)
                (seq i (pages_entered w (polls s) pages)) ++ tail
      ∧ (tail = [] ∨ tail = [Poll false]).
Proof.
  induction pages as [|p pages IH]; intros npages i text s Hn.
  - exists []. simpl. rewrite app_nil_r. auto.
  - simpl. munfold. rewrite is_running_flag.
    destruct (flag_at w (polls s)) eqn:Hflag; simpl.
    2:{ exists [Poll false]. auto. }
    case_decide; [simpl in Hn; lia|]. simpl.
    destruct p as [t|msg]; simpl.
    + destruct (IH npages (i + 1) (text +:+ or_empty t)
                  ((s ++ [Poll true])
                   ++ [Emit (progress_updated (10 + i * 40 / npages))]))
        as (tail & Heq & Htail); [simpl in Hn; lia|].
      exists tail. split; [|done].
      rewrite polls_snoc_emit, polls_snoc_poll in Heq. simpl in Heq.
      replace (S i) with (i + 1) by lia.
      by rewrite Heq, <-!(assoc_L (++)).
    + exists []. rewrite <-(assoc_L (++)). auto.
Qed.

Lemma pages_entered_le w pages :
  ∀ reads, pages_entered w reads pages ≤ length pages.
Proof.
  induction pages as [|p pages IH]; intros reads; simpl; [lia|].
  destruct (flag_at w reads); [|lia]. destruct p; [|lia].
  specialize (IH (S reads)). lia.
Qed.

Lemma pages_entered_all w pages :
  ∀ reads,
    (∀ i, i < length pages → flag_at w (reads + i) = true) →
    Forall page_returns pages →
    pages_entered w reads pages = length pages.
Proof.
  induction pages as [|p pages IH]; intros reads Hflag Hall; [done|].
  assert (flag_at w reads = true) as Hreads.
  { rewrite <-(Nat.add_0_r reads). apply Hflag. simpl. lia. }
  simpl. rewrite Hreads.
  inversion Hall as [|? ? [t ->] Hall']; subst. f_equal.
  apply IH; [|done]. intros i Hi.
  replace (S reads + i) with (reads + S i) by lia. apply Hflag. simpl. lia.
Qed.

Lemma pages_entered_stop w pages :
  ∀ reads j,
    j < length pages → flag_at w (reads + j) = false →
    (∀ i, i < j → flag_at w (reads + i) = true) →
    Forall page_returns (take j pages) →
    pages_entered w reads pages = j.
Proof.
  induction pages as [|p pages IH]; intros reads j Hj Hstop Hflag Hall;
    [simpl in Hj; lia|].
  destruct j as [|j]; simpl.
  - rewrite Nat.add_0_r in Hstop. by rewrite Hstop.
  - rewrite (flag_at_mono w reads (reads + 0)) by (lia || apply Hflag; lia).
    simpl in Hall. apply Forall_cons in Hall as [[t ->] Hall]. f_equal.
    apply IH; [simpl in Hj; lia| |intros i Hi|done].
    + by replace (S reads + j) with (reads + S j) by lia.
    + replace (S reads + i) with (reads + S i) by lia. apply Hflag. lia.
Qed.

Lemma pages_entered_fail w pages :
  ∀ reads j msg,
    pages !! j = Some (Failed msg) → flag_at w (reads + j) = true →
    Forall page_returns (take j pages) →
    pages_entered w reads pages = S j.
Proof.
  induction pages as [|p pages IH]; intros reads j msg Hj Hflag Hall; [done|].
  simpl. rewrite (flag_at_mono w reads (reads + j)) by (lia || done).
  destruct j as [|j]; simpl in Hj, Hall.
  - by injection Hj as ->.
  - apply Forall_cons in Hall as [[t ->] Hall]. f_equal.
    eapply IH; [done| |done].
    by replace (S reads + j) with (reads + S j) by lia.
Qed.

(** C9. In the fallback extraction of a document of [n >= 1] pages, from
    any history [s] (so for the second document too, after 30 has been
    emitted), with [k] the number of pages that the loop enters: [k] is
    at most [n], at least 1 when the first read sees the flag set; it is
    [n] when every read sees the flag set and every page returns, [j + 1]
    when page [j] is the first one that raises and the flag is still set
    there, and [j] when the read before page [j] is the first one that
    sees the flag cleared. What the extraction adds to the history is,
    for the pages 0 to [k - 1] in order, the read of the flag and the
    progress [10 + i * 40 / n], and then nothing or the read that sees
    the flag cleared: so the notifications that it adds are exactly these
    [k] progress values, and each of them lies between 10 and 49. *)
Theorem fallback_progress_values w pdf_path m pages s :
  pdfminer_extract w pdf_path = Failed m →
  PdfReader w pdf_path = Returned pages →
  1 ≤ length pages →
  let n := length pages in
  let k := pages_entered w (polls s) pages in
  (∃ tail,
     (extract_text w pdf_path s).2
     = s ++ flat_map (progress_events n) (seq 0 k) ++ tail
     ∧ (tail = [] ∨ tail = [Poll false]))
  ∧ notifications (extract_text w pdf_path s).2
    = notifications s
      ++ ((λ i, progress_updated (10 + i * 40 / n)) <$> seq 0 k)
  ∧ Forall (λ i, 10 ≤ 10 + i * 40 / n ≤ 49) (seq 0 k)
  ∧ k ≤ n
  ∧ (flag_at w (polls s) = true → 1 ≤ k)
  ∧ ((∀ i, i < n → flag_at w (polls s + i) = true) →
     Forall page_returns pages → k = n)
  ∧ (∀ j msg,
       pages !! j = Some (Failed msg) → flag_at w (polls s + j) = true →
       Forall page_returns (take j pages) → k = j + 1)
  ∧ (∀ j,
       j < n → flag_at w (polls s + j) = false →
       (∀ i, i < j → flag_at w (polls s + i) = true) →
       Forall page_returns (take j pages) → k = j).
Proof.
  intros Hminer Hreader Hn n k.
  assert (∃ tail,
            (extract_text w pdf_path s).2
            = s ++ flat_map (progress_events n) (seq 0 k) ++ tail
            ∧ (tail = [] ∨ tail = [Poll false])) as Hevents.
  { rewrite extract_text_unfold, Hminer. unfold fallback. munfold.
    rewrite Hreader. munfold. cbv beta iota. fold n.
    destruct (pages_loop_events w pages n 0 "" s eq_refl)
      as (tail & Heq & Htail).
    exists tail. split; [|done].
    by destruct (pages_loop w n 0 pages "" s) as [[t|e] s']. }
  pose proof (pages_entered_le w pages (polls s)) as Hle.
  split_and!; [done| | |done| | | |].
  - destruct Hevents as (tail & -> & Htail).
    rewrite !notifications_app, notifications_progress_events.
    rewrite <-list_fmap_compose.
    destruct Htail as [-> | ->]; simpl; by rewrite app_nil_r.
  - apply Forall_forall. intros i Hi%elem_of_seq.
    apply progress_bounds. fold k in Hle. unfold n. lia.
  - intros Hflag. unfold k. destruct pages as [|p pages']; [simpl in Hn; lia|].
    simpl. rewrite Hflag. lia.
  - intros Hflag Hall. by apply pages_entered_all.
  - intros j msg Hj Hflag Hall. rewrite Nat.add_1_r.
    by eapply pages_entered_fail.
  - intros j Hj Hstop Hflag Hall. by apply pages_entered_stop.
Qed.

(** The theorem at work: the second document of a run, read page by page
    after 30 has been emitted, starts again from 10, and has one progress
    value for each of its three pages. *)
Lemma fallback_progress_values_witness :
  notifications
    (extract_text (world None) "b.pdf"
       [Emit (status_updated "Извлечение текста из a.pdf..."); Poll true;
        Emit (progress_updated 30);
        Emit (status_updated "Извлечение текста из b.pdf...")]).2
  = [status_updated "Извлечение текста из a.pdf..."; progress_updated 30;
     status_updated "Извлечение текста из b.pdf..."; progress_updated 10;
     progress_updated 23; progress_updated 36].
Proof.
  exact (proj1 (proj2
    (fallback_progress_values (world None) "b.pdf" "no text" pages_b
       [Emit (status_updated "Извлечение текста из a.pdf..."); Poll true;
        Emit (progress_updated 30);
        Emit (status_updated "Извлечение текста из b.pdf...")]
       eq_refl eq_refl ltac:(simpl; lia)))).
Defined.

(** C10. The fallback never raises [ZeroDivisionError]; for a document
    without pages it returns the empty text, with no event at all, and so
    does [extract_text] when pdfminer has failed. *)
Theorem fallback_never_divides_by_zero w pdf_path s :
  (fallback w pdf_path s).1 ≠ Raise ZeroDivisionError
  ∧ (PdfReader w pdf_path = Returned [] →
     fallback w pdf_path s = (Ok "", s)
     ∧ ∀ m, pdfminer_extract w pdf_path = Failed m →
            extract_text w pdf_path s = (Ok "", s)).
Proof.
  split.
  - destruct (fallback_cases w pdf_path s)
      as [(m & _ & ->)|(pages & k & _ & _ &
           [(-> & _)|[(-> & _)|(msg & -> & _)]])]; done.
  - intros Hr.
    assert (fallback w pdf_path s = (Ok "", s)) as Hf.
    { unfold fallback. munfold. by rewrite Hr. }
    split; [done|]. intros m Hm. by rewrite extract_text_unfold, Hm, Hf.
Qed.

(** The theorem at work on the document without pages. *)
Lemma fallback_never_divides_by_zero_witness :
  fallback (world None) "e.pdf" [] = (Ok "", [])
  ∧ ∀ m, pdfminer_extract (world None) "e.pdf" = Failed m →
         extract_text (world None) "e.pdf" [] = (Ok "", []).
Proof.
  exact (proj2 (fallback_never_divides_by_zero (world None) "e.pdf" [])
           eq_refl).
Defined.

(** The division of line 92 does raise when the divisor is zero: the
    loop run with a page count of zero over one page. *)
Example pages_loop_zero_divisor :
  pages_loop (world None) 0 0 [Returned None] "" []
  = (Raise ZeroDivisionError, [Poll true]).
Proof. reflexivity. Qed.

Lemma first_failure_unique (pages : list page) k k' msg msg' :
  pages !! k = Some (Failed msg) → Forall page_returns (take k pages) →
  pages !! k' = Some (Failed msg') → Forall page_returns (take k' pages) →
  k = k' ∧ msg = msg'.
Proof.
  intros Hk Hbefore Hk' Hbefore'.
  assert (∀ i j m, pages !! i = Some (Failed m) →
                   Forall page_returns (take j pages) → j ≤ i) as Hle.
  { intros i j m Hi Hj. destruct (decide (j ≤ i)) as [|Hlt]; [done|].
    rewrite Forall_forall in Hj.
    destruct (Hj (Failed m)) as [t [=]].
    apply list_elem_of_lookup. exists i. rewrite lookup_take_lt by lia. done. }
  assert (k = k') as <-.
  { apply Nat.le_antisymm; eauto. }
  split; [done|congruence].
Qed.

(** C1, amended. When pdfminer has failed and PyPDF2 has opened the
    document: if every page returns, be it a text or [None], the
    extraction returns and never raises, and when the flag is not cleared
    its text is the texts of the pages in order, with the empty text for
    a page that returned [None]. The extraction raises only because a
    page raised, with that page's message, and when the flag is not
    cleared it does raise on the first page that raises. *)
Theorem empty_page_recovered w pdf_path m pages s :
  pdfminer_extract w pdf_path = Failed m →
  PdfReader w pdf_path = Returned pages →
  (Forall page_returns pages →
     (∃ t s', extract_text w pdf_path s = (Ok t, s'))
     ∧ (stop_at w = None →
        ∃ s', extract_text w pdf_path s = (Ok (pages_text "" pages), s')))
  ∧ (∀ e s', extract_text w pdf_path s = (Raise e, s') →
       ∃ k msg, pages !! k = Some (Failed msg)
                ∧ Forall page_returns (take k pages)
                ∧ e = extraction_error (LibraryError msg))
  ∧ (stop_at w = None →
     ∀ k msg, pages !! k = Some (Failed msg) →
              Forall page_returns (take k pages) →
              ∃ s', extract_text w pdf_path s
                    = (Raise (extraction_error (LibraryError msg)), s')).
Proof.
  intros Hminer Hreader.
  destruct (extract_text_cases w pdf_path s)
    as [(t & Ht & _)|(m' & _ & [(m2 & Hr & _)|(pages' & k & Hr & Hk & Hc)])];
    [congruence..|].
  assert (pages' = pages) as -> by congruence. clear Hr.
  destruct Hc as [(Hx & -> & Hall)|[(Hx & Hst & ? & ?)|(msg & Hx & Hp & ?)]];
    rewrite Hx.
  - split_and!.
    + intros _. split; [by eexists _, _|]. intros _. by eexists.
    + by intros e s' [=].
    + intros _ k' msg' Hk' _. rewrite Forall_forall in Hall.
      destruct (Hall (Failed msg')) as [t [=]].
      apply list_elem_of_lookup. by exists k'.
  - split_and!.
    + intros _. split; [by eexists _, _|]. intros Hw.
      destruct Hst as (n & Hn & _). congruence.
    + by intros e s' [=].
    + intros Hw. destruct Hst as (n & Hn & _). congruence.
  - split_and!.
    + intros Hall. rewrite Forall_forall in Hall.
      destruct (Hall (Failed msg)) as [t [=]].
      apply list_elem_of_lookup. by exists k.
    + intros e s' [= <- <-]. by exists k, msg.
    + intros _ k' msg' Hk' Hb'.
      destruct (first_failure_unique pages k k' msg msg') as [_ <-];
        [done..|]. by eexists.
Qed.

(** The theorem at work: the second page of the document has no text. *)
Lemma empty_page_recovered_witness :
  ∃ s', extract_text (world None) "b.pdf" []
        = (Ok ("one" +:+ newline +:+ "three" +:+ newline +:+ "four"), s').
Proof.
  refine (proj2 (proj1 (empty_page_recovered (world None) "b.pdf" "no text"
                          pages_b [] eq_refl eq_refl) _) eq_refl).
  repeat constructor; by eexists.
Defined.

(** C1 as stated fails: the second page of the document raises, and the
    extraction raises with it. *)
Lemma page_failure_counterexample :
  ¬ page_failure_recovered (world None) "d.pdf".
Proof.
  intros H. destruct (H "no text" pages_d [] eq_refl eq_refl) as (t & s' & Hx).
  vm_compute in Hx. discriminate Hx.
Qed.

(** ** Errors *)

Lemma pages_loop_raises w pages :
  ∀ npages i text s e s',
    npages = i + length pages →
    pages_loop w npages i pages text s = (Raise e, s') →
    ∃ k msg, e = LibraryError msg ∧ pages !! k = Some (Failed msg)
             ∧ Forall page_returns (take k pages)
             ∧ flag_at w (polls s + k) = true.
Proof.
  induction pages as [|p pages IH]; intros npages i text s e s' Hn; [done|].
  simpl. munfold. rewrite is_running_flag.
  destruct (flag_at w (polls s)) eqn:Hflag; simpl; [|done].
  case_decide; [simpl in Hn; lia|]. simpl.
  destruct p as [t|msg]; simpl.
  - intros Hloop.
    apply IH in Hloop as (k & msg & -> & Hk & Hbefore & Hk_flag);
      [|simpl in Hn; lia].
    rewrite polls_snoc_emit, polls_snoc_poll in Hk_flag.
    exists (S k), msg. split_and!; [done|done| |].
    + simpl. constructor; [by eexists|done].
    + by replace (polls s + S k) with (S (polls s) + k) by lia.
  - intros [= <- <-]. exists 0, msg. rewrite Nat.add_0_r.
    split_and!; [done|done|constructor|done].
Qed.

Lemma pages_loop_fails w pages :
  ∀ npages i text s k msg,
    npages = i + length pages →
    pages !! k = Some (Failed msg) → Forall page_returns (take k pages) →
    flag_at w (polls s + k) = true →
    ∃ s', pages_loop w npages i pages text s = (Raise (LibraryError msg), s').
Proof.
  induction pages as [|p pages IH];
    intros npages i text s k msg Hn Hk Hbefore Hflag; [done|].
  simpl. munfold. rewrite is_running_flag.
  rewrite (flag_at_mono w (polls s) (polls s + k)) by (lia || done). simpl.
  case_decide; [simpl in Hn; lia|]. simpl.
  destruct k as [|k]; simpl in Hk, Hbefore.
  - injection Hk as ->. simpl. by eexists.
  - apply Forall_cons in Hbefore as [[t ->] Hbefore']. simpl.
    eapply IH; [simpl in Hn; lia|done|done|].
    rewrite polls_snoc_emit, polls_snoc_poll.
    by replace (S (polls s) + k) with (polls s + S k) by lia.
Qed.

Lemma extract_text_raises_at w pdf_path s e s' :
  extract_text w pdf_path s = (Raise e, s') →
  both_strategies_fail_at w pdf_path (polls s)
  ∧ ∃ e2, e = extraction_error e2.
Proof.
  rewrite extract_text_unfold.
  destruct (pdfminer_extract w pdf_path) as [t|m] eqn:Hminer; [done|].
  unfold fallback. munfold.
  destruct (PdfReader w pdf_path) as [pages|m2] eqn:Hreader; munfold.
  - cbv beta iota.
    destruct (pages_loop w (length pages) 0 pages "" s) as [[t|e2] s2] eqn:E;
      [done|].
    intros [= <- <-]. split; [|by eexists].
    apply pages_loop_raises in E as (k & msg & _ & ? & ? & ?); [|done].
    split; [by eexists|]. right. by exists pages, k, msg.
  - intros [= <- <-]. split; [|by eexists].
    split; [by eexists|]. left. by eexists.
Qed.

Lemma extract_text_fails_at w pdf_path s :
  both_strategies_fail_at w pdf_path (polls s) →
  ∃ e2 s', extract_text w pdf_path s = (Raise (extraction_error e2), s').
Proof.
  intros [(m & Hminer) [(m2 & Hreader)|(pages & k & msg & Hreader & Hk & ? & ?)]];
    rewrite extract_text_unfold, Hminer; unfold fallback; munfold;
    rewrite Hreader; munfold; cbv beta iota.
  - by eexists _, _.
  - destruct (pages_loop_fails w pages (length pages) 0 "" s k msg)
      as (s' & ->); [done..|]. by eexists _, _.
Qed.

Lemma both_strategies_fail_at_static w pdf_path reads :
  both_strategies_fail_at w pdf_path reads → both_strategies_fail w pdf_path.
Proof.
  intros [Hminer [Hreader|(pages & k & msg & ? & ? & _)]];
    (split; [done|]); [by left|right; by exists pages, k, msg].
Qed.

Lemma first_failure (pages : list page) :
  ∀ k msg, pages !! k = Some (Failed msg) →
    ∃ k' msg', pages !! k' = Some (Failed msg')
               ∧ Forall page_returns (take k' pages).
Proof.
  induction pages as [|p pages IH]; intros k msg Hk; [done|].
  destruct p as [t|msg0].
  - destruct k as [|k]; [done|]. simpl in Hk.
    destruct (IH k msg Hk) as (k' & msg' & ? & ?).
    exists (S k'), msg'. split; [done|]. simpl.
    constructor; [by eexists|done].
  - exists 0, msg0. split; [done|constructor].
Qed.

Lemma both_strategies_fail_never_stopped w pdf_path reads :
  stop_at w = None → both_strategies_fail w pdf_path →
  both_strategies_fail_at w pdf_path reads.
Proof.
  intros Hw [Hminer [Hreader|(pages & k & msg & Hreader & Hk)]];
    (split; [done|]); [by left|].
  destruct (first_failure pages k msg Hk) as (k' & msg' & ? & ?).
  right. exists pages, k', msg'. split_and!; [done..|].
  unfold flag_at. by rewrite Hw.
Qed.

(** A run whose body raises: what it raises, and what it emits. *)
Lemma run_body_raises w f1 f2 e s :
  run_body w f1 f2 [] = (Raise e, s) →
  ((∃ e2, e = extraction_error e2) ∨ e = RecursionError (recursion_message w))
  ∧ ∃ before,
      notifications (trace w f1 f2)
      = before ++ [error_occurred (error_message e); finished]
      ∧ Forall mild before.
Proof.
  intros Hbody.
  assert (notifications (trace w f1 f2)
          = notifications s ++ [error_occurred (error_message e); finished])
    as Htrace.
  { unfold trace. rewrite run_unfold, Hbody. cbn [snd].
    by rewrite <-app_assoc, notifications_app. }
  destruct (run_body_cases w f1 f2 _ _ Hbody)
    as [(e1 & evs1 & Hc1 & Hx1 & [= ->] & ->)
       |[(evs1 & stops & _ & _ & _ & [=] & _)
        |(t1 & evs1 & Hc1 & _ &
          [(e2 & evs2 & Hc2 & Hx2 & [= ->] & ->)
          |[(evs2 & stops & _ & _ & _ & [=] & _)
           |[(t2 & evs2 & d & _ & _ & _ & [=] & _)
            |(t2 & evs2 & Hc2 & _ & _ & [= ->] & ->)]]])]];
    (split; [by eauto|]); eexists; (split; [exact Htrace|]);
    apply calm_mild; calm_tac.
Qed.

Lemma extraction_error_in_run w f1 f2 :
  both_strategies_fail_at w f1 0
  ∨ (∃ t1 s1, extract_text w f1 (start_events w f1) = (Ok t1, s1)
              ∧ flag_at w (polls s1) = true
              ∧ both_strategies_fail_at w f2 (polls s1 + 1)) →
  ∃ before e2,
    notifications (trace w f1 f2)
    = before ++ [error_occurred (error_message (extraction_error e2));
                 finished]
    ∧ Forall mild before
    ∧ error_message (extraction_error e2) ≠ "".
Proof.
  intros Hfail.
  assert (∃ e2 s, run_body w f1 f2 [] = (Raise (extraction_error e2), s))
    as (e2 & s & Hbody).
  { unfold run_body. munfold. cbn [app]. fold (start_events w f1).
    destruct Hfail as [Hfail|(t1 & s1 & Hx1 & Hflag & Hfail)].
    - destruct (extract_text_fails_at w f1 (start_events w f1) Hfail)
        as (e2 & s' & ->). by eexists _, _.
    - rewrite Hx1, is_running_flag, Hflag. cbn [negb].
      rewrite <-!app_assoc. simpl.
      destruct (extract_text_fails_at w f2
                  (s1 ++ [Poll true; Emit (progress_updated 30);
                          Emit (status_updated (status_extracting w f2))]))
        as (e2 & s' & ->); [|by eexists _, _].
      replace (polls (s1 ++ _)) with (polls s1 + 1); [done|].
      rewrite polls_app. reflexivity. }
  destruct (run_body_raises w f1 f2 _ _ Hbody) as (_ & before & Hn & Hmild).
  by exists before, e2.
Qed.

(** C6. [extract_text] raises only when both strategies fail on its
    path: pdfminer raises, and PyPDF2 raises while it opens the document
    or on a page that the loop enters; what it raises is the exception of
    line 97. It does raise whenever they fail so; and when pdfminer
    raises and PyPDF2 does not fail so, it returns. In a run, when both
    strategies fail on the first document, or on the second one once the
    first one is read and the checkpoint after it has seen the flag set,
    the notifications are some status and progress ones, then one error
    with a message that is not empty, then [finished]: no result. So it
    is in every run whose flag is never cleared, if no strategy can read
    one of the two documents. The body of [run] raises nothing but the
    exception of an extraction and the [RecursionError] of line 49. *)
Theorem extraction_error_reported_once w f1 f2 :
  (∀ pdf_path s e s',
     extract_text w pdf_path s = (Raise e, s') →
     both_strategies_fail_at w pdf_path (polls s)
     ∧ both_strategies_fail w pdf_path
     ∧ ∃ e2, e = extraction_error e2)
  ∧ (∀ pdf_path s,
       both_strategies_fail_at w pdf_path (polls s) →
       ∃ e2 s', extract_text w pdf_path s
                = (Raise (extraction_error e2), s'))
  ∧ (∀ pdf_path s m,
       pdfminer_extract w pdf_path = Failed m →
       ¬ both_strategies_fail_at w pdf_path (polls s) →
       ∃ t s', extract_text w pdf_path s = (Ok t, s'))
  ∧ (both_strategies_fail_at w f1 0
     ∨ (∃ t1 s1, extract_text w f1 (start_events w f1) = (Ok t1, s1)
                 ∧ flag_at w (polls s1) = true
                 ∧ both_strategies_fail_at w f2 (polls s1 + 1)) →
     ∃ before e2,
       notifications (trace w f1 f2)
       = before ++ [error_occurred (error_message (extraction_error e2));
                    finished]
       ∧ Forall mild before
       ∧ error_message (extraction_error e2) ≠ "")
  ∧ (stop_at w = None →
     both_strategies_fail w f1 ∨ both_strategies_fail w f2 →
     ∃ before e2,
       notifications (trace w f1 f2)
       = before ++ [error_occurred (error_message (extraction_error e2));
                    finished]
       ∧ Forall mild before
       ∧ error_message (extraction_error e2) ≠ "")
  ∧ (∀ e s,
       run_body w f1 f2 [] = (Raise e, s) →
       (∃ e2, e = extraction_error e2)
       ∨ e = RecursionError (recursion_message w)).
Proof.
  split_and!.
  - intros pdf_path s e s' Hx.
    destruct (extract_text_raises_at w pdf_path s e s' Hx) as [Hat He].
    split_and!; [done| |done]. by eapply both_strategies_fail_at_static.
  - apply extract_text_fails_at.
  - intros pdf_path s m Hminer Hnot.
    destruct (extract_text w pdf_path s) as [[t|e] s'] eqn:Hx;
      [by eexists _, _|].
    by destruct Hnot, (extract_text_raises_at w pdf_path s e s' Hx).
  - apply extraction_error_in_run.
  - intros Hw Hfail. apply extraction_error_in_run.
    destruct (extract_text w f1 (start_events w f1)) as [[t1|e] s1] eqn:Hx1.
    + destruct Hfail as [Hfail|Hfail].
      * left. by apply both_strategies_fail_never_stopped.
      * right. exists t1, s1. split; [done|]. split.
        -- unfold flag_at. by rewrite Hw.
        -- by apply both_strategies_fail_never_stopped.
    + left. by destruct (extract_text_raises_at w f1 _ e s1 Hx1).
  - intros e s Hbody. by destruct (run_body_raises w f1 f2 e s Hbody).
Qed.

(** The theorem at work: the flag is never cleared and no library reads
    the second document. *)
Lemma extraction_error_reported_once_witness :
  ∃ before e2,
    notifications (trace (world None) "a.pdf" "c.pdf")
    = before ++ [error_occurred (error_message (extraction_error e2));
                 finished]
    ∧ Forall mild before
    ∧ error_message (extraction_error e2) ≠ "".
Proof.
  apply (proj1 (proj2 (proj2 (proj2 (proj2
           (extraction_error_reported_once (world None) "a.pdf" "c.pdf")))))
           eq_refl).
  right. split; [by exists "no text"|]. left. by exists "not a PDF".
Defined.

(** The run of the witness, and a run with room for two calls of
    [_fancy_replace] where the lines need three: line 49 raises, and the
    run reports it after 60, with no 80 and no result. *)
Example notifications_a_c :
  notifications (trace (world None) "a.pdf" "c.pdf")
  = [status_updated "Извлечение текста из a.pdf..."; progress_updated 30;
     status_updated "Извлечение текста из c.pdf...";
     error_occurred "Ошибка: Ошибка извлечения текста: not a PDF"; finished].
Proof. vm_compute. reflexivity. Qed.

(** Both strategies would fail on d.pdf, the second on its second page.
    With the flag cleared before the run starts the loop enters no page:
    nothing fails, and the run has no error. *)
Example notifications_d_cancelled :
  both_strategies_fail (world (Some 0)) "d.pdf"
  ∧ ¬ both_strategies_fail_at (world (Some 0)) "d.pdf" 0
  ∧ notifications (trace (world (Some 0)) "d.pdf" "a.pdf")
    = [status_updated "Извлечение текста из d.pdf..."; finished].
Proof.
  split_and!.
  - split; [by exists "no text"|]. right.
    by exists pages_d, 1, "page is broken".
  - intros [_ [(m2 & [=])|(pages & k & msg & _ & _ & _ & Hflag)]].
    vm_compute in Hflag. discriminate Hflag.
  - vm_compute. reflexivity.
Qed.

Example notifications_deep :
  notifications
    (trace (deep_world 2) "1.pdf" "2.pdf")
  = [status_updated "Извлечение текста из 1.pdf..."; progress_updated 30;
     status_updated "Извлечение текста из 2.pdf..."; progress_updated 60;
     status_updated "Сравнение текстов...";
     error_occurred "Ошибка: maximum recursion depth exceeded"; finished].
Proof. vm_compute. reflexivity. Qed.

(** ** The order of the notifications *)

(** An extraction that goes through with the flag never cleared. *)
Lemma extract_text_never_stopped w pdf_path s t s' :
  stop_at w = None →
  extract_text w pdf_path s = (Ok t, s') →
  ∃ evs, s' = s ++ evs
         ∧ notifications evs = progress_updated <$> fallback_progress w pdf_path.
Proof.
  intros Hw Hx. unfold fallback_progress.
  destruct (extract_text_cases w pdf_path s)
    as [(t' & -> & Hx')|(m & -> & [(m2 & -> & Hx')
                                  |(pages & k & -> & _ & Hc)])].
  - rewrite Hx' in Hx. injection Hx as <- <-. exists [].
    by rewrite app_nil_r.
  - congruence.
  - destruct Hc as [(Hx' & -> & _)|[(_ & Hst & _)|(msg & Hx' & _)]].
    + rewrite Hx' in Hx. injection Hx as <- <-. eexists. split; [done|].
      apply notifications_progress_events.
    + destruct Hst as (n & Hn & _). congruence.
    + congruence.
Qed.

(** C2, amended. In a run whose flag is never cleared and that emits no
    error, both extractions return and the notifications are, in this
    order: the status of the first extraction, the progress values of its
    pages if it reads page by page, 30, the status of the second
    extraction, the progress values of its pages if any, 60, the status
    of the comparison, 80, the status of the formatting, the result, 100,
    the status with the two line counts, and [finished]. *)
Theorem successful_run_order w f1 f2 :
  stop_at w = None →
  (∀ msg, error_occurred msg ∉ notifications (trace w f1 f2)) →
  ∃ t1 t2 d s1 s2,
    extract_text w f1 (start_events w f1) = (Ok t1, s1)
    ∧ extract_text w f2 (s1 ++ middle_events w f2) = (Ok t2, s2)
    ∧ compare_entries None None (recursion_limit w)
        (splitlines t1) (splitlines t2) = Done d
    ∧ notifications (trace w f1 f2)
      = [status_updated (status_extracting w f1)]
        ++ (progress_updated <$> fallback_progress w f1)
        ++ [progress_updated 30; status_updated (status_extracting w f2)]
        ++ (progress_updated <$> fallback_progress w f2)
        ++ [progress_updated 60; status_updated "Сравнение текстов...";
            progress_updated 80;
            status_updated "Форматирование результатов...";
            result_ready (report d); progress_updated 100;
            status_updated (status_done (splitlines t1) (splitlines t2));
            finished].
Proof.
  intros Hw Herr. unfold trace in *. rewrite run_unfold in *.
  destruct (run_body w f1 f2 []) as [r tr] eqn:E.
  assert (∀ e body, (r, tr) = (Raise e, body) → False) as Hno_error.
  { intros e body [= -> ->]. cbn [snd] in Herr.
    apply (Herr (error_message e)).
    rewrite !notifications_app. apply elem_of_app. left.
    apply elem_of_app. right. by apply list_elem_of_singleton. }
  assert (¬ is_Some (stop_at w)) as Hno_stop.
  { rewrite Hw. by intros [? [=]]. }
  destruct (run_body_cases w f1 f2 r tr E)
    as [(e & evs1 & _ & _ & -> & ->)
       |[(evs1 & stops & _ & ? & _)
        |(t1 & evs1 & _ & Hx1 &
          [(e & evs2 & _ & _ & -> & ->)
          |[(evs2 & stops & _ & ? & _)
           |[(t2 & evs2 & d & _ & Hx2 & Hd & -> &
              [(k & _ & ? & _)| ->])
            |(t2 & evs2 & _ & _ & _ & -> & ->)]]])]];
    try done; try (by edestruct Hno_error).
  destruct (extract_text_never_stopped _ _ _ _ _ Hw Hx1) as (evs1' & Heq1 & Hn1).
  destruct (extract_text_never_stopped _ _ _ _ _ Hw Hx2) as (evs2' & Heq2 & Hn2).
  apply app_inv_head in Heq1 as ->.
  rewrite !app_assoc in Heq2. apply app_inv_head in Heq2 as ->.
  exists t1, t2, d. eexists _, _. split; [exact Hx1|].
  split; [rewrite <-app_assoc; exact Hx2|]. split; [done|]. cbn [snd].
  rewrite !notifications_app, Hn1, Hn2, notifications_polls.
  simpl. repeat (progress (rewrite <-?app_assoc; simpl)). done.
Qed.

(** Two runs with the flag never cleared: pdfminer reads the first
    document and the second one is read page by page; pdfminer reads
    both. *)
Example notifications_a_b :
  notifications (trace (world None) "a.pdf" "b.pdf")
  = [status_updated "Извлечение текста из a.pdf..."; progress_updated 30;
     status_updated "Извлечение текста из b.pdf..."; progress_updated 10;
     progress_updated 23; progress_updated 36; progress_updated 60;
     status_updated "Сравнение текстов..."; progress_updated 80;
     status_updated "Форматирование результатов...";
     result_ready
       (report [mkEntry Unchanged "one"; mkEntry Removed "two";
                mkEntry Unchanged "three"; mkEntry Added "four"]);
     progress_updated 100;
     status_updated "Сравнение завершено. 3 к 3 строк."; finished].
Proof. vm_compute. reflexivity. Qed.

Example notifications_a_a :
  notifications (trace (world None) "a.pdf" "a.pdf")
  = [status_updated "Извлечение текста из a.pdf..."; progress_updated 30;
     status_updated "Извлечение текста из a.pdf..."; progress_updated 60;
     status_updated "Сравнение текстов..."; progress_updated 80;
     status_updated "Форматирование результатов...";
     result_ready
       (report [mkEntry Unchanged "one"; mkEntry Unchanged "two";
                mkEntry Unchanged "three"]);
     progress_updated 100;
     status_updated "Сравнение завершено. 3 к 3 строк."; finished].
Proof. vm_compute. reflexivity. Qed.

(** The theorem at work: the first document read by pdfminer, the second
    page by page. *)
Lemma successful_run_order_witness :
  notifications (trace (world None) "a.pdf" "b.pdf")
  = [status_updated "Извлечение текста из a.pdf..."; progress_updated 30;
     status_updated "Извлечение текста из b.pdf..."; progress_updated 10;
     progress_updated 23; progress_updated 36; progress_updated 60;
     status_updated "Сравнение текстов..."; progress_updated 80;
     status_updated "Форматирование результатов...";
     result_ready
       (report [mkEntry Unchanged "one"; mkEntry Removed "two";
                mkEntry Unchanged "three"; mkEntry Added "four"]);
     progress_updated 100;
     status_updated "Сравнение завершено. 3 к 3 строк."; finished].
Proof.
  assert (∀ msg, error_occurred msg
                 ∉ notifications (trace (world None) "a.pdf" "b.pdf"))
    as Hno_error.
  { intros msg. rewrite notifications_a_b. no_such_notification. }
  destruct (successful_run_order (world None) "a.pdf" "b.pdf" eq_refl
              Hno_error) as (t1 & t2 & d & s1 & s2 & Hx1 & Hx2 & Hd & Hn).
  vm_compute in Hx1. injection Hx1 as <- <-.
  vm_compute in Hx2. injection Hx2 as <- <-.
  vm_compute in Hd. injection Hd as <-.
  exact Hn.
Defined.

(** C2 as stated fails, in the run where pdfminer reads both documents:
    the result comes before 100 and the last status. *)
Lemma result_before_100_counterexample :
  stop_at (world None) = None
  ∧ (∀ msg, error_occurred msg
            ∉ notifications (trace (world None) "a.pdf" "a.pdf"))
  ∧ ¬ announces_result_last (trace (world None) "a.pdf" "a.pdf").
Proof.
  split; [done|]. split.
  - intros msg. rewrite notifications_a_a. no_such_notification.
  - intros (s1 & s2 & s3 & s4 & s5 & html & H).
    rewrite notifications_a_a in H. discriminate H.
Qed.

(** * Further properties *)

(** ** What a run emits *)

Section Emits.
Variable w : World.
Variable P : event → Prop.

Lemma emits_ret {X} (x : X) (Q : X → Prop) : Q x → emits P (mret x) Q.
Proof.
  intros HQ s. exists []. rewrite app_nil_r.
  split_and!; [done|constructor|by intros ? [= <-]].
Qed.

Lemma emits_raise {X} e (Q : X → Prop) : emits P (raise e) Q.
Proof. intros s. exists []. rewrite app_nil_r. by split_and!. Qed.

Lemma emits_emit n (Q : unit → Prop) :
  P (Emit n) → Q () → emits P (emit n) Q.
Proof.
  intros HP HQ s. exists [Emit n].
  split_and!; [done|by repeat constructor|by intros []].
Qed.

Lemma emits_is_running :
  P (Poll true) → P (Poll false) → emits P (is_running w) (λ _, True).
Proof.
  intros Ht Hf s.
  destruct (is_running_cases w s) as [[-> _]|[-> _]]; eexists [Poll _];
    by repeat constructor.
Qed.

Lemma emits_bind {X Y} (m : M X) (f : X → M Y) Q R :
  emits P m Q → (∀ x, Q x → emits P (f x) R) → emits P (m ≫= f) R.
Proof.
  intros Hm Hf s. destruct (Hm s) as (evs & Hevs & HP & HQ).
  unfold mbind, M_bind, bind. destruct (m s) as [[x|e] s']; simpl in *.
  - destruct (Hf x (HQ x eq_refl) s') as (evs' & Hevs' & HP' & HR).
    exists (evs ++ evs'). subst s'. rewrite Hevs', app_assoc.
    split_and!; [done|by apply Forall_app|done].
  - exists evs. by split_and!.
Qed.

Lemma emits_try_except {X} (m : M X) handler Q :
  emits P m Q → (∀ e, emits P (handler e) Q) →
  emits P (try_except m handler) Q.
Proof.
  intros Hm Hh s. destruct (Hm s) as (evs & Hevs & HP & HQ).
  unfold try_except. destruct (m s) as [[x|e] s']; simpl in *.
  - exists evs. by split_and!.
  - destruct (Hh e s') as (evs' & Hevs' & HP' & HR).
    exists (evs ++ evs'). subst s'. rewrite Hevs', app_assoc.
    split_and!; [done|by apply Forall_app|done].
Qed.

Lemma emits_try_finally {X} (m : M X) final Q :
  emits P m Q → emits P final (λ _, True) →
  emits P (try_finally m final) Q.
Proof.
  intros Hm Hf s. destruct (Hm s) as (evs & Hevs & HP & HQ).
  unfold try_finally. destruct (m s) as [r s']; simpl in *.
  destruct (Hf s') as (evs' & Hevs' & HP' & _).
  exists (evs ++ evs').
  subst s'.
  destruct (final (s ++ evs)) as [[[]|e] s'']; simpl in *; subst s'';
    rewrite app_assoc; (split_and!; [done|by apply Forall_app|done]).
Qed.

Lemma emits_call {X} (r : lib_result X) : emits P (call r) (λ _, True).
Proof. destruct r; [by apply emits_ret|apply emits_raise]. Qed.

Lemma emits_floordiv x y :
  emits P (floordiv x y) (λ q, y ≠ 0 ∧ q = x / y).
Proof.
  unfold floordiv. case_decide; [apply emits_raise|by apply emits_ret].
Qed.

Lemma emits_weaken {X} (m : M X) (Q R : X → Prop) :
  emits P m Q → (∀ x, Q x → R x) → emits P m R.
Proof.
  intros Hm HQR s. destruct (Hm s) as (evs & ? & ? & HQ).
  exists evs. split_and!; [done..|]. intros x Hx. by apply HQR, HQ.
Qed.

End Emits.

Lemma emits_pages_loop w npages pages :
  ∀ i text, npages = i + length pages →
    emits in_range (pages_loop w npages i pages text) (λ _, True).
Proof.
  induction pages as [|p pages IH]; intros i text Hn; simpl.
  - by apply emits_ret.
  - eapply emits_bind; [by apply emits_is_running|]. intros [] _; simpl.
    2:{ by apply emits_ret. }
    eapply emits_bind; [apply emits_floordiv|]. intros q [_ ->].
    eapply emits_bind.
    { apply (emits_emit _ _ (λ _, True)); [|done]. simpl in *.
      assert (i * 40 / npages < 40); [|lia].
      apply Nat.Div0.div_lt_upper_bound. lia. }
    intros _ _. eapply emits_bind; [apply emits_call|]. intros t _.
    apply IH. simpl in Hn. lia.
Qed.

Lemma emits_extract_text w pdf_path :
  emits in_range (extract_text w pdf_path) (λ _, True).
Proof.
  unfold extract_text, fallback.
  apply emits_try_except; [apply emits_call|]. intros e.
  apply emits_try_except; [|intros e2; apply emits_raise].
  eapply emits_bind; [apply emits_call|]. intros pages _.
  by apply emits_pages_loop.
Qed.

Lemma emits_format_loop w diff :
  ∀ result added removed,
    emits in_range (format_loop w diff result added removed) (λ _, True).
Proof.
  induction diff as [|line diff IH]; intros result added removed; simpl.
  - by apply emits_ret.
  - eapply emits_bind; [by apply emits_is_running|]. intros [] _; simpl.
    2:{ by apply emits_ret. }
    repeat case_match; apply IH.
Qed.

Lemma emits_differ_compare w P a b :
  emits P (differ_compare w a b) (λ _, True).
Proof.
  unfold differ_compare.
  destruct (Difflib.compare _ _ _ a b) as [diff|[]];
    [by apply emits_ret|apply emits_raise..].
Qed.

Lemma emits_run w f1 f2 : emits in_range (run w f1 f2) (λ _, True).
Proof.
  unfold run, run_body.
  apply emits_try_finally; [|by apply emits_emit].
  apply emits_try_except; [|intros e; by apply emits_emit].
  repeat first
    [ apply emits_ret; done
    | by apply emits_emit
    | eapply emits_bind;
        [ first [ apply (emits_emit _ _ (λ _, True)); [simpl; lia || done|done]
                | apply emits_extract_text
                | by apply emits_is_running
                | apply emits_differ_compare
                | apply emits_format_loop ] | intros ? _ ]
    | match goal with
      | |- emits _ (if negb ?c then _ else _) _ => destruct c; simpl
      | |- emits _ (match ?c with _ => _ end) _ => destruct c; simpl
      end ].
Qed.

(** X1. Every progress value that a run emits lies between 10 and 100,
    whatever the libraries do and whenever the flag is cleared. *)
Theorem progress_between_10_and_100 w f1 f2 :
  Forall (λ n, match n with
               | progress_updated value => 10 ≤ value ≤ 100
               | _ => True
               end) (notifications (trace w f1 f2)).
Proof.
  destruct (emits_run w f1 f2 []) as (evs & Hevs & HP & _).
  unfold trace. rewrite Hevs. simpl.
  clear Hevs. induction HP as [|e evs He _ IH]; [constructor|].
  destruct e as [b|n]; [exact IH|].
  change (notifications (Emit n :: evs)) with (n :: notifications evs).
  constructor; [|exact IH]. by destruct n.
Qed.

Lemma calm_no_outcome body :
  calm body →
  filter is_outcome (notifications body) = [] ∧ Poll false ∉ body.
Proof.
  induction 1 as [|e body He _ [IH1 IH2]]; [split; [done|apply not_elem_of_nil]|].
  split.
  - destruct e as [b|n]; [exact IH1|].
    change (notifications (Emit n :: body)) with (n :: notifications body).
    rewrite filter_cons. by destruct n.
  - rewrite elem_of_cons. intros [<-|?]; [|done]. simpl in He. done.
Qed.

(** X2. A run in which no checkpoint reads the flag cleared emits
    exactly one of the two signals [result_ready] and [error_occurred],
    once; a run in which a checkpoint reads the flag cleared emits
    neither. *)
Theorem one_outcome_unless_cancelled w f1 f2 :
  ((Poll false ∉ trace w f1 f2)
   ∧ length (filter is_outcome (notifications (trace w f1 f2))) = 1)
  ∨ (Poll false ∈ trace w f1 f2 ∧ is_Some (stop_at w)
     ∧ filter is_outcome (notifications (trace w f1 f2)) = []).
Proof.
  destruct (trace_shape w f1 f2) as (body & tail & -> & Hcalm & Htail).
  apply calm_no_outcome in Hcalm as [Hout Hpoll].
  rewrite notifications_app, filter_app, Hout. simpl.
  destruct Htail as [(e & _ & ->)|[(? & [-> | ->])|(t1 & t2 & d & ->)]].
  - left. split; [|done]. rewrite elem_of_app, !elem_of_cons, elem_of_nil.
    intros [?|[[=]|[[=]|[]]]]. done.
  - right. split_and!; [|done..]. rewrite elem_of_app, !elem_of_cons. auto.
  - right. split_and!; [|done..]. rewrite elem_of_app, !elem_of_cons. auto.
  - left. split; [|done]. rewrite elem_of_app. unfold done_events. simpl.
    rewrite !elem_of_cons, elem_of_nil.
    intros [?|[[=]|[[=]|[[=]|[[=]|[]]]]]]. done.
Qed.

(** ** The stack of the interpreter *)

(** X17. A run that has read both documents, with the flag set at both
    checkpoints, and in which [Differ] raises [RecursionError]: after the
    notifications of the two extractions come 60, the status of the
    comparison, one error with the message of the exception, and
    [finished]; there is no 80 and no result. The body of [run] raises
    [RecursionError] only so, and only when both texts have more lines
    than the stack has room for calls of [_fancy_replace]. *)
Theorem recursion_error_reported w f1 f2 :
  (∀ t1 t2 s1 s2,
     extract_text w f1 (start_events w f1) = (Ok t1, s1) →
     flag_at w (polls s1) = true →
     extract_text w f2 (s1 ++ middle_events w f2) = (Ok t2, s2) →
     flag_at w (polls s2) = true →
     compare_entries None None (recursion_limit w)
       (splitlines t1) (splitlines t2) = Raised Difflib.RecursionError →
     notifications (trace w f1 f2)
     = notifications s2
       ++ [progress_updated 60; status_updated "Сравнение текстов...";
           error_occurred ("Ошибка: " +:+ recursion_message w); finished])
  ∧ (∀ msg s,
       run_body w f1 f2 [] = (Raise (RecursionError msg), s) →
       msg = recursion_message w
       ∧ ∃ t1 t2 s1 s2,
           extract_text w f1 (start_events w f1) = (Ok t1, s1)
           ∧ extract_text w f2 (s1 ++ middle_events w f2) = (Ok t2, s2)
           ∧ compare_entries None None (recursion_limit w)
               (splitlines t1) (splitlines t2)
             = Raised Difflib.RecursionError
           ∧ recursion_limit w < length (splitlines t1)
           ∧ recursion_limit w < length (splitlines t2)).
Proof.
  split.
  - intros t1 t2 s1 s2 Hx1 Hflag1 Hx2 Hflag2 Hd.
    unfold trace. rewrite run_unfold. unfold run_body. munfold. cbn [app].
    fold (start_events w f1). rewrite Hx1, is_running_flag, Hflag1.
    cbn [negb]. rewrite <-!app_assoc.
    change ([Poll true] ++ [Emit (progress_updated 30)]
            ++ [Emit (status_updated (status_extracting w f2))])
      with (middle_events w f2).
    rewrite Hx2, is_running_flag, Hflag2. cbn [negb].
    unfold differ_compare, Difflib.compare. rewrite Hd. munfold. cbn [snd].
    rewrite !notifications_app. simpl. by rewrite <-!app_assoc.
  - intros msg s Hbody.
    destruct (run_body_cases w f1 f2 _ _ Hbody)
      as [(e1 & evs1 & _ & _ & [=] & _)
         |[(evs1 & stops & _ & _ & _ & [=] & _)
          |(t1 & evs1 & _ & Hx1 &
            [(e2 & evs2 & _ & _ & [=] & _)
            |[(evs2 & stops & _ & _ & _ & [=] & _)
             |[(t2 & evs2 & d & _ & _ & _ & [=] & _)
              |(t2 & evs2 & _ & Hx2 & Hd & [= ->] & _)]]])]].
    split; [done|]. exists t1, t2. eexists _, _.
    split; [exact Hx1|]. split; [rewrite <-app_assoc; exact Hx2|].
    split; [done|].
    destruct (compare_entries_restores None None (recursion_limit w)
                (splitlines t1) (splitlines t2))
      as [(_ & ? & ?)|(d & Hd' & _)]; [done|congruence].
Qed.

(** The theorem at work: three lines against three lines that are close
    to them, with room for two calls where they need three. *)
Lemma recursion_error_reported_witness :
  notifications
    (trace (deep_world 2) "1.pdf" "2.pdf")
  = [status_updated "Извлечение текста из 1.pdf..."; progress_updated 30;
     status_updated "Извлечение текста из 2.pdf..."; progress_updated 60;
     status_updated "Сравнение текстов...";
     error_occurred "Ошибка: maximum recursion depth exceeded"; finished].
Proof.
  refine (proj1 (recursion_error_reported (deep_world 2) "1.pdf" "2.pdf")
            ("abcd1" +:+ newline +:+ "abcd2" +:+ newline +:+ "abcd3")
            ("abcdx" +:+ newline +:+ "abcdy" +:+ newline +:+ "abcdz")
            [Emit (status_updated "Извлечение текста из 1.pdf...")]
            [Emit (status_updated "Извлечение текста из 1.pdf..."); Poll true;
             Emit (progress_updated 30);
             Emit (status_updated "Извлечение текста из 2.pdf...")]
            eq_refl eq_refl eq_refl eq_refl _).
  vm_compute. reflexivity.
Defined.

Section More_room.
Variable charjunk : option (ascii → bool).
Implicit Types a b : list string.

Lemma fancy_helper_mono a b fancy fancy' alo ahi blo bhi d :
  (∀ alo ahi blo bhi d,
     fancy alo ahi blo bhi = Done d → fancy' alo ahi blo bhi = Done d) →
  fancy_helper fancy a b alo ahi blo bhi = Done d →
  fancy_helper fancy' a b alo ahi blo bhi = Done d.
Proof. intros Hf. unfold fancy_helper. repeat case_decide; auto. Qed.

Lemma synch_mono a b fancy fancy' alo ahi blo bhi best_i best_j identical d :
  (∀ alo ahi blo bhi d,
     fancy alo ahi blo bhi = Done d → fancy' alo ahi blo bhi = Done d) →
  synch charjunk fancy a b alo ahi blo bhi best_i best_j identical = Done d →
  synch charjunk fancy' a b alo ahi blo bhi best_i best_j identical = Done d.
Proof.
  intros Hf. unfold synch.
  destruct (fancy_helper fancy a b alo best_i blo best_j) as [d1|] eqn:E1;
    [|done].
  rewrite (fancy_helper_mono _ _ _ _ _ _ _ _ _ Hf E1). simpl.
  destruct (getitem a best_i) as [aelt|]; [|done]. simpl.
  destruct (getitem b best_j) as [belt|]; [|done]. simpl.
  destruct (fancy_helper fancy a b (best_i + 1) ahi (best_j + 1) bhi)
    as [d2|] eqn:E2; [|done].
  by rewrite (fancy_helper_mono _ _ _ _ _ _ _ _ _ Hf E2).
Qed.

Lemma fancy_replace_mono a b depth :
  ∀ depth' alo ahi blo bhi d,
    depth ≤ depth' →
    fancy_replace charjunk depth a alo ahi b blo bhi = Done d →
    fancy_replace charjunk depth' a alo ahi b blo bhi = Done d.
Proof.
  induction depth as [|depth IH]; intros depth' alo ahi blo bhi d Hle; [done|].
  destruct depth' as [|depth']; [lia|]. simpl.
  destruct (search charjunk a alo ahi b blo bhi) as [[best_ratio best] eq].
  assert (∀ alo ahi blo bhi d,
            fancy_replace charjunk depth a alo ahi b blo bhi = Done d →
            fancy_replace charjunk depth' a alo ahi b blo bhi = Done d)
    as Hf by (intros; apply IH; [lia|done]).
  destruct (best_ratio <? cutoff)%float.
  - destruct eq as [[eqi eqj]|]; [|done]. by apply synch_mono.
  - destruct best as [[best_i best_j]|]; [|done]. by apply synch_mono.
Qed.

Lemma compare_opcodes_mono limit limit' a b ops :
  ∀ ds,
    limit ≤ limit' →
    mapM (compare_opcode charjunk limit a b) ops = Done ds →
    mapM (compare_opcode charjunk limit' a b) ops = Done ds.
Proof.
  induction ops as [|[[[[t i1] i2] j1] j2] ops IH]; intros ds Hle; [done|].
  rewrite !mapM_result_cons.
  destruct (compare_opcode charjunk limit a b (t, i1, i2, j1, j2))
    as [d|] eqn:Ed; [|done].
  destruct (mapM (compare_opcode charjunk limit a b) ops)
    as [ds'|] eqn:Eds; [|done].
  intros [= <-]. rewrite (IH ds') by done.
  destruct t; simpl in Ed |- *; try (by injection Ed as <-).
  by rewrite (fancy_replace_mono _ _ _ _ _ _ _ _ _ Hle Ed).
Qed.

End More_room.

(** X18. The delta does not depend on the room of the stack: when
    [compare] gives a delta with room for [limit] calls of
    [_fancy_replace], it gives the same delta with any more room; and it
    gives one as soon as the room is the number of lines of the shorter
    input. *)
Theorem more_room_same_delta (limit limit' : nat) (a b : list string) :
  (∀ d, limit ≤ limit' →
        compare_entries None None limit a b = Done d →
        compare_entries None None limit' a b = Done d)
  ∧ (length a `min` length b ≤ limit →
     ∃ d, compare_entries None None limit a b = Done d).
Proof.
  split.
  - intros d Hle. unfold compare_entries.
    destruct (mapM _ _) as [ds|] eqn:Eds; [|done]. simpl. intros [= <-].
    by rewrite (compare_opcodes_mono _ _ _ _ _ _ _ Hle Eds).
  - intros Hmin.
    destruct (compare_entries_restores None None limit a b)
      as [(_ & ? & ?)|(d & Hd & _)]; [lia|by exists d].
Qed.

(** The theorem at work on the lines that need three calls. *)
Lemma more_room_same_delta_witness :
  compare_entries None None 490 ["abcd1"; "abcd2"; "abcd3"]
                                ["abcdx"; "abcdy"; "abcdz"]
  = Done [mkEntry Removed "abcd1"; mkEntry IntralineHint ("    ^" +:+ newline);
          mkEntry Added "abcdx"; mkEntry IntralineHint ("    ^" +:+ newline);
          mkEntry Removed "abcd2"; mkEntry IntralineHint ("    ^" +:+ newline);
          mkEntry Added "abcdy"; mkEntry IntralineHint ("    ^" +:+ newline);
          mkEntry Removed "abcd3"; mkEntry IntralineHint ("    ^" +:+ newline);
          mkEntry Added "abcdz"; mkEntry IntralineHint ("    ^" +:+ newline)]
  ∧ ∃ d, compare_entries None None 3 ["abcd1"; "abcd2"; "abcd3"]
                                     ["abcdx"; "abcdy"; "abcdz"] = Done d.
Proof.
  split.
  - apply (proj1 (more_room_same_delta 3 490 _ _)); [lia|].
    vm_compute. reflexivity.
  - apply (proj2 (more_room_same_delta 3 3 _ _)). simpl. lia.
Defined.

(** ** The lines of a text *)

Lemma string_app_cons c (s1 s2 : string) :
  String c s1 +:+ s2 = String c (s1 +:+ s2).
Proof. reflexivity. Qed.

Lemma string_app_nil_r (s : string) : s +:+ "" = s.
Proof. induction s as [|c s IH]; [done|]. by rewrite string_app_cons, IH. Qed.

Lemma string_app_assoc (s1 s2 s3 : string) :
  (s1 +:+ s2) +:+ s3 = s1 +:+ (s2 +:+ s3).
Proof. induction s1 as [|c s1 IH]; [done|]. by rewrite !string_app_cons, IH. Qed.

Lemma no_linebreak_snoc line c :
  no_linebreak line → is_linebreak c = false →
  no_linebreak (line +:+ String c "").
Proof.
  unfold no_linebreak, chars. intros Hl Hc.
  induction line as [|c' line IH]; simpl in *.
  - by repeat constructor.
  - apply Forall_cons in Hl as [? ?]. constructor; [done|by apply IH].
Qed.

Lemma cr_is_linebreak c : nat_of_ascii c = 13 → is_linebreak c = true.
Proof. intros Hc. unfold is_linebreak. rewrite Hc. done. Qed.

Lemma splitlines_from_no_linebreak text :
  ∀ line, no_linebreak line → Forall no_linebreak (splitlines_from line text).
Proof.
  induction text as [|c text IH]; intros line Hline; simpl.
  - case_decide; by repeat constructor.
  - case_bool_decide as Hcr.
    + destruct text as [|c' text]; [by repeat constructor|].
      assert (Forall no_linebreak (splitlines_from "" (String c' text)))
        as Htail by (apply IH; constructor).
      case_bool_decide as Hnl; [|by constructor].
      constructor; [done|]. simpl in Htail.
      rewrite bool_decide_eq_false_2 in Htail by lia.
      assert (is_linebreak c' = true) as Hc'.
      { unfold is_linebreak. rewrite Hnl. done. }
      rewrite Hc' in Htail. by apply Forall_cons in Htail as [_ ?].
    + destruct (is_linebreak c) eqn:Hc.
      * constructor; [done|]. apply IH. constructor.
      * apply IH. by apply no_linebreak_snoc.
Qed.

(** X3. No line that [splitlines] gives holds a character that ends a
    line. *)
Theorem splitlines_no_linebreak text : Forall no_linebreak (splitlines text).
Proof. apply splitlines_from_no_linebreak. constructor. Qed.

Lemma not_linebreak_not_cr c :
  is_linebreak c = false → bool_decide (nat_of_ascii c = 13) = false.
Proof.
  intros Hc. apply bool_decide_eq_false. intros Hcr.
  by rewrite cr_is_linebreak in Hc.
Qed.

Lemma splitlines_from_line line :
  ∀ acc rest, no_linebreak line →
    splitlines_from acc (line +:+ newline +:+ rest)
    = (acc +:+ line) :: splitlines_from "" rest.
Proof.
  induction line as [|c line IH]; intros acc rest Hline.
  - by rewrite string_app_nil_r.
  - apply Forall_cons in Hline as [Hc Hline].
    change (splitlines_from acc (String c line +:+ newline +:+ rest))
      with (if bool_decide (nat_of_ascii c = 13) then
              match line +:+ newline +:+ rest with
              | String c' text'' =>
                  if bool_decide (nat_of_ascii c' = 10)
                  then acc :: splitlines_from "" text''
                  else acc :: splitlines_from "" (line +:+ newline +:+ rest)
              | EmptyString => [acc]
              end
            else if is_linebreak c
                 then acc :: splitlines_from "" (line +:+ newline +:+ rest)
                 else splitlines_from (acc +:+ String c "")
                        (line +:+ newline +:+ rest)).
    rewrite not_linebreak_not_cr, Hc by done.
    rewrite IH by done. by rewrite string_app_assoc.
Qed.

Lemma splitlines_from_last line :
  ∀ acc, no_linebreak line → acc +:+ line ≠ "" →
    splitlines_from acc line = [acc +:+ line].
Proof.
  induction line as [|c line IH]; intros acc Hline Hne; simpl.
  - rewrite string_app_nil_r in *. by case_decide.
  - apply Forall_cons in Hline as [Hc Hline].
    rewrite not_linebreak_not_cr, Hc by done.
    rewrite IH; [by rewrite string_app_assoc|done|].
    rewrite string_app_assoc. simpl. by destruct acc.
Qed.

(** X4. [splitlines] gives back the lines that a text was made of:
    lines without line breaks, each with a [\n] after it, or joined by
    [\n] when the last of them is not empty. *)
Theorem splitlines_inverts_join (lines : list string) :
  Forall no_linebreak lines →
  splitlines (unlines lines) = lines
  ∧ (last lines ≠ Some "" →
     splitlines (String.concat newline lines) = lines).
Proof.
  intros Hlines. split.
  - unfold splitlines. induction Hlines as [|line lines Hline _ IH]; [done|].
    simpl. by rewrite splitlines_from_line, IH.
  - unfold splitlines. induction Hlines as [|line lines Hline Hlines IH];
      [done|].
    intros Hlast. destruct lines as [|line' lines].
    + simpl. apply (splitlines_from_last line ""); [done|].
      intros Hline'. change (line = "") in Hline'. by subst.
    + change (String.concat newline (line :: line' :: lines))
        with (line +:+ newline +:+ String.concat newline (line' :: lines)).
      rewrite splitlines_from_line by done. simpl. f_equal. by apply IH.
Qed.

(** The theorem at work on three lines, the second one empty. *)
Lemma splitlines_inverts_join_witness :
  splitlines (String.concat newline ["one"; ""; "three"])
  = ["one"; ""; "three"].
Proof.
  apply (splitlines_inverts_join ["one"; ""; "three"]).
  - repeat constructor.
  - simpl. discriminate.
Defined.

Lemma lf_is_linebreak c : nat_of_ascii c = 10 → is_linebreak c = true.
Proof. intros Hc. unfold is_linebreak. rewrite Hc. done. Qed.

Lemma splitlines_from_lf acc c text :
  nat_of_ascii c = 10 →
  splitlines_from acc (String c text) = acc :: splitlines_from "" text.
Proof.
  intros Hc. simpl. rewrite bool_decide_eq_false_2 by lia.
  by rewrite lf_is_linebreak.
Qed.

Lemma concat_cons_empty acc (l : list string) :
  String.concat "" (acc :: l) = acc +:+ String.concat "" l.
Proof. destruct l as [|x l]; simpl; [by rewrite string_app_nil_r|done]. Qed.

Lemma concat_splitlines_from text :
  ∀ acc, String.concat "" (splitlines_from acc text)
         = acc +:+ strip_linebreaks text.
Proof.
  induction text as [|c text IH]; intros acc.
  - simpl. rewrite string_app_nil_r. case_decide; [by subst|done].
  - cbn [splitlines_from strip_linebreaks].
    case_bool_decide as Hcr.
    + rewrite (cr_is_linebreak c Hcr).
      destruct text as [|c' text]; [by rewrite string_app_nil_r|].
      specialize (IH "").
      case_bool_decide as Hnl.
      * rewrite splitlines_from_lf, concat_cons_empty in IH by done.
        rewrite concat_cons_empty. f_equal. exact IH.
      * rewrite concat_cons_empty. f_equal. exact IH.
    + destruct (is_linebreak c) eqn:Hc.
      * rewrite concat_cons_empty. f_equal. apply (IH "").
      * rewrite IH. by rewrite string_app_assoc.
Qed.

(** X5. The lines that [splitlines] gives, put end to end, are the
    text without its line breaks: no other character is lost or added. *)
Theorem splitlines_keeps_characters text :
  String.concat "" (splitlines text) = strip_linebreaks text.
Proof. apply concat_splitlines_from. Qed.

(** ** The delta of special inputs *)

Section No_match.
Context `{Countable A}.
Variable isjunk : option (A → bool).
Variable autojunk : bool.
Implicit Types a b : list A.

Lemma flm_nil_l b bhi :
  find_longest_match isjunk autojunk [] b 0 0 0 bhi = (0, 0, 0).
Proof. reflexivity. Qed.

Lemma chain_b_nil : chain_b isjunk autojunk [] = ∅.
Proof. unfold chain_b, chain_b_all. simpl. apply map_filter_empty. Qed.

Lemma flm_inner_nil i blo j2len new best js :
  flm_inner i blo 0 j2len js new best = (new, best).
Proof.
  revert new best. induction js as [|j js IH]; intros new best; simpl; [done|].
  case_decide; [apply IH|]. try case_decide; [done|lia..].
Qed.

Lemma flm_nil_r a ahi :
  find_longest_match isjunk autojunk a [] 0 ahi 0 0 = (0, 0, 0).
Proof.
  unfold find_longest_match.
  assert (∀ l st, (foldl (flm_outer a (chain_b isjunk autojunk []) 0 0) st l).2 = st.2) as Hfold.
  { induction l as [|i l IH]; intros st; [done|]. simpl. rewrite IH.
    unfold flm_outer. by rewrite flm_inner_nil. }
  rewrite Hfold. simpl. unfold extend. simpl.
  by destruct ahi, a.
Qed.

Lemma matching_blocks_loop_done a b fuel blocks :
  matching_blocks_loop isjunk autojunk a b fuel [] blocks = Some blocks.
Proof. by destruct fuel. Qed.

Lemma get_matching_blocks_no_match a b i j :
  find_longest_match isjunk autojunk a b 0 (length a) 0 (length b) = (i, j, 0) →
  get_matching_blocks isjunk autojunk a b = [(length a, length b, 0)].
Proof.
  intros Hflm. unfold get_matching_blocks, found_blocks, matching_blocks_fuel.
  replace (2 * length a + 1) with (S (2 * length a)) by lia.
  simpl. rewrite Hflm. simpl. by rewrite matching_blocks_loop_done.
Qed.

Lemma get_opcodes_nil_l b :
  get_opcodes isjunk autojunk [] b
  = match b with [] => [] | _ => [(insert, 0, 0, 0, length b)] end.
Proof.
  unfold get_opcodes.
  rewrite (get_matching_blocks_no_match [] b 0 0) by apply flm_nil_l.
  by destruct b.
Qed.

Lemma get_opcodes_nil_r a :
  get_opcodes isjunk autojunk a []
  = match a with [] => [] | _ => [(delete, 0, length a, 0, 0)] end.
Proof.
  unfold get_opcodes.
  rewrite (get_matching_blocks_no_match a [] 0 0) by apply flm_nil_r.
  by destruct a.
Qed.
End No_match.

Lemma slice_all {X} (x : list X) : slice x 0 (length x) = x.
Proof. unfold slice. by rewrite Nat.sub_0_r, drop_0, firstn_all. Qed.

Lemma styled_plain k (lines : list string) :
  k ≠ IntralineHint →
  styled (mkEntry k <$> lines)
  = (λ line, span (color k) (kind_tag k +:+ line)) <$> lines.
Proof.
  intros Hk. unfold styled.
  induction lines as [|line lines IH]; [done|].
  rewrite fmap_cons, filter_cons. rewrite decide_True by done.
  rewrite !fmap_cons. by rewrite IH.
Qed.

Lemma count_plain k k' (lines : list string) :
  count k' (mkEntry k <$> lines)
  = if decide (k = k') then length lines else 0.
Proof.
  induction lines as [|line lines IH]; [by case_decide|].
  rewrite fmap_cons, count_cons, IH. simpl. by case_decide.
Qed.

Lemma report_plain k (lines : list string) :
  k ≠ IntralineHint →
  report (mkEntry k <$> lines)
  = String.concat "<br>"
      (((λ line, span (color k) (kind_tag k +:+ line)) <$> lines)
       ++ [summary (if decide (k = Added) then length lines else 0)
                   (if decide (k = Removed) then length lines else 0)]).
Proof.
  intros Hk. unfold report. by rewrite styled_plain, !count_plain.
Qed.

(** X6. Against no lines at all, every line is Added, or every line is
    Removed when the second text is the one without lines, whatever room
    the stack has; the report shows them all in green, or in red, and
    counts them. *)
Theorem compare_with_nothing w (lines : list string) s :
  compare_entries None None (recursion_limit w) [] lines
  = Done (mkEntry Added <$> lines)
  ∧ compare_entries None None (recursion_limit w) lines []
    = Done (mkEntry Removed <$> lines)
  ∧ differ_compare w [] lines s = (Ok ((λ line, "+ " +:+ line) <$> lines), s)
  ∧ differ_compare w lines [] s = (Ok ((λ line, "- " +:+ line) <$> lines), s)
  ∧ report (mkEntry Added <$> lines)
    = String.concat "<br>"
        (((λ line, span "green" ("+ " +:+ line)) <$> lines)
         ++ [summary (length lines) 0])
  ∧ report (mkEntry Removed <$> lines)
    = String.concat "<br>"
        (((λ line, span "red" ("- " +:+ line)) <$> lines)
         ++ [summary 0 (length lines)]).
Proof.
  assert (compare_entries None None (recursion_limit w) [] lines
          = Done (mkEntry Added <$> lines)
          ∧ compare_entries None None (recursion_limit w) lines []
            = Done (mkEntry Removed <$> lines))
    as [Hadd Hrem].
  { unfold compare_entries. rewrite get_opcodes_nil_l, get_opcodes_nil_r.
    destruct lines as [|line lines]; [done|].
    split; cbn -[slice length]; unfold dump; by rewrite app_nil_r, slice_all. }
  split_and!; [done|done|..].
  - unfold differ_compare, Difflib.compare. rewrite Hadd. simpl.
    by rewrite <-list_fmap_compose.
  - unfold differ_compare, Difflib.compare. rewrite Hrem. simpl.
    by rewrite <-list_fmap_compose.
  - by rewrite report_plain.
  - by rewrite report_plain.
Qed.

Section B2j_facts.
Context `{Countable A}.
Variable isjunk : option (A → bool).
Variable autojunk : bool.
Implicit Types a b : list A.

Lemma chain_b_all_snoc b y :
  chain_b_all (b ++ [y]) = b2j_append (chain_b_all b) (length b, y).
Proof.
  unfold chain_b_all. rewrite imap_app, foldl_app. simpl.
  by rewrite Nat.add_0_r.
Qed.

(** The list that [b2j] keeps for an element holds the places of the
    element in [b], in ascending order. *)
Lemma chain_b_all_sorted b x :
  match chain_b_all b !! x with
  | Some js => StronglySorted lt js ∧ ∀ j, j ∈ js ↔ b !! j = Some x
  | None => x ∉ b
  end.
Proof.
  revert x. induction b as [|y b IH] using rev_ind; intros x.
  - unfold chain_b_all. simpl. rewrite lookup_empty. apply not_elem_of_nil.
  - rewrite chain_b_all_snoc. unfold b2j_append. simpl.
    specialize (IH x).
    destruct (decide (y = x)) as [->|Hne].
    + rewrite lookup_insert_eq.
      destruct (chain_b_all b !! x) as [js|]; simpl.
      * destruct IH as [Hs Hjs]. split.
        -- apply StronglySorted_app_2; [|done|by repeat constructor].
           intros j1 j2 Hj1 ->%list_elem_of_singleton.
           apply Hjs in Hj1. by eapply lookup_lt_Some.
        -- intros j. rewrite elem_of_app, list_elem_of_singleton, Hjs.
           split.
           ++ intros [Hj| ->]; [|by rewrite list_lookup_middle].
              rewrite lookup_app_l; [done|by eapply lookup_lt_Some].
           ++ intros Hj. destruct (decide (j = length b)) as [|Hjn]; [by right|].
              left. rewrite lookup_app_l in Hj; [done|].
              apply lookup_lt_Some in Hj. rewrite length_app in Hj. simpl in Hj.
              lia.
      * split; [by repeat constructor|]. intros j.
        rewrite list_elem_of_singleton. split.
        -- intros ->. by rewrite list_lookup_middle.
        -- intros Hj. destruct (decide (j = length b)) as [|Hjn]; [done|].
           rewrite lookup_app_l in Hj.
           ++ destruct IH. apply list_elem_of_lookup. by exists j.
           ++ apply lookup_lt_Some in Hj. rewrite length_app in Hj.
              simpl in Hj. lia.
    + rewrite lookup_insert_ne by done.
      assert (∀ j, (b ++ [y]) !! j = Some x ↔ b !! j = Some x) as Hiff.
      { intros j. destruct (decide (j < length b)).
        - by rewrite lookup_app_l.
        - rewrite lookup_app_r by lia. rewrite (lookup_ge_None_2 b) by lia.
          destruct (j - length b) as [|m]; simpl; [|done].
          split; [congruence|done]. }
      destruct (chain_b_all b !! x) as [js|].
      * destruct IH as [Hs Hjs]. split; [done|]. intros j.
        by rewrite Hiff.
      * rewrite not_elem_of_app, list_elem_of_singleton. split; [done|congruence].
Qed.

Lemma chain_b_sorted b x js :
  chain_b isjunk autojunk b !! x = Some js →
  StronglySorted lt js ∧ ∀ j, j ∈ js ↔ b !! j = Some x.
Proof.
  unfold chain_b. intros [Hx _]%map_lookup_filter_Some.
  pose proof (chain_b_all_sorted b x) as Hs. by rewrite Hx in Hs.
Qed.

Lemma sorted_split (js : list nat) i :
  StronglySorted lt js → i ∈ js →
  ∃ l1 l2, js = l1 ++ i :: l2 ∧ (∀ j, j ∈ l1 → j < i) ∧ (∀ j, j ∈ l2 → i < j).
Proof.
  intros Hs Hi. apply list_elem_of_split in Hi as (l1 & l2 & ->).
  exists l1, l2. split; [done|].
  apply StronglySorted_app in Hs as (H12 & _ & Hs2).
  split.
  - intros j Hj. apply H12; [done|]. apply elem_of_cons. by left.
  - intros j Hj. apply StronglySorted_inv in Hs2 as [_ Hall].
    rewrite Forall_forall in Hall. by apply Hall.
Qed.

Lemma flm_inner_app i blo bhi j2len l1 l2 :
  (∀ j, j ∈ l1 → j < bhi) →
  ∀ new best,
    flm_inner i blo bhi j2len (l1 ++ l2) new best
    = flm_inner i blo bhi j2len l2
        (flm_inner i blo bhi j2len l1 new best).1
        (flm_inner i blo bhi j2len l1 new best).2.
Proof.
  induction l1 as [|j l1 IH]; intros Hl1 new best; simpl; [done|].
  assert (∀ j0, j0 ∈ l1 → j0 < bhi) as Hl1'.
  { intros j0 ?. apply Hl1. apply elem_of_cons. by right. }
  case_decide; [by apply IH|].
  case_decide as Hge; [|by apply IH].
  specialize (Hl1 j). rewrite elem_of_cons in Hl1. lia.
Qed.

(** A stretch of the inner loop in which no match is longer than the
    best one: the best one stays. *)
Lemma flm_inner_quiet i blo bhi j2len l :
  ∀ new best,
    (∀ j, j ∈ l → blo ≤ j → j2lenget j2len j + 1 ≤ best.2) →
    (flm_inner i blo bhi j2len l new best).2 = best
    ∧ (∀ j, j ∉ l → (flm_inner i blo bhi j2len l new best).1 !! j = new !! j)
    ∧ (∀ j k, (flm_inner i blo bhi j2len l new best).1 !! j = Some k →
         new !! j = Some k
         ∨ (j ∈ l ∧ blo ≤ j ∧ k = j2lenget j2len j + 1)).
Proof.
  induction l as [|j l IH]; intros new best Hq; simpl.
  { split_and!; [done|done|]. intros j k ?. by left. }
  assert (∀ j0, j0 ∈ l → blo ≤ j0 → j2lenget j2len j0 + 1 ≤ best.2) as Hq'.
  { intros j0 ?. apply Hq. apply elem_of_cons. by right. }
  case_decide as Hlt.
  { destruct (IH new best Hq') as (-> & Hout & Hin). split_and!; [done|..].
    - intros j0 [? ?]%not_elem_of_cons. by apply Hout.
    - intros j0 k Hk. destruct (Hin _ _ Hk) as [?|(? & ? & ?)]; [by left|].
      right. split_and!; [|done..]. apply elem_of_cons. by right. }
  case_decide as Hge.
  { split_and!; [done|done|]. intros j0 k ?. by left. }
  assert (j2lenget j2len j + 1 ≤ best.2) as Hj.
  { apply Hq; [|lia]. apply elem_of_cons. by left. }
  rewrite decide_False by lia.
  destruct (IH (<[j:=j2lenget j2len j + 1]> new) best Hq') as (-> & Hout & Hin).
  split_and!; [done|..].
  - intros j0 [? ?]%not_elem_of_cons. rewrite Hout by done.
    by rewrite lookup_insert_ne.
  - intros j0 k Hk. destruct (Hin _ _ Hk) as [Hk'|(? & ? & ?)].
    + destruct (decide (j = j0)) as [<-|].
      * rewrite lookup_insert_eq in Hk'. injection Hk' as <-.
        right. split_and!; [|lia|done]. apply elem_of_cons. by left.
      * rewrite lookup_insert_ne in Hk' by done. by left.
    + right. split_and!; [|done..]. apply elem_of_cons. by right.
Qed.

End B2j_facts.

Section Diagonal.
Context `{Countable A}.
Variable isjunk : option (A → bool).
Variable autojunk : bool.
Variable a : list A.
Variables lo hi : nat.
Hypothesis Hhi : hi ≤ length a.

Variable b2j : gmap A (list nat).
Hypothesis Hb2j : b2j = chain_b isjunk autojunk a.

Lemma diagonal_run_0 i k : diagonal_run b2j a lo i k → i < lo → k = 0.
Proof. intros [? _] ?. lia. Qed.

Lemma diagonal_run_not_indexed i k x :
  diagonal_run b2j a lo i k → a !! i = Some x → b2j !! x = None → k = 0.
Proof.
  intros [_ Hk] Hx Hnone. destruct k as [|k]; [done|].
  destruct (Hk 0) as (y & Hy & [js Hjs]); [lia|].
  rewrite Nat.sub_0_r in Hy. congruence.
Qed.

Lemma diagonal_run_pred i k : diagonal_run b2j a lo i (S (S k)) → 1 ≤ i ∧ diagonal_run b2j a lo (i - 1) (S k).
Proof.
  intros [Hlen Hk]. split; [lia|]. split; [lia|].
  intros t Ht. destruct (Hk (S t)) as (x & Hx & ?); [lia|].
  exists x. split; [|done]. by replace (i - 1 - t) with (i - S t) by lia.
Qed.

(** One more match after the diagonal_run b2j a lo that [j2len] holds for the place before. *)
Lemma diagonal_run_step i j j2len x :
  (∀ j k, j2len !! j = Some k → 1 ≤ i ∧ diagonal_run b2j a lo j k ∧ diagonal_run b2j a lo (i - 1) k) →
  lo ≤ i → lo ≤ j → a !! i = Some x → a !! j = Some x → is_Some (b2j !! x) →
  diagonal_run b2j a lo j (j2lenget j2len j + 1) ∧ diagonal_run b2j a lo i (j2lenget j2len j + 1).
Proof.
  intros Hj2 Hi Hj Hai Haj Hx.
  assert (∀ p, lo ≤ p → a !! p = Some x → diagonal_run b2j a lo p 1) as Hone.
  { intros p ? ?. split; [lia|]. intros t ?. exists x.
    by replace (p - t) with p by lia. }
  assert (∀ p k, 1 ≤ p → a !! p = Some x → diagonal_run b2j a lo (p - 1) k → diagonal_run b2j a lo p (k + 1))
    as Hmore.
  { intros p k ? ? [? Hk]. split; [lia|]. intros [|t] ?.
    - exists x. by rewrite Nat.sub_0_r.
    - destruct (Hk t) as (y & ? & ?); [lia|]. exists y.
      by replace (p - S t) with (p - 1 - t) by lia. }
  unfold j2lenget. destruct j as [|j']; [by auto|].
  destruct (j2len !! j') as [k0|] eqn:E; simpl; [|by auto].
  destruct (Hj2 _ _ E) as (? & Hr1 & Hr2). split.
  - apply Hmore; [lia|done|]. by replace (S j' - 1) with j' by lia.
  - by apply Hmore.
Qed.

Lemma diagonal_step i st :
  lo ≤ i < hi → diagonal_inv b2j a lo i st →
  diagonal_inv b2j a lo (i + 1) (flm_outer a b2j lo hi st i).
Proof.
  intros Hi (Hd & Hbest & Hj2 & Hdiag). destruct st as [j2len best].
  simpl in *. unfold flm_outer, diagonal_inv. simpl.
  destruct (lookup_lt_is_Some_2 a i) as [x Hx]; [lia|]. rewrite Hx. simpl.
  replace (i + 1 - 1) with i by lia.
  destruct (b2j !! x) as [js|] eqn:Ejs; simpl.
  2:{ (* the element is not kept in b2j *)
    split_and!; simpl; [done| |by intros j k; rewrite lookup_empty|].
    - intros i' k ? Hr. destruct (decide (i' = i)) as [->|]; [|apply (Hbest i'); [lia|done]].
      rewrite (diagonal_run_not_indexed i k x); [lia|done..].
    - intros k _ Hr. rewrite (diagonal_run_not_indexed i k x); [lia|done..]. }
  destruct (chain_b_sorted isjunk autojunk a x js) as [Hsorted Hjs];
    [by rewrite <-Hb2j|].
  destruct (sorted_split js i Hsorted) as (l1 & l2 & -> & Hl1 & Hl2);
    [by apply Hjs|].
  assert (∀ j, j ∈ l1 ++ i :: l2 → lo ≤ j →
            diagonal_run b2j a lo j (j2lenget j2len j + 1) ∧ diagonal_run b2j a lo i (j2lenget j2len j + 1))
    as Hstep.
  { intros j Hj ?. apply (diagonal_run_step i j j2len x); [done|lia|done|done| |by eexists].
    by apply Hjs. }
  assert (∀ k, diagonal_run b2j a lo i k → k ≤ j2lenget j2len i + 1) as Hki.
  { intros [|[|k]] Hr; [lia..|]. apply diagonal_run_pred in Hr as [? Hr].
    apply Hdiag in Hr; [|done]. unfold j2lenget.
    destruct i as [|i']; [lia|]. replace (S i' - 1) with i' in Hr by lia. lia. }
  rewrite flm_inner_app by (intros j ?%Hl1; lia).
  destruct (flm_inner_quiet i lo hi j2len l1 ∅ best) as (Hb1 & Hout1 & Hin1).
  { intros j Hj ?. apply Hbest with j; [split; [done|by apply Hl1]|].
    apply Hstep; [|done]. apply elem_of_app. by left. }
  rewrite Hb1. cbn [flm_inner].
  rewrite decide_False by lia. rewrite decide_False by lia.
  set (ki := j2lenget j2len i + 1) in *.
  set (new1 := (flm_inner i lo hi j2len l1 ∅ best).1) in *.
  match goal with
  | |- context [flm_inner _ _ _ _ l2 _ ?b] => set (best2 := b)
  end.
  assert (best2.1.1 = best2.1.2 ∧ ki ≤ best2.2 ∧ best.2 ≤ best2.2)
    as (Hd2 & Hki2 & Hmono).
  { unfold best2. case_decide; simpl; [lia|]. split_and!; [done|lia|lia]. }
  destruct (flm_inner_quiet i lo hi j2len l2 (<[i:=ki]> new1) best2)
    as (Hb2 & Hout2 & Hin2).
  { intros j Hj ?. destruct (Hstep j) as [_ Hr]; [|done|].
    - apply elem_of_app. right. apply elem_of_cons. by right.
    - apply Hki in Hr. fold ki in Hr. lia. }
  rewrite Hb2. split_and!; cbn [fst snd]; [done|..].
  - intros i' k ? Hr. destruct (decide (i' = i)) as [->|].
    + apply Hki in Hr. lia.
    + assert (k ≤ best.2) by (apply (Hbest i'); [lia|done]). lia.
  - intros j k Hk. split; [lia|].
    destruct (Hin2 _ _ Hk) as [Hk'|(Hj & ? & ->)].
    + destruct (decide (i = j)) as [<-|].
      * rewrite lookup_insert_eq in Hk'. injection Hk' as <-.
        apply Hstep; [|lia]. apply elem_of_app. right. apply elem_of_cons.
        by left.
      * rewrite lookup_insert_ne in Hk' by done.
        destruct (Hin1 _ _ Hk') as [Hk''|(Hj & ? & ->)].
        -- by rewrite lookup_empty in Hk''.
        -- apply Hstep; [|done]. apply elem_of_app. by left.
    + apply Hstep; [|done]. apply elem_of_app. right. apply elem_of_cons.
      by right.
  - intros k _ Hr. rewrite Hout2.
    + rewrite lookup_insert_eq. simpl. by apply Hki.
    + intros Hin. apply Hl2 in Hin. lia.
Qed.

Lemma flm_fold_diagonal :
  lo ≤ hi →
  let best := (foldl (flm_outer a b2j lo hi) (∅, (lo, lo, 0))
                     (seq lo (hi - lo))).2 in
  best.1.1 = best.1.2.
Proof.
  intros Hle.
  cut (diagonal_inv b2j a lo (lo + (hi - lo))
         (foldl (flm_outer a b2j lo hi) (∅, (lo, lo, 0)) (seq lo (hi - lo)))).
  { by intros [? _]. }
  apply (foldl_seq_inv (diagonal_inv b2j a lo)).
  - unfold diagonal_inv. split_and!; simpl; [done| |by intros j k; rewrite lookup_empty|].
    + intros i' k ?. lia.
    + intros k ? [? _]. lia.
  - intros i st ? Hinv. apply diagonal_step; [lia|done].
Qed.

End Diagonal.

Section Identical.
Context `{Countable A}.
Variable autojunk : bool.
Implicit Types a : list A.

Lemma bjunk_None (b : list A) x : bool_decide (x ∈ bjunk None b) = false.
Proof.
  apply bool_decide_eq_false. unfold bjunk. rewrite elem_of_filter.
  by intros [? _].
Qed.

Lemma extend_left_diagonal (P : A → bool) a lo :
  (∀ x, P x = true) →
  ∀ i k, lo ≤ i ≤ length a →
    extend_left P a a lo lo i i k = (lo, lo, k + (i - lo)).
Proof.
  intros HP. induction i as [|i IH]; intros k Hi; simpl.
  - replace lo with 0 by lia. by rewrite Nat.add_0_r.
  - destruct (lookup_lt_is_Some_2 a i) as [x Hx]; [lia|]. rewrite Hx.
    rewrite HP, (bool_decide_eq_true_2 (x = x)) by done.
    case_bool_decide; simpl.
    + rewrite IH by lia. f_equal. lia.
    + replace lo with (S i) by lia. f_equal. lia.
Qed.

Lemma extend_right_diagonal (P : A → bool) a hi i :
  (∀ x, P x = true) → hi ≤ length a →
  ∀ n k, i + k + n = hi → extend_right P a a hi i i k n = k + n.
Proof.
  intros HP Hhi. induction n as [|n IH]; intros k Hn; simpl; [lia|].
  destruct (lookup_lt_is_Some_2 a (i + k)) as [x Hx]; [lia|]. rewrite Hx.
  rewrite HP, (bool_decide_eq_true_2 (x = x)) by done.
  rewrite bool_decide_eq_true_2 by lia. simpl.
  rewrite IH by lia. lia.
Qed.

Lemma extend_false (P : A → bool) a b alo ahi blo bhi best :
  (∀ x, P x = false) → extend P a b alo ahi blo bhi best = best.
Proof.
  intros HP. destruct best as [[i j] k]. unfold extend. simpl.
  assert (extend_left P a b alo blo i j k = (i, j, k)) as ->.
  { destruct i as [|i], j as [|j]; simpl; try done.
    destruct (a !! i), (b !! j); try done.
    by rewrite HP, andb_false_r. }
  f_equal. destruct (ahi - (i + k)) as [|n]; simpl; [done|].
  destruct (a !! (i + k)), (b !! (j + k)); try done.
  by rewrite HP, andb_false_r.
Qed.

Lemma find_longest_match_diagonal a lo hi :
  lo ≤ hi ≤ length a →
  find_longest_match None autojunk a a lo hi lo hi = (lo, lo, hi - lo).
Proof.
  intros Hhi. unfold find_longest_match.
  rewrite (extend_false (λ x, bool_decide (x ∈ bjunk None a)))
    by apply bjunk_None.
  pose proof (flm_fold_diagonal None autojunk a lo hi ltac:(lia) _ eq_refl
                ltac:(lia)) as Hd.
  pose proof (flm_outer_ok None autojunk a a lo hi lo hi ltac:(lia) ltac:(lia))
    as Hg.
  simpl in Hd, Hg.
  destruct (foldl _ _ _).2 as [[i j] k]. simpl in Hd. subst j.
  destruct Hg as (? & ? & _). simpl in *.
  unfold extend. simpl.
  rewrite extend_left_diagonal
    by first [lia | by intros x; rewrite bjunk_None].
  rewrite (extend_right_diagonal _ a hi lo);
    [f_equal; lia|by intros x; rewrite bjunk_None|lia..].
Qed.

Lemma get_opcodes_identical a :
  get_opcodes None autojunk a a
  = match a with [] => [] | _ => [(equal, 0, length a, 0, length a)] end.
Proof.
  unfold get_opcodes, get_matching_blocks, found_blocks, matching_blocks_fuel.
  replace (2 * length a + 1) with (S (2 * length a)) by lia.
  cbn [matching_blocks_loop].
  rewrite find_longest_match_diagonal by lia. rewrite Nat.sub_0_r.
  destruct a as [|x a]; [done|].
  rewrite decide_False by done.
  rewrite decide_False by lia. rewrite decide_False by lia.
  rewrite matching_blocks_loop_done. simpl. unfold opcodes_of. simpl.
  repeat case_decide; try lia. done.
Qed.

End Identical.

Lemma compare_entries_identical limit (lines : list string) :
  compare_entries None None limit lines lines
  = Done (mkEntry Unchanged <$> lines).
Proof.
  unfold compare_entries. rewrite get_opcodes_identical.
  destruct lines as [|line lines]; [done|].
  cbn -[slice length]. unfold dump. by rewrite app_nil_r, slice_all.
Qed.

(** X7. A list of lines compared with itself: the whole delta is
    Unchanged, each line once and in order, whatever the number of lines
    (from 200 lines on [SequenceMatcher] leaves the frequent ones out of
    its index) and whatever room the stack has; the report shows every
    line in gray and counts no addition and no deletion. *)
Theorem compare_with_itself w (lines : list string) s :
  compare_entries None None (recursion_limit w) lines lines
  = Done (mkEntry Unchanged <$> lines)
  ∧ differ_compare w lines lines s
    = (Ok ((λ line, "  " +:+ line) <$> lines), s)
  ∧ report (mkEntry Unchanged <$> lines)
    = String.concat "<br>"
        (((λ line, span "gray" ("  " +:+ line)) <$> lines)
         ++ [summary 0 0]).
Proof.
  split_and!; [apply compare_entries_identical| |by rewrite report_plain].
  unfold differ_compare, Difflib.compare.
  rewrite compare_entries_identical. simpl.
  by rewrite <-list_fmap_compose.
Qed.

(** An extraction that goes through with no read of a cleared flag
    gives the text that the libraries hold for the path, whatever the
    history. *)
Lemma extract_text_calm w pdf_path s t evs :
  extract_text w pdf_path s = (Ok t, s ++ evs) → calm evs →
  t = document_text w pdf_path.
Proof.
  intros Hx Hcalm. unfold document_text.
  destruct (extract_text_cases w pdf_path s)
    as [(t0 & -> & Hx')|(m & -> & [(m2 & -> & Hx')
                                  |(pages & k & -> & _ & Hc)])].
  - congruence.
  - congruence.
  - destruct Hc as [(Hx' & _)|[(Hx' & _)|(msg & Hx' & _)]];
      [congruence| |congruence].
    rewrite Hx' in Hx. injection Hx as _ Heq.
    apply app_inv_head in Heq. subst evs.
    apply Forall_app in Hcalm as [_ Hcalm].
    by apply Forall_cons in Hcalm as [? _].
Qed.

(** X15. A document compared with itself, whatever the libraries make
    of it and with the flag cleared at any time: if the run has a report,
    the report is, joined by [<br>], every line of the text of the
    document in gray, in order, and the summary with no addition and no
    deletion. *)
Theorem same_document_no_difference w pdf_path html :
  result_ready html ∈ notifications (trace w pdf_path pdf_path) →
  html = String.concat "<br>"
           (((λ line, span "gray" ("  " +:+ line))
               <$> splitlines (document_text w pdf_path))
            ++ [summary 0 0]).
Proof.
  unfold trace. rewrite run_unfold.
  destruct (run_body w pdf_path pdf_path []) as [r tr] eqn:E.
  destruct (run_body_cases w pdf_path pdf_path r tr E)
    as [(e & evs1 & Hc1 & _ & -> & ->)
       |[(evs1 & stops & Hc1 & _ & Hstops & -> & ->)
        |(t1 & evs1 & Hc1 & Hx1 &
          [(e & evs2 & Hc2 & _ & -> & ->)
          |[(evs2 & stops & Hc2 & _ & Hstops & -> & ->)
           |[(t2 & evs2 & d & Hc2 & Hx2 & Hd & -> &
              [(k & _ & _ & ->)| ->])
            |(t2 & evs2 & Hc2 & _ & _ & -> & ->)]]])]]; cbn [snd];
    rewrite ?notifications_app; intros Hin;
    repeat (apply elem_of_app in Hin as [Hin|Hin]);
    try (by eapply calm_no_result in Hin;
         first [apply calm_start|apply calm_middle|apply calm_compare
               |apply calm_comparing|apply calm_replicate|done]);
    try (by destruct Hstops as [-> | ->];
         repeat (apply elem_of_cons in Hin as [Hin|Hin]);
         try apply elem_of_nil in Hin).
  all: try (by repeat (apply elem_of_cons in Hin as [Hin|Hin]);
            try apply elem_of_nil in Hin).
  assert (html = report d) as ->.
  { unfold done_events in Hin. simpl in Hin.
    repeat (apply elem_of_cons in Hin as [Hin|Hin]); try done.
    - by injection Hin.
    - by apply elem_of_nil in Hin. }
  replace (start_events w pdf_path ++ evs1 ++ middle_events w pdf_path ++ evs2)
    with ((start_events w pdf_path ++ evs1 ++ middle_events w pdf_path)
          ++ evs2) in Hx2 by (by rewrite <-!app_assoc).
  apply extract_text_calm in Hx1 as ->; [|done].
  apply extract_text_calm in Hx2 as ->; [|done].
  rewrite compare_entries_identical in Hd. injection Hd as <-.
  by rewrite report_plain.
Qed.

(** The theorem at work on the document that pdfminer reads. *)
Lemma same_document_no_difference_witness :
  report [mkEntry Unchanged "one"; mkEntry Unchanged "two";
          mkEntry Unchanged "three"]
  = String.concat "<br>"
      (((λ line, span "gray" ("  " +:+ line))
          <$> splitlines (document_text (world None) "a.pdf"))
       ++ [summary 0 0]).
Proof.
  apply (same_document_no_difference (world None) "a.pdf").
  rewrite notifications_a_a. apply list_elem_of_lookup. by exists 7.
Defined.

(** ** Matching blocks and opcodes *)

Lemma apart_resize l i j k k' :
  apart (l ++ [(i, j, k)]) → apart (l ++ [(i, j, k')]).
Proof.
  induction l as [|x l IH]; [done|]. simpl.
  intros [Hx Hl]. split; [|by apply IH].
  destruct l as [|y l]; simpl in *; [|done].
  unfold adjacent in *. simpl in *. done.
Qed.

Lemma apart_snoc l x y :
  apart (l ++ [x]) → ¬ adjacent x y → apart ((l ++ [x]) ++ [y]).
Proof.
  intros Hl Hxy. induction l as [|z l IH]; simpl in *; [done|].
  destruct Hl as [Hz Hl]. split; [|by apply IH].
  by destruct l as [|z' l].
Qed.

Lemma collapse_fold_apart (l : list block) :
  ∀ i1 j1 k1 non_adjacent,
    apart (non_adjacent ++ [(i1, j1, k1)]) → (k1 = 0 → non_adjacent = []) →
    Forall (λ x : block, 0 < x.2) l →
    apart (let '((i1, j1, k1), non_adjacent) :=
             foldl collapse_step ((i1, j1, k1), non_adjacent) l in
           if decide (k1 = 0) then non_adjacent
           else non_adjacent ++ [(i1, j1, k1)]).
Proof.
  induction l as [|[[i2 j2] k2] l IH]; intros i1 j1 k1 na Hna Hk Hl; simpl.
  - case_decide as H0; [by rewrite Hk|done].
  - apply Forall_cons in Hl as [Hk2 Hl]. simpl in Hk2.
    destruct (decide (i1 + k1 = i2 ∧ j1 + k1 = j2)) as [Hadj|Hadj].
    + apply IH; [by eapply apart_resize|lia|done].
    + apply IH; [|lia|done]. case_decide as H0.
      * by rewrite Hk.
      * by apply apart_snoc.
Qed.

Lemma collapse_apart (l : list block) :
  Forall (λ x : block, 0 < x.2) l → apart (collapse l).
Proof. intros Hl. by apply collapse_fold_apart. Qed.

Section Opcodes_facts.
Context `{Countable A}.
Variable isjunk : option (A → bool).
Variable autojunk : bool.
Implicit Types a b : list A.

Lemma chain_sizes a b i0 j0 hi hj l :
  chain a b i0 j0 hi hj l → Forall (λ x : block, 0 < x.2) l.
Proof.
  revert i0 j0. induction l as [|x l IH]; intros i0 j0; simpl; [constructor|].
  intros (? & ? & ? & ? & Hl). constructor; [done|by eapply IH].
Qed.

Lemma get_matching_blocks_shape a b :
  ∃ l, get_matching_blocks isjunk autojunk a b
       = l ++ [(length a, length b, 0)]
       ∧ chain a b 0 0 (length a) (length b) l ∧ apart l.
Proof.
  eexists. split; [reflexivity|].
  pose proof (sorted_found_blocks isjunk autojunk a b) as Hs.
  split; [by apply collapse_ok|].
  eapply collapse_apart, chain_sizes, Hs.
Qed.

(** X8. [get_matching_blocks] gives blocks of matching elements, none
    of them empty, in ascending order and without overlap in [a] and in
    [b], no block touching the next one in both, and then the block of
    size 0 at the two ends. *)
Theorem matching_blocks_apart a b :
  ∃ l, get_matching_blocks isjunk autojunk a b
       = l ++ [(length a, length b, 0)]
       ∧ chain a b 0 0 (length a) (length b) l ∧ apart l.
Proof. apply get_matching_blocks_shape. Qed.

Lemma alternate_opcodes a b l :
  ∀ i j,
    chain a b i j (length a) (length b) l → apart l →
    let ops :=
      (foldl opcodes_step (i, j, []) (l ++ [(length a, length b, 0)])).2 in
    alternate ops
    ∧ ∀ op, head ops = Some op → is_equal op = true →
        ∃ x, head l = Some x ∧ x.1.1 = i ∧ x.1.2 = j.
Proof.
  induction l as [|[[ai bj] size] l IH]; intros i j Hl Hap.
  - simpl. repeat case_decide; simpl; (split; [done|]);
      intros op [= <-]; done.
  - destruct Hl as (? & ? & ? & Hm & Hl). simpl in *.
    destruct Hap as [Hadj Hap].
    destruct (IH _ _ Hl Hap) as [Halt Hhead].
    remember (foldl opcodes_step (ai + size, bj + size, [])
                (l ++ [(length a, length b, 0)])).2 as ops' eqn:Hops'.
    assert (alternate ((equal, ai, ai + size, bj, bj + size) :: ops')) as Heq.
    { split; [|done]. clear Hops'. destruct ops' as [|op rest]; [done|].
      intros Hop. destruct (Hhead op eq_refl) as (y & Hy & ? & ?); [done|].
      destruct l as [|y' l]; [done|]. injection Hy as ->.
      apply Hadj. by split. }
    destruct (decide (size = 0)); [lia|].
    repeat case_decide; simpl; rewrite opcodes_step_fold_nil; simpl;
      rewrite <-Hops';
      (split; [first [exact Heq|split; [done|exact Heq]]|]);
      intros op [= <-]; try done;
      intros _; eexists; (split; [done|]); simpl; lia.
Qed.

(** X9. The opcodes of [get_opcodes] go through [a] and [b] from the
    start to the end without gap or overlap, an [equal] one over elements
    that match and the others over at least one element; and of two
    opcodes that follow each other one is [equal] and the other is not. *)
Theorem opcodes_tile_and_alternate a b :
  opcodes_ok a b 0 0 (get_opcodes isjunk autojunk a b)
  ∧ alternate (get_opcodes isjunk autojunk a b).
Proof.
  split; [apply get_opcodes_ok|].
  destruct (get_matching_blocks_shape a b) as (l & Hl & Hchain & Hap).
  unfold get_opcodes, opcodes_of. rewrite Hl.
  by apply alternate_opcodes.
Qed.
End Opcodes_facts.

(** ** The longest common run *)

Section Longest.
Context `{Countable A}.
Variable isjunk : option (A → bool).
Variable autojunk : bool.
Implicit Types a b : list A.

Lemma flm_inner_mono i blo bhi j2len l :
  ∀ new best, best.2 ≤ (flm_inner i blo bhi j2len l new best).2.2.
Proof.
  induction l as [|j l IH]; intros new best; simpl; [done|].
  case_decide; [apply IH|]. case_decide; [done|].
  etrans; [|apply IH]. case_decide; simpl; lia.
Qed.

Lemma flm_inner_notin i blo bhi j2len l j :
  j ∉ l →
  ∀ new best, (flm_inner i blo bhi j2len l new best).1 !! j = new !! j.
Proof.
  induction l as [|j0 l IH]; intros Hj new best; simpl; [done|].
  apply not_elem_of_cons in Hj as [? ?].
  case_decide; [by apply IH|]. case_decide; [done|].
  rewrite IH by done. by rewrite lookup_insert_ne.
Qed.

(** The inner loop comes to every place of its list that lies between
    [blo] and [bhi]: the list is in ascending order, so the loop does
    not break before. *)
Lemma flm_inner_reaches i blo bhi j2len l j :
  StronglySorted lt l → j ∈ l → blo ≤ j < bhi →
  ∀ new best,
    (flm_inner i blo bhi j2len l new best).1 !! j
    = Some (j2lenget j2len j + 1)
    ∧ j2lenget j2len j + 1 ≤ (flm_inner i blo bhi j2len l new best).2.2.
Proof.
  induction l as [|j0 l IH]; intros Hs Hj Hb new best.
  { by apply elem_of_nil in Hj. }
  apply StronglySorted_inv in Hs as [Hs Hall].
  rewrite Forall_forall in Hall.
  apply elem_of_cons in Hj as [->|Hj]; simpl.
  - rewrite decide_False by lia. rewrite decide_False by lia. split.
    + rewrite flm_inner_notin.
      * by rewrite lookup_insert_eq.
      * intros Hin. apply Hall in Hin. lia.
    + etrans; [|apply flm_inner_mono]. case_decide; simpl; lia.
  - pose proof (Hall _ Hj).
    case_decide; [by apply IH|]. rewrite decide_False by lia. by apply IH.
Qed.

Lemma indexed_block_shorter b2j a b i j k :
  indexed_block b2j a b i j (S k) → indexed_block b2j a b i j k.
Proof. intros Hb t Ht. apply Hb. lia. Qed.

Lemma longest_step a b alo ahi blo bhi i st :
  alo ≤ i < ahi → ahi ≤ length a →
  longest_inv (chain_b isjunk autojunk b) a b alo blo bhi i st →
  longest_inv (chain_b isjunk autojunk b) a b alo blo bhi (i + 1)
    (flm_outer a (chain_b isjunk autojunk b) blo bhi st i).
Proof.
  intros Hi Hahi [Hrow Hbest]. destruct st as [j2len best]. simpl in *.
  unfold flm_outer. simpl.
  destruct (lookup_lt_is_Some_2 a i) as [x Hx]; [lia|]. rewrite Hx. simpl.
  set (js := default [] (chain_b isjunk autojunk b !! x)).
  (* a block that ends in the row [i], at the place [j] *)
  assert (∀ j k, blo + S k ≤ j + 1 → j < bhi → alo + S k ≤ i + 1 →
            indexed_block (chain_b isjunk autojunk b) a b
              (i + 1 - S k) (j + 1 - S k) (S k) →
            (flm_inner i blo bhi j2len js ∅ best).1 !! j
            = Some (j2lenget j2len j + 1)
            ∧ S k ≤ j2lenget j2len j + 1
            ∧ S k ≤ (flm_inner i blo bhi j2len js ∅ best).2.2) as Hend.
  { intros j k Hj1 Hj2 Hi1 Hblock.
    destruct (Hblock k) as (y & Hay & Hby & [l Hl]); [lia|].
    replace (i + 1 - S k + k) with i in Hay by lia.
    replace (j + 1 - S k + k) with j in Hby by lia.
    assert (y = x) as -> by congruence.
    destruct (chain_b_sorted _ _ _ _ _ Hl) as [Hsorted Hjs].
    assert (js = l) as Ejs by (unfold js; by rewrite Hl). rewrite Ejs.
    destruct (flm_inner_reaches i blo bhi j2len l j Hsorted
                (proj2 (Hjs j) Hby) ltac:(lia) ∅ best) as [Hnew Hsize].
    assert (k ≤ j2lenget j2len j) as Hk.
    { destruct k as [|k']; [lia|]. unfold j2lenget.
      destruct j as [|j']; [lia|].
      apply Hrow; [lia..|].
      replace (i - S k') with (i + 1 - S (S k')) by lia.
      replace (j' + 1 - S k') with (S j' + 1 - S (S k')) by lia.
      by apply indexed_block_shorter. }
    split_and!; [done|lia|lia]. }
  split.
  - intros j k Hj1 Hj2 Hi1 Hblock. destruct k as [|k]; [lia|].
    replace (i + 1 - S k) with (i + 1 - S k) in Hblock by done.
    destruct (Hend j k) as (-> & ? & _); [done..|]. simpl. lia.
  - intros i0 j0 k Hi0 Hi1 Hj0 Hj1 Hblock.
    destruct (decide (i0 + k ≤ i)) as [Hle|Hgt].
    + etrans; [by eapply Hbest|]. apply flm_inner_mono.
    + destruct k as [|k]; [lia|].
      destruct (Hend (j0 + k) k) as (_ & _ & ?); [lia..| |done].
      replace (i + 1 - S k) with i0 by lia.
      by replace (j0 + k + 1 - S k) with j0 by lia.
Qed.

Lemma flm_fold_longest a b alo ahi blo bhi i0 j0 k :
  alo ≤ ahi ≤ length a →
  alo ≤ i0 → i0 + k ≤ ahi → blo ≤ j0 → j0 + k ≤ bhi →
  indexed_block (chain_b isjunk autojunk b) a b i0 j0 k →
  k ≤ (foldl (flm_outer a (chain_b isjunk autojunk b) blo bhi)
             (∅, (alo, blo, 0)) (seq alo (ahi - alo))).2.2.
Proof.
  intros Ha Hi0 Hi1 Hj0 Hj1 Hblock.
  assert (longest_inv (chain_b isjunk autojunk b) a b alo blo bhi
            (alo + (ahi - alo))
            (foldl (flm_outer a (chain_b isjunk autojunk b) blo bhi)
                   (∅, (alo, blo, 0)) (seq alo (ahi - alo)))) as [_ Hbest].
  { apply (foldl_seq_inv
             (longest_inv (chain_b isjunk autojunk b) a b alo blo bhi)).
    - split; simpl; intros; lia.
    - intros i st ? Hinv. apply (longest_step a b alo ahi); [lia|lia|done]. }
  apply (Hbest i0 j0); [lia..|done].
Qed.

Lemma extend_left_size (P : A → bool) a b alo blo besti :
  ∀ bestj bestsize,
    bestsize ≤ (extend_left P a b alo blo besti bestj bestsize).2.
Proof.
  induction besti as [|i IH]; intros bestj bestsize; simpl; [done|].
  destruct bestj as [|j]; [done|].
  destruct (a !! i), (b !! j); try done.
  destruct (_ && _); [|done]. etrans; [|apply IH]. lia.
Qed.

Lemma extend_right_size (P : A → bool) a b bhi besti bestj n :
  ∀ bestsize, bestsize ≤ extend_right P a b bhi besti bestj bestsize n.
Proof.
  induction n as [|n IH]; intros bestsize; simpl; [done|].
  destruct (a !! (besti + bestsize)), (b !! (bestj + bestsize)); try done.
  destruct (_ && _); [|done]. etrans; [|apply IH]. lia.
Qed.

Lemma extend_size (P : A → bool) a b alo ahi blo bhi best :
  best.2 ≤ (extend P a b alo ahi blo bhi best).2.
Proof.
  unfold extend.
  pose proof (extend_left_size P a b alo blo best.1.1 best.1.2 best.2).
  destruct (extend_left P a b alo blo best.1.1 best.1.2 best.2)
    as [[i j] k]. simpl in *.
  etrans; [done|]. apply extend_right_size.
Qed.

Lemma find_longest_match_longest a b alo ahi blo bhi i0 j0 k :
  alo ≤ ahi ≤ length a →
  alo ≤ i0 → i0 + k ≤ ahi → blo ≤ j0 → j0 + k ≤ bhi →
  indexed_block (chain_b isjunk autojunk b) a b i0 j0 k →
  k ≤ (find_longest_match isjunk autojunk a b alo ahi blo bhi).2.
Proof.
  intros. unfold find_longest_match.
  etrans; [|apply extend_size]. etrans; [|apply extend_size].
  by apply (flm_fold_longest a b alo ahi blo bhi i0 j0).
Qed.

End Longest.

Lemma blocks_size_cons x l : blocks_size (x :: l) = x.2 + blocks_size l.
Proof. reflexivity. Qed.

Lemma blocks_size_app l1 l2 :
  blocks_size (l1 ++ l2) = blocks_size l1 + blocks_size l2.
Proof.
  induction l1 as [|x l1 IH]; [done|].
  rewrite <-app_comm_cons, !blocks_size_cons, IH. lia.
Qed.

Lemma blocks_size_perm l1 l2 : l1 ≡ₚ l2 → blocks_size l1 = blocks_size l2.
Proof.
  induction 1; rewrite ?blocks_size_cons; lia.
Qed.

Lemma equal_size_cons op ops :
  equal_size (op :: ops)
  = (if is_equal op then op.1.1.2 - op.1.1.1.2 else 0) + equal_size ops.
Proof. reflexivity. Qed.

Lemma equal_size_app ops1 ops2 :
  equal_size (ops1 ++ ops2) = equal_size ops1 + equal_size ops2.
Proof.
  induction ops1 as [|x ops1 IH]; [done|].
  rewrite <-app_comm_cons, !equal_size_cons, IH. lia.
Qed.

Lemma count_app k d1 d2 : count k (d1 ++ d2) = count k d1 + count k d2.
Proof. unfold count. by rewrite filter_app, length_app. Qed.

Lemma collapse_fold_size (l : list block) :
  ∀ i1 j1 k1 non_adjacent,
    blocks_size
      (let '((i1, j1, k1), non_adjacent) :=
         foldl collapse_step ((i1, j1, k1), non_adjacent) l in
       if decide (k1 = 0) then non_adjacent
       else non_adjacent ++ [(i1, j1, k1)])
    = blocks_size non_adjacent + k1 + blocks_size l.
Proof.
  induction l as [|[[i2 j2] k2] l IH]; intros i1 j1 k1 na; simpl.
  - case_decide; rewrite ?blocks_size_app, ?blocks_size_cons;
      change (blocks_size []) with 0; simpl; lia.
  - rewrite blocks_size_cons. simpl. case_decide.
    + rewrite IH. lia.
    + rewrite IH. case_decide; rewrite ?blocks_size_app, ?blocks_size_cons;
        change (blocks_size []) with 0; simpl; lia.
Qed.

Lemma collapse_size (l : list block) :
  blocks_size (collapse l) = blocks_size l.
Proof. unfold collapse. by rewrite collapse_fold_size. Qed.

Lemma opcodes_size (l : list block) :
  ∀ i j, equal_size (foldl opcodes_step (i, j, []) l).2 = blocks_size l.
Proof.
  induction l as [|[[ai bj] size] l IH]; intros i j; [done|].
  simpl. rewrite opcodes_step_fold_nil, equal_size_app, IH.
  rewrite blocks_size_cons. simpl.
  repeat case_decide; rewrite ?equal_size_app, ?equal_size_cons;
    change (equal_size []) with 0; simpl; lia.
Qed.

Section Longest_delta.
Context `{Countable A}.
Variable isjunk : option (A → bool).
Variable autojunk : bool.
Implicit Types a b : list A.

Lemma matching_blocks_loop_size a b fuel :
  ∀ queue blocks r,
    matching_blocks_loop isjunk autojunk a b fuel queue blocks = Some r →
    blocks_size blocks ≤ blocks_size r.
Proof.
  induction fuel as [|fuel IH]; intros queue blocks r;
    destruct queue as [|[[[alo ahi] blo] bhi] queue]; simpl; try done.
  - by intros [= <-].
  - by intros [= <-].
  - destruct (find_longest_match isjunk autojunk a b alo ahi blo bhi)
      as [[i j] k].
    case_decide; [apply IH|].
    intros Hr. apply IH in Hr. rewrite blocks_size_app in Hr. lia.
Qed.

Lemma found_blocks_size a b r :
  found_blocks isjunk autojunk a b = Some r →
  (find_longest_match isjunk autojunk a b 0 (length a) 0 (length b)).2
  ≤ blocks_size r.
Proof.
  unfold found_blocks, matching_blocks_fuel.
  replace (2 * length a + 1) with (S (2 * length a)) by lia. simpl.
  destruct (find_longest_match isjunk autojunk a b 0 (length a) 0 (length b))
    as [[i j] k]. simpl.
  case_decide; [lia|]. intros Hr.
  apply matching_blocks_loop_size in Hr.
  rewrite blocks_size_cons in Hr. simpl in Hr. lia.
Qed.

Lemma get_opcodes_size a b :
  (find_longest_match isjunk autojunk a b 0 (length a) 0 (length b)).2
  ≤ equal_size (get_opcodes isjunk autojunk a b).
Proof.
  unfold get_opcodes, opcodes_of, get_matching_blocks.
  rewrite opcodes_size, blocks_size_app, collapse_size.
  destruct (found_blocks_ok isjunk autojunk a b) as (r & l & Hr & _ & _).
  rewrite Hr. simpl. rewrite (blocks_size_perm _ r)
    by apply merge_sort_Permutation.
  pose proof (found_blocks_size a b r Hr). lia.
Qed.

Lemma filter_eq_notin b (x : A) : x ∉ b → filter (λ y, y = x) b = [].
Proof.
  induction b as [|y b IH]; [done|]. intros [? ?]%not_elem_of_cons.
  rewrite filter_cons_False by done. by apply IH.
Qed.

Lemma chain_b_all_length b x js :
  chain_b_all b !! x = Some js →
  length js = length (filter (λ y, y = x) b).
Proof.
  revert js. induction b as [|y b IH] using rev_ind; intros js.
  - unfold chain_b_all. simpl. by rewrite lookup_empty.
  - rewrite chain_b_all_snoc. unfold b2j_append. simpl.
    rewrite filter_app, length_app.
    destruct (decide (y = x)) as [->|Hne].
    + rewrite lookup_insert_eq. intros [= <-].
      rewrite length_app, filter_cons_True by done. simpl.
      destruct (chain_b_all b !! x) as [js0|] eqn:E; simpl.
      * by rewrite (IH js0).
      * pose proof (chain_b_all_sorted b x) as Hnone. rewrite E in Hnone.
        by rewrite filter_eq_notin.
    + rewrite lookup_insert_ne by done. intros Hjs.
      rewrite filter_cons_False by done. simpl. rewrite (IH js) by done.
      by rewrite Nat.add_0_r.
Qed.

Lemma not_frequent_indexed b x :
  x ∈ b → ¬ frequent b x → is_Some (chain_b None autojunk b !! x).
Proof.
  intros Hx Hfreq.
  pose proof (chain_b_all_sorted b x) as Hs.
  destruct (chain_b_all b !! x) as [js|] eqn:E; [|done].
  exists js. unfold chain_b. apply map_lookup_filter_Some. split; [done|].
  simpl. split; [done|]. unfold is_popular.
  apply chain_b_all_length in E. unfold frequent in Hfreq.
  destruct autojunk; [|done]. simpl.
  case_bool_decide; [|done]. simpl. apply bool_decide_eq_false.
  intros Hlt. apply Hfreq. split; [done|]. by rewrite <-E.
Qed.

End Longest_delta.

Lemma length_slice {X} (x : list X) lo hi :
  hi ≤ length x → length (slice x lo hi) = hi - lo.
Proof. intros ?. unfold slice. rewrite length_take, length_drop. lia. Qed.

Lemma compare_opcodes_unchanged charjunk limit (a b : list string) ops :
  ∀ i j ds,
    opcodes_ok a b i j ops →
    mapM (compare_opcode charjunk limit a b) ops = Done ds →
    equal_size ops ≤ count Unchanged (concat ds).
Proof.
  induction ops as [|[[[[t i1] i2] j1] j2] ops IH]; intros i j ds Hops Hds.
  - change (equal_size []) with 0. lia.
  - destruct Hops as (-> & -> & Hi2 & Hj2 & Ht & Hops).
    rewrite mapM_result_cons in Hds.
    destruct (compare_opcode charjunk limit a b (t, i, i2, j, j2))
      as [d|] eqn:Ed; [|done].
    destruct (mapM (compare_opcode charjunk limit a b) ops)
      as [ds'|] eqn:Eds; [|done].
    injection Hds as <-. simpl. rewrite count_app, equal_size_cons.
    specialize (IH _ _ _ Hops eq_refl).
    destruct t; simpl in *; try lia.
    injection Ed as <-. unfold dump. rewrite count_plain.
    rewrite decide_True by done. rewrite length_slice by done. lia.
Qed.

(** X16. Lines that follow each other in both texts, [k] of them and
    none so frequent in the second text that [SequenceMatcher] leaves it
    out of its index (no line is, below 200 lines): the delta, when
    [compare] gives one, keeps [k] lines or more Unchanged. *)
Theorem longest_common_run_unchanged limit (a b : list string) d i j k :
  compare_entries None None limit a b = Done d →
  matches a b i j k →
  (∀ t x, t < k → b !! (j + t) = Some x → ¬ frequent b x) →
  k ≤ count Unchanged d.
Proof.
  intros Hd Hm Hfreq. unfold compare_entries in Hd.
  destruct (mapM _ _) as [ds|] eqn:Eds; simpl in Hd; [|done].
  injection Hd as <-.
  etrans; [|eapply compare_opcodes_unchanged;
            [apply (get_opcodes_ok None true a b)|exact Eds]].
  etrans; [|apply get_opcodes_size].
  destruct k as [|k]; [lia|].
  destruct (Hm k) as (y & Hay & Hby); [lia|].
  apply lookup_lt_Some in Hay, Hby.
  apply (find_longest_match_longest None true a b 0 (length a) 0 (length b)
           i j); [lia..|].
  intros t Ht. destruct (Hm t Ht) as (x & Hax & Hbx).
  exists x. split_and!; [done..|].
  apply not_frequent_indexed; [|by eapply Hfreq].
  apply list_elem_of_lookup. by eexists.
Qed.

(** The theorem at work on two lines that both texts have. *)
Lemma longest_common_run_unchanged_witness :
  2 ≤ count Unchanged
        [mkEntry Removed "x"; mkEntry Unchanged "one"; mkEntry Unchanged "two";
         mkEntry Added "y"].
Proof.
  apply (longest_common_run_unchanged 490 ["x"; "one"; "two"]
           ["one"; "two"; "y"] _ 1 0 2).
  - vm_compute. reflexivity.
  - intros [|[|t]] Ht; [by exists "one"|by exists "two"|lia].
  - intros t x _ _ [Hlen _]. simpl in Hlen. lia.
Defined.

(** ** The window *)

Section Window_facts.
Variable path_exists : string → bool.

Lemma handle_all_cons self e evs :
  handle_all path_exists self (e :: evs)
  = self' ← handle path_exists self e; handle_all path_exists self' evs.
Proof.
  unfold handle_all. simpl.
  destruct (handle path_exists self e) as [self'|]; simpl; [done|].
  induction evs as [|e' evs IH]; [done|]. exact IH.
Qed.

Lemma handle_all_app self evs evs' :
  handle_all path_exists self (evs ++ evs')
  = self' ← handle_all path_exists self evs; handle_all path_exists self' evs'.
Proof.
  revert self. induction evs as [|e evs IH]; intros self; [done|].
  simpl. rewrite !handle_all_cons.
  destruct (handle path_exists self e) as [self'|]; simpl; [apply IH|done].
Qed.

Lemma window_ok_init : window_ok init_ui.
Proof. split; [simpl; lia|done]. Qed.

Lemma window_ok_start self :
  window_ok self → window_ok (start_comparison path_exists self).
Proof.
  intros Hok. unfold start_comparison.
  destruct (_ || _); [exact Hok|]. destruct (_ || _); [exact Hok|].
  split; [simpl; lia|]. simpl. split_and!; [done..|]. by eexists.
Qed.

Lemma window_ok_cancel self :
  window_ok self →
  ∃ self', cancel_operation self = Some self' ∧ window_ok self'.
Proof.
  intros Hok0. pose proof Hok0 as [Hbar Hok].
  unfold cancel_operation, thread_is_running.
  destruct (worker_thread self) as [[]|] eqn:E; [| |by eexists].
  - destruct Hok as (_ & ? & ? & wk & Hwk & ?). rewrite Hwk. simpl.
    eexists. split; [done|]. split; [done|]. simpl.
    split_and!; [done..|]. by eexists.
  - by eexists.
Qed.

Lemma window_ok_slot n self : window_ok self → window_ok (slot n self).
Proof.
  intros [Hbar Hok]. destruct n; simpl; try done.
  - split; [|done]. simpl. case_decide; lia.
Qed.

Lemma window_ok_handle self e :
  window_ok self →
  ∃ self', handle path_exists self e = Some self' ∧ window_ok self'.
Proof.
  intros Hok. destruct e as [| |first file_path|first text| |n]; simpl.
  - destruct (compare_btn self); eexists; split; try done.
    by apply window_ok_start.
  - destruct (cancel_btn self); [by apply window_ok_cancel|by eexists].
  - eexists. split; [done|]. unfold select_file. by case_decide.
  - by eexists.
  - unfold closeEvent. destruct (thread_is_running self); [|by eexists].
    destruct (window_ok_cancel self Hok) as (self' & -> & ?). by eexists.
  - eexists. split; [done|]. by apply window_ok_slot.
Qed.

Lemma window_ok_handle_all evs :
  ∀ self, window_ok self →
    ∃ self', handle_all path_exists self evs = Some self' ∧ window_ok self'.
Proof.
  induction evs as [|e evs IH]; intros self Hok; [by eexists|].
  rewrite handle_all_cons.
  destruct (window_ok_handle self e Hok) as (self' & -> & Hok').
  by apply IH.
Qed.

End Window_facts.

(** X10. From the window as [__init__] leaves it, whatever the user
    does and whatever signals come in, in any order: no method fails (the
    attribute [self.worker] is set whenever [cancel_operation] reads it),
    "compare" is enabled exactly when there is no thread, so that no
    comparison starts while one is at work, and "cancel" is enabled
    exactly while a worker runs with its flag set. *)
Theorem window_always_ok path_exists (evs : list gui_event) :
  ∃ self, handle_all path_exists init_ui evs = Some self ∧ window_ok self.
Proof. apply window_ok_handle_all, window_ok_init. Qed.

Section Lifecycle.
Variable path_exists : string → bool.

Lemma last_cons_default {X} (x y : X) l :
  default x (last (y :: l)) = default y (last l).
Proof.
  revert x y. induction l as [|z l IH]; intros x y; [done|].
  change (last (y :: z :: l)) with (last (z :: l)).
  by rewrite (IH x z), (IH y z).
Qed.

Lemma handle_shows self e self' :
  handle path_exists self e = Some self' → e ≠ click_compare →
  result_text self'
  = default (result_text self) (last (reports (delivered [e])))
  ∧ message_boxes self'
    = message_boxes self ++ error_boxes (delivered [e]).
Proof.
  intros He Hne. destruct e as [| |first file_path|first text| |n];
    simpl in *.
  - done.
  - destruct (cancel_btn self); [|injection He as <-; by rewrite app_nil_r].
    unfold cancel_operation in He.
    destruct (thread_is_running self);
      [|injection He as <-; by rewrite app_nil_r].
    destruct (worker self); simpl in He; [|done].
    injection He as <-. simpl. by rewrite app_nil_r.
  - injection He as <-. unfold select_file.
    case_decide; simpl; by rewrite app_nil_r.
  - injection He as <-. simpl. by rewrite app_nil_r.
  - unfold closeEvent, cancel_operation in He.
    destruct (thread_is_running self);
      [|injection He as <-; by rewrite app_nil_r].
    destruct (worker self); simpl in He; [|done].
    injection He as <-. simpl. by rewrite app_nil_r.
  - injection He as <-. destruct n; simpl; by rewrite ?app_nil_r.
Qed.

Lemma handle_all_shows evs :
  ∀ self self',
    handle_all path_exists self evs = Some self' →
    Forall (λ e, e ≠ click_compare) evs →
    result_text self'
    = default (result_text self) (last (reports (delivered evs)))
    ∧ message_boxes self'
      = message_boxes self ++ error_boxes (delivered evs).
Proof.
  induction evs as [|e evs IH]; intros self self' Hall Hevs.
  - injection Hall as <-. simpl. by rewrite app_nil_r.
  - apply Forall_cons in Hevs as [He Hevs]. rewrite handle_all_cons in Hall.
    destruct (handle path_exists self e) as [self1|] eqn:E; simpl in Hall;
      [|done].
    destruct (handle_shows _ _ _ E He) as [Hr1 Hb1].
    destruct (IH _ _ Hall Hevs) as [Hr Hb].
    rewrite Hr, Hb, Hr1, Hb1. clear.
    destruct e as [| | | | |n]; simpl; rewrite ?app_nil_r; try done.
    destruct n; simpl; rewrite ?app_nil_r; try done.
    + change (reports (result_ready html :: delivered evs))
        with (html :: reports (delivered evs)).
      by rewrite last_cons_default.
    + by rewrite <-app_assoc.
Qed.

Lemma idle_handle_all evs :
  ∀ self, idle self → delivered evs = [] →
    Forall (λ e, e ≠ click_compare) evs →
    ∃ self', handle_all path_exists self evs = Some self' ∧ idle self'.
Proof.
  induction evs as [|e evs IH]; intros self Hidle Hd Hevs; [by eexists|].
  apply Forall_cons in Hevs as [He Hevs]. rewrite handle_all_cons.
  destruct Hidle as (Ht & Hc & Hx & Hp).
  assert (∃ self1, handle path_exists self e = Some self1 ∧ idle self1)
    as (self1 & -> & Hidle1).
  { destruct e as [| |first file_path|first text| |n]; simpl in *; try done.
    - rewrite Hx. by eexists.
    - eexists. split; [done|]. unfold select_file. by case_decide.
    - by eexists.
    - unfold closeEvent, thread_is_running. rewrite Ht. by eexists. }
  simpl. apply IH; [done| |done].
  by destruct e.
Qed.

Lemma delivered_app evs evs' :
  delivered (evs ++ evs') = delivered evs ++ delivered evs'.
Proof. apply omap_app. Qed.

Lemma delivered_last evs before n :
  delivered evs = before ++ [n] →
  ∃ evs1 evs2, evs = evs1 ++ deliver n :: evs2 ∧ delivered evs2 = [].
Proof.
  induction evs as [|e evs IH] using rev_ind; intros Hd.
  - by destruct before.
  - rewrite delivered_app in Hd.
    assert (delivered [e] = [] ∨ ∃ n', e = deliver n') as [He|[n' ->]]
      by (destruct e; eauto).
    + rewrite He, app_nil_r in Hd.
      destruct (IH Hd) as (evs1 & evs2 & -> & Hd2).
      exists evs1, (evs2 ++ [e]). split; [by rewrite <-app_assoc|].
      by rewrite delivered_app, Hd2, He.
    + apply app_inj_tail in Hd as [_ ->]. by exists evs, [].
Qed.

Lemma start_comparison_ok self :
  file1_edit self ≠ "" → file2_edit self ≠ "" →
  path_exists (file1_edit self) = true →
  path_exists (file2_edit self) = true →
  window_ok (start_comparison path_exists self)
  ∧ result_text (start_comparison path_exists self) = ""
  ∧ message_boxes (start_comparison path_exists self) = message_boxes self.
Proof.
  intros H1 H2 E1 E2. unfold start_comparison.
  rewrite !bool_decide_eq_false_2, E1, E2 by done. simpl.
  split_and!; [|done..]. split; [simpl; lia|]. simpl.
  split_and!; [done..|]. by eexists.
Qed.

End Lifecycle.

(** The end of the notifications of a run, and what it shows. *)
Lemma notifications_end w f1 f2 :
  ∃ before,
    notifications (trace w f1 f2) = before ++ [finished]
    ∧ length (reports (notifications (trace w f1 f2)))
      + length (error_boxes (notifications (trace w f1 f2))) ≤ 1.
Proof.
  destruct (trace_shape w f1 f2) as (body & tail & -> & Hcalm & Htail).
  rewrite notifications_app.
  assert (reports (notifications body) = []
          ∧ error_boxes (notifications body) = []) as [Hr He].
  { clear Htail. induction Hcalm as [|e body Hc _ [IH1 IH2]]; [done|].
    destruct e as [b|n]; [done|]. by destruct n. }
  unfold reports, error_boxes in *. rewrite !omap_app, Hr, He.
  destruct Htail as [(e & _ & ->)|[(_ & [-> | ->])|(t1 & t2 & d & ->)]];
    simpl.
  - eexists (_ ++ [_]). split; [by rewrite <-app_assoc|lia].
  - exists (notifications body). split; [done|lia].
  - exists (notifications body). split; [done|lia].
  - eexists (_ ++ [_; _; _]). split; [by rewrite <-app_assoc|lia].
Qed.

(** X11. A comparison that [start_comparison] starts on two paths that
    exist, followed by the signals of the worker's run on them, with any
    clicks on "cancel" and "browse" and any requests to close in between:
    no method fails, and in the end the window has no thread, "compare"
    is enabled, "cancel" is not, the bar is hidden; the result pane shows
    the report of this run, or nothing if the run has none; the one new
    message box, if any, is the error of the run; and a run brings a
    report or an error, not both. *)
Theorem comparison_ends_idle path_exists w self evs :
  file1_edit self ≠ "" → file2_edit self ≠ "" →
  path_exists (file1_edit self) = true →
  path_exists (file2_edit self) = true →
  delivered evs
  = notifications (trace w (file1_edit self) (file2_edit self)) →
  Forall (λ e, e ≠ click_compare) evs →
  ∃ self',
    handle_all path_exists (start_comparison path_exists self) evs
    = Some self'
    ∧ worker_thread self' = None ∧ compare_btn self' = true
    ∧ cancel_btn self' = false ∧ progress_bar_visible self' = false
    ∧ result_text self' = default "" (last (reports (delivered evs)))
    ∧ message_boxes self'
      = message_boxes self ++ error_boxes (delivered evs)
    ∧ length (reports (delivered evs))
      + length (error_boxes (delivered evs)) ≤ 1.
Proof.
  intros H1 H2 E1 E2 Hd Hevs.
  destruct (start_comparison_ok path_exists self H1 H2 E1 E2)
    as (Hok & Hres & Hbox).
  destruct (notifications_end w (file1_edit self) (file2_edit self))
    as (before & Hend & Hone).
  rewrite <-Hd in Hend, Hone.
  destruct (delivered_last _ _ _ Hend) as (evs1 & evs2 & Hsplit & Hd2).
  assert (∃ self', handle_all path_exists
                     (start_comparison path_exists self) evs = Some self'
                   ∧ idle self') as (self' & Hall & Hidle).
  { rewrite Hsplit in Hevs |- *.
    apply Forall_app in Hevs as [_ Hevs2].
    apply Forall_cons in Hevs2 as [_ Hevs2].
    rewrite handle_all_app.
    destruct (window_ok_handle_all path_exists evs1 _ Hok)
      as (self1 & -> & Hok1).
    simpl. rewrite handle_all_cons. simpl.
    apply idle_handle_all; [|done..]. by split_and!. }
  exists self'. split; [done|].
  destruct Hidle as (? & ? & ? & ?).
  destruct (handle_all_shows path_exists evs _ _ Hall Hevs) as [Hr Hb].
  rewrite Hres in Hr. rewrite Hbox in Hb. by split_and!.
Qed.

(** X12. While a comparison runs, a flag that [stop] has cleared stays
    cleared, in the same worker, until [finished] comes in: nothing that
    the user does sets it again. *)
Theorem cleared_flag_stays_cleared path_exists self wk evs :
  window_ok self → worker_thread self = Some true →
  worker self = Some wk → _is_running wk = false →
  Forall (λ e, e ≠ deliver finished) evs →
  ∃ self', handle_all path_exists self evs = Some self'
           ∧ worker_thread self' = Some true ∧ worker self' = Some wk.
Proof.
  intros [_ Hok] Ht Hw Hflag Hevs. rewrite Ht in Hok.
  destruct Hok as (_ & Hc & _ & wk' & Hwk' & Hx).
  assert (wk' = wk) as -> by congruence. rewrite Hflag in Hx. clear Hwk'.
  revert self Ht Hw Hc Hx.
  induction Hevs as [|e evs He _ IH]; intros self Ht Hw Hc Hx; [by eexists|].
  rewrite handle_all_cons.
  assert (stop wk = wk) as Hstop by (destruct wk; simpl in *; by subst).
  assert (∃ self1, handle path_exists self e = Some self1
                   ∧ worker_thread self1 = Some true ∧ worker self1 = Some wk
                   ∧ compare_btn self1 = false ∧ cancel_btn self1 = false)
    as (self1 & -> & ? & ? & ? & ?).
  { destruct e as [| |first file_path|first text| |n]; simpl.
    - rewrite Hc. by eexists.
    - rewrite Hx. by eexists.
    - eexists. split; [done|]. unfold select_file. by case_decide.
    - by eexists.
    - unfold closeEvent, cancel_operation, thread_is_running.
      rewrite Ht, Hw. simpl. eexists. split; [done|]. simpl.
      by rewrite Hstop.
    - eexists. split; [done|]. by destruct n. }
  simpl. by apply IH.
Qed.

(** X13. [cancel_operation] twice is [cancel_operation] once, and after
    [cleanup] it changes nothing. *)
Theorem cancel_operation_idempotent (self : Window) :
  (cancel_operation self ≫= cancel_operation) = cancel_operation self
  ∧ cancel_operation (cleanup self) = Some (cleanup self).
Proof.
  split; [|done]. unfold cancel_operation, thread_is_running.
  destruct (worker_thread self) as [[]|] eqn:Et; simpl;
    rewrite ?Et; try done.
  by destruct (worker self) as [wk|] eqn:Ew.
Qed.

(** X14. The progress bar takes every progress value of a run: none is
    outside the range of the bar, where [setValue] would leave the old
    value. *)
Theorem progress_bar_takes_values w f1 f2 :
  Forall (λ n, match n with
               | progress_updated value =>
                   ∀ self, progress_bar (slot n self) = Z.of_nat value
               | _ => True
               end) (notifications (trace w f1 f2)).
Proof.
  destruct (emits_run w f1 f2 []) as (evs & Hevs & HP & _).
  unfold trace. rewrite Hevs. simpl.
  clear Hevs. induction HP as [|e evs He _ IH]; [constructor|].
  destruct e as [b|n]; [exact IH|].
  change (notifications (Emit n :: evs)) with (n :: notifications evs).
  constructor; [|exact IH]. destruct n; try done.
  intros self. simpl in *. rewrite decide_True; [done|lia].
Qed.

(** The window in which a comparison has been cancelled comes from the
    first one by two paths chosen and two clicks. *)
Example cancelled_window_reached :
  handle_all (λ _, true) init_ui
    [click_browse true "a.pdf"; click_browse false "b.pdf"; click_compare;
     click_cancel]
  = Some cancelled_window.
Proof. reflexivity. Qed.

(** The theorem at work: the run in which the second document is read
    page by page and the flag is cleared, by a click on "cancel", before
    the second page. *)
Lemma comparison_ends_idle_witness :
  ∃ self',
    handle_all (λ _, true) (start_comparison (λ _, true) window_a_b)
      [deliver (status_updated "Извлечение текста из a.pdf...");
       deliver (progress_updated 30);
       deliver (status_updated "Извлечение текста из b.pdf...");
       click_cancel; deliver (progress_updated 10); close_window;
       deliver finished; type_path true "e.pdf"]
    = Some self'
    ∧ compare_btn self' = true ∧ result_text self' = ""
    ∧ message_boxes self' = [].
Proof.
  destruct (comparison_ends_idle (λ _, true) (world (Some 2)) window_a_b
              [deliver (status_updated "Извлечение текста из a.pdf...");
               deliver (progress_updated 30);
               deliver (status_updated "Извлечение текста из b.pdf...");
               click_cancel; deliver (progress_updated 10); close_window;
               deliver finished; type_path true "e.pdf"])
    as (self' & Hall & _ & Hc & _ & _ & Hr & Hb & _).
  - discriminate.
  - discriminate.
  - reflexivity.
  - reflexivity.
  - vm_compute. reflexivity.
  - repeat constructor; discriminate.
  - exists self'. split; [exact Hall|]. split; [exact Hc|].
    split; [exact Hr|exact Hb].
Defined.

(** The theorem at work on the cancelled window: more progress comes
    in, the user asks to close the window and clicks again. *)
Lemma cleared_flag_stays_cleared_witness :
  ∃ self',
    handle_all (λ _, true) cancelled_window
      [deliver (progress_updated 23); close_window; click_cancel;
       click_compare]
    = Some self'
    ∧ worker_thread self' = Some true
    ∧ worker self' = Some (stop (Worker_init "a.pdf" "b.pdf")).
Proof.
  apply (cleared_flag_stays_cleared (λ _, true) cancelled_window).
  - split; [simpl; lia|]. simpl. split_and!; [done..|]. by eexists.
  - reflexivity.
  - reflexivity.
  - reflexivity.
  - repeat constructor; discriminate.
Defined.
